(** * nel: a Javascript REPL session (lib/nel.js)

    A shallow embedding of the controller side of [lib/nel.js]: the
    expression parser, the documentation lookup, the completion and
    inspection resolvers and the task queue of a [Session].

    Javascript strings are sequences of UTF-16 code units; here they are
    [string]s, so the code units are those of the Latin-1 range (0..255).
    Numbers used as positions are integers ([Z]).

    The functions that the caller supplies are part of the model: they
    have a body, which may call the session again. The worker is seen
    through the requests it has received and the replies it sends. The
    exit of the worker and [restart], which builds a new session in place
    once the worker has exited, are left out. *)

From Stdlib Require Import String Ascii List ZArith Bool Arith Lia.
Import ListNotations.

Local Open Scope string_scope.
Local Open Scope list_scope.
Local Open Scope nat_scope.

(** Concatenation of strings, the [+] of Javascript. *)
Notation "a +++ b" := (String.append a b) (at level 60, right associativity).

(* ================================================================== *)
(** * Javascript strings *)

Module Js.

(** The double quote and the single quote. *)
Definition dquote : ascii := "034"%char.
Definition squote : ascii := "039"%char.

(** [s[i]]: the code unit at index [i], [undefined] ([None]) out of range. *)
Definition at_ (s : string) (i : Z) : option ascii :=
  if (i <? 0)%Z then None else String.get (Z.to_nat i) s.

(** [String(x)] for [x] a one-unit string or [undefined]. *)
Definition toString (x : option ascii) : string :=
  match x with
  | Some c => String c ""
  | None => "undefined"
  end.

(** [s.charAt(i)]: a string of one unit, empty out of range. *)
Definition charAt (s : string) (i : Z) : string :=
  match at_ s i with
  | Some c => String c ""
  | None => ""
  end.

(** The first [n] units of [s], and [s] without them. *)
Fixpoint take (n : nat) (s : string) : string :=
  match n, s with
  | S n', String c s' => String c (take n' s')
  | _, _ => ""
  end.

Fixpoint drop (n : nat) (s : string) : string :=
  match n, s with
  | S n', String _ s' => drop n' s'
  | _, _ => s
  end.

(** [s.slice(start, end)], with the relative (negative) positions of
    [String.prototype.slice]. *)
Definition slice (s : string) (start end_ : Z) : string :=
  let len := Z.of_nat (String.length s) in
  let from := if (start <? 0)%Z then Z.max (len + start) 0 else Z.min start len in
  let to := if (end_ <? 0)%Z then Z.max (len + end_) 0 else Z.min end_ len in
  take (Z.to_nat (Z.max (to - from) 0)) (drop (Z.to_nat from) s).

(** [s.startsWith(search)] at position 0. *)
Fixpoint startsWith (s search : string) {struct search} : bool :=
  match search, s with
  | EmptyString, _ => true
  | String a search', String b s' => Ascii.eqb a b && startsWith s' search'
  | String _ _, EmptyString => false
  end.

(** [s.indexOf(search)]: the least position where [search] occurs, -1 if
    none. [k] is the position of [s] in the whole string. *)
Fixpoint indexOf_from (k : nat) (s search : string) : Z :=
  if startsWith s search then Z.of_nat k
  else match s with
       | EmptyString => (-1)%Z
       | String _ s' => indexOf_from (S k) s' search
       end.

Definition indexOf (s search : string) : Z := indexOf_from 0 s search.

(** [s.lastIndexOf(search, fromIndex)]: the greatest position not after
    [fromIndex] where [search] occurs, -1 if none. *)
Fixpoint lastIndexOf_down (s search : string) (k : nat) : Z :=
  if startsWith (drop k s) search then Z.of_nat k
  else match k with
       | O => (-1)%Z
       | S k' => lastIndexOf_down s search k'
       end.

Definition lastIndexOf (s search : string) (fromIndex : Z) : Z :=
  if String.length s <? String.length search then (-1)%Z
  else lastIndexOf_down s search
         (Nat.min (Z.to_nat (Z.max fromIndex 0)) (String.length s - String.length search)).

(** Truthiness of a string: non-empty. *)
Definition truthy (s : string) : bool :=
  match s with
  | EmptyString => false
  | String _ _ => true
  end.

End Js.

(* ================================================================== *)
(** * Regular expressions

    The fragment of Javascript regular expressions that the module uses,
    with the backtracking matcher of the language: alternatives are tried
    left to right, [*] is greedy, and an iteration of [*] that consumes
    nothing is rejected. *)

Module RegExp.

Inductive Re : Type :=
| Chr (p : ascii -> bool)   (* a character class *)
| Bol                       (* ^ *)
| Eol                       (* $ *)
| Eps                       (* the empty pattern *)
| Seq (r1 r2 : Re)
| Alt (r1 r2 : Re)
| Star (r : Re).

(** [r+] *)
Definition Plus (r : Re) : Re := Seq r (Star r).

(** A literal string. *)
Fixpoint Lit (s : string) : Re :=
  match s with
  | EmptyString => Eps
  | String c s' => Seq (Chr (Ascii.eqb c)) (Lit s')
  end.

(** Character classes. *)
Definition codeOf (c : ascii) : nat := nat_of_ascii c.

Definition between (lo hi : ascii) (c : ascii) : bool :=
  (codeOf lo <=? codeOf c) && (codeOf c <=? codeOf hi).

(** [\s], on the code units below 256: tab, line feed, vertical tab, form
    feed, carriage return, space and no-break space. *)
Definition space (c : ascii) : bool :=
  let n := codeOf c in
  ((9 <=? n) && (n <=? 13)) || (n =? 32) || (n =? 160).

(** [.]: any unit but a line terminator. *)
Definition dot (c : ascii) : bool :=
  let n := codeOf c in
  negb ((n =? 10) || (n =? 13)).

(** [[a-zA-Z]] *)
Definition alpha (c : ascii) : bool :=
  between "a" "z" c || between "A" "Z" c.

(** [[_$a-zA-Z]] *)
Definition identStart (c : ascii) : bool :=
  Ascii.eqb c "_" || Ascii.eqb c "$" || between "a" "z" c || between "A" "Z" c.

(** [[_$a-zA-Z0-9]] *)
Definition identPart (c : ascii) : bool :=
  Ascii.eqb c "_" || Ascii.eqb c "$" || between "a" "z" c || between "A" "Z" c
  || between "0" "9" c.

(** [r*], where [step] matches [r] once: another iteration is tried
    before the continuation [k] (the star is greedy), and an iteration
    that consumes nothing is rejected. [n] bounds the number of
    iterations: the length of the input is enough. *)
Fixpoint star {A : Type} (step : string -> (string -> option A) -> option A)
    (k : string -> option A) (n : nat) (s : string) {struct n} : option A :=
  match
    match n with
    | O => None
    | S n' =>
        step s
          (fun s' =>
             if String.length s' <? String.length s then star step k n' s'
             else None)
    end
  with
  | Some x => Some x
  | None => k s
  end.

(** The matcher: [m total r s k] matches [r] at the head of [s], the rest
    of an input of [total] units, and hands what is left to the
    continuation [k]; it answers with the first success in the order of
    backtracking. *)
Fixpoint m {A : Type} (total : nat) (r : Re) (s : string)
    (k : string -> option A) {struct r} : option A :=
  match r with
  | Chr p =>
      match s with
      | String c s' => if p c then k s' else None
      | EmptyString => None
      end
  | Bol => if String.length s =? total then k s else None
  | Eol =>
      match s with
      | EmptyString => k s
      | String _ _ => None
      end
  | Eps => k s
  | Seq r1 r2 => m total r1 s (fun s' => m total r2 s' k)
  | Alt r1 r2 =>
      match m total r1 s k with
      | Some x => Some x
      | None => m total r2 s k
      end
  | Star r1 => star (m total r1) k (String.length s) s
  end.

(** The result of [exec]: [re.index] and [re[0]]. *)
Record Match : Type := { index : nat; match0 : string }.

(** [exec]: the leftmost position at which the pattern matches. [s] is
    what is left of the input from position [i]. *)
Fixpoint exec_from (r : Re) (total i : nat) (s : string) : option Match :=
  match m total r s (fun rest => Some rest) with
  | Some rest =>
      Some {| index := i; match0 := Js.take (String.length s - String.length rest) s |}
  | None =>
      match s with
      | EmptyString => None
      | String _ s' => exec_from r total (S i) s'
      end
  end.

Definition exec (r : Re) (s : string) : option Match :=
  exec_from r (String.length s) 0 s.

(** [re.test(s)] *)
Definition test (r : Re) (s : string) : bool :=
  match exec r s with
  | Some _ => true
  | None => false
  end.

(** [s.replace(re, by)] for a pattern without the global flag and a
    replacement without [$] patterns: the first match is replaced. *)
Definition replace (s : string) (r : Re) (by_ : string) : string :=
  match exec r s with
  | Some re =>
      Js.take (index re) s +++ by_
        +++ Js.drop (index re + String.length (match0 re)) s
  | None => s
  end.

End RegExp.

Import RegExp.

(* ================================================================== *)
(** * The expression parser *)

(** [var whitespaceRE = /\s/;] *)
Definition whitespaceRE : Re := Chr space.

(** [var simpleIdentifierRE = /[_$a-zA-Z][_$a-zA-Z0-9]*$/;] *)
Definition simpleIdentifierRE : Re :=
  Seq (Chr identStart) (Seq (Star (Chr identPart)) Eol).

(** [var complexIdentifierRE =
      /[_$a-zA-Z][_$a-zA-Z0-9]*(?:[_$a-zA-Z][_$a-zA-Z0-9]*|\.[_$a-zA-Z][_$a-zA-Z0-9]*|\[".*"\]|\['.*'\])*$/;] *)
Definition complexIdentifierRE : Re :=
  Seq (Chr identStart)
    (Seq (Star (Chr identPart))
       (Seq (Star
               (Alt (Seq (Chr identStart) (Star (Chr identPart)))
                  (Alt (Seq (Lit ".") (Seq (Chr identStart) (Star (Chr identPart))))
                     (Alt (Seq (Lit (String "[" (String Js.dquote "")))
                             (Seq (Star (Chr dot))
                                (Lit (String Js.dquote "]"))))
                        (Seq (Lit (String "[" (String Js.squote "")))
                           (Seq (Star (Chr dot))
                              (Lit (String Js.squote "]"))))))))
          Eol)).

(** The typedef [Expression]. *)
Record Expression : Type := {
  matchedText : string;
  scope : string;
  leftOp : string;
  selector : string;
  rightOp : string
}.

Definition bracketDq : string := String "[" (String Js.dquote "").
Definition dqBracket : string := String Js.dquote "]".
Definition bracketSq : string := String "[" (String Js.squote "").
Definition sqBracket : string := String Js.squote "]".

Definition isChar (x : option ascii) (c : ascii) : bool :=
  match x with
  | Some d => Ascii.eqb d c
  | None => false
  end.

(** The tests on the end of [expression] (the chain of [if] that sets
    [leftOp] and [rightOp]): the operators and what is left of
    [expression], or [None] in the last [else]. *)
Definition stripOp (expression : string) : option (string * string * string) :=
  let len := Z.of_nat (String.length expression) in
  if isChar (Js.at_ expression (len - 1)) "." then
    Some (".", "", Js.slice expression 0 (len - 1))
  else if isChar (Js.at_ expression (len - 2)) "["
          && isChar (Js.at_ expression (len - 1)) Js.dquote then
    Some (bracketDq, dqBracket, Js.slice expression 0 (len - 2))
  else if isChar (Js.at_ expression (len - 2)) "["
          && isChar (Js.at_ expression (len - 1)) Js.squote then
    Some (bracketSq, sqBracket, Js.slice expression 0 (len - 2))
  else None.

(** [function parseExpression(code, cursorPos)]; [None] is [null]. *)
Definition parseExpression (code : string) (cursorPos : Z) : option Expression :=
  let expression := Js.slice code 0 cursorPos in
  if negb (Js.truthy expression)
     || test whitespaceRE
          (Js.toString (Js.at_ expression (Z.of_nat (String.length expression) - 1)))
  then
    Some {| matchedText := ""; scope := ""; leftOp := ""; selector := "";
            rightOp := "" |}
  else
    let re := exec simpleIdentifierRE expression in
    let selector :=
      match re with
      | None => ""
      | Some re => match0 re
      end in
    let expression :=
      match re with
      | None => expression
      | Some re => Js.slice expression 0 (Z.of_nat (index re))
      end in
    match stripOp expression with
    | None =>
        Some {| matchedText :=
                  Js.slice code (Z.of_nat (String.length expression)) cursorPos;
                scope := ""; leftOp := ""; selector := selector;
                rightOp := "" |}
    | Some (leftOp, rightOp, expression) =>
        match exec complexIdentifierRE expression with
        | Some re =>
            Some {| matchedText := Js.slice code (Z.of_nat (index re)) cursorPos;
                    scope := match0 re; leftOp := leftOp; selector := selector;
                    rightOp := rightOp |}
        | None =>
            if negb (Js.truthy leftOp) then
              Some {| matchedText :=
                        Js.slice code (Z.of_nat (String.length expression)) cursorPos;
                      scope := ""; leftOp := leftOp; selector := selector;
                      rightOp := rightOp |}
            else
              (* Not implemented *)
              None
        end
    end.

(* ================================================================== *)
(** * Results *)

(** The typedef [Documentation]. *)
Record Documentation : Type := {
  description : string;
  usage : option string;
  url : string
}.

(** The [error] of an [ErrorResult]. *)
Record Error : Type := {
  ename : string;
  evalue : string;
  traceback : list string
}.

(** The [completion] of a [CompletionResult]. *)
Record Completion : Type := {
  c_list : list string;
  c_code : string;
  c_cursorPos : Z;
  c_matchedText : string;
  c_cursorStart : Z;
  c_cursorEnd : Z
}.

(** The [inspection] of an [InspectionResult]; the worker leaves [code],
    [cursorPos] and [matchedText] undefined. *)
Record Inspection : Type := {
  i_code : option string;
  i_cursorPos : option Z;
  i_matchedText : option string;
  i_string : string;
  i_type : string;
  constructorList : option (list string);
  i_length : option Z
}.

(** What the worker sends and what the callbacks receive: the typedefs
    [ErrorResult] and [SuccessResult]. A message has the property [error]
    exactly when it is an [ErrorResult]. *)
Inductive Result : Type :=
| ErrorResult (error : Error)
| ExecutionResult (mime : list (string * string))
| CompletionResult (completion : Completion)
| InspectionResult (inspection : Inspection) (doc : option Documentation)
| NameListResult (names : list string).

Definition hasOwnProperty_error (message : Result) : bool :=
  match message with
  | ErrorResult _ => true
  | _ => false
  end.

(* ================================================================== *)
(** * Completion *)

(** [var javascriptKeywords] *)
Definition javascriptKeywords : list string := [
  (* keywords *)
  "break"; "case"; "catch"; "continue"; "debugger"; "default";
  "delete"; "do"; "else"; "finally"; "for"; "function"; "if";
  "in"; "instanceof"; "new"; "return"; "switch"; "this";
  "throw"; "try"; "typeof"; "var"; "void"; "while"; "with";
  (* future reserved words *)
  "class"; "const"; "enum"; "export"; "extends"; "import";
  "super";
  (* future reserved words in strict mode *)
  "implements"; "interface"; "let"; "package"; "private";
  "protected"; "public"; "static"; "yield";
  (* null literal *)
  "null";
  (* boolean literals *)
  "true"; "false"
].

(** [function(p, c) { return p.length <= c.length ? p : c; }] *)
Definition shorter (p c : string) : string :=
  if String.length p <=? String.length c then p else c.

(** The loop
    [for (var i = 0; i < ml && cursorEnd < cl; i++, cursorEnd++)
       if (shortestMatch.charAt(i) !== code.charAt(cursorEnd)) break;]
    run for at most [fuel] iterations; its value is [cursorEnd]. *)
Fixpoint scan (fuel : nat) (shortestMatch code : string) (i cursorEnd : Z) : Z :=
  match fuel with
  | O => cursorEnd
  | S fuel' =>
      if ((i <? Z.of_nat (String.length shortestMatch))
          && (cursorEnd <? Z.of_nat (String.length code)))%Z
      then
        if negb (String.eqb (Js.charAt shortestMatch i) (Js.charAt code cursorEnd))
        then cursorEnd
        else scan fuel' shortestMatch code (i + 1)%Z (cursorEnd + 1)%Z
      else cursorEnd
  end.

(** The body of the [onSuccess] of the task of [complete], up to the
    completion handed to [onCompletionSuccess]; [names] is [result.names].
    The loop runs at most [ml] times, as [i] counts from 0 to [ml]. *)
Definition completion (code : string) (cursorPos : Z) (expression : Expression)
    (names : list string) : Completion :=
  let matchList : list string := [] in
  (* append list of all property names *)
  let matchList := matchList ++ names in
  (* append list of reserved words *)
  let matchList :=
    if String.eqb (scope expression) "" then matchList ++ javascriptKeywords
    else matchList in
  (* filter matches *)
  let matchList :=
    if Js.truthy (selector expression) then
      filter (fun e => (Js.lastIndexOf e (selector expression) 0 =? 0)%Z) matchList
    else matchList in
  (* append expression.rightOp to each match *)
  let left := scope expression +++ leftOp expression in
  let right := rightOp expression in
  let matchList :=
    if Js.truthy left || Js.truthy right then
      map (fun e => left +++ e +++ right) matchList
    else matchList in
  (* find range of text that should be replaced *)
  let range :=
    match matchList with
    | first :: others =>
        let shortestMatch := fold_left shorter others first in
        let cursorStart := Js.indexOf code (matchedText expression) in
        (cursorStart,
         scan (String.length shortestMatch) shortestMatch code 0%Z cursorStart)
    | [] => (cursorPos, cursorPos)
    end in
  {| c_list := matchList; c_code := code; c_cursorPos := cursorPos;
     c_matchedText := matchedText expression;
     c_cursorStart := fst range; c_cursorEnd := snd range |}.

(** The completion that [complete] delivers when the expression is [null]. *)
Definition noCompletion (code : string) (cursorPos : Z) : Completion :=
  {| c_list := []; c_code := code; c_cursorPos := cursorPos;
     c_matchedText := ""; c_cursorStart := cursorPos; c_cursorEnd := cursorPos |}.

(* ================================================================== *)
(** * Callbacks and tasks *)

(** A function supplied by the caller: it has a name, under which the
    trace records each of its invocations, and a body that may call the
    public operations of the session again. *)
Inductive Fn : Type :=
| fn (name : string) (body : list Call)

(** A call of a public operation of [Session.prototype]. *)
with Call : Type :=
| CallExecute (code : string)
    (onExecutionSuccess onError beforeRun afterRun : option Fn)
| CallComplete (code : string) (cursorPos : Z)
    (onCompletionSuccess onError beforeRun afterRun : option Fn)
| CallInspect (code : string) (cursorPos : Z)
    (onInspectionSuccess onError beforeRun afterRun : option Fn)
| CallKill (signal : option string) (killCB : option Fn).

(** The [onSuccess] of a task: the caller's function ([execute]) or one of
    the closures that [complete] and [inspect] build, with the variables
    they capture. *)
Inductive OnSuccess : Type :=
| OnExecution (onExecutionSuccess : Fn)
| OnNameList (code : string) (cursorPos : Z) (expression : Expression)
    (onCompletionSuccess : option Fn)
| OnInspection (code : string) (cursorPos : Z) (expression : Expression)
    (onInspectionSuccess onError beforeRun afterRun : option Fn)
| OnScopeInspection (inspectionResult : Result) (expression : Expression)
    (onInspectionSuccess afterRun : option Fn).

(** The typedef [Task]. *)
Record Task : Type := {
  action : string;
  code : string;
  onSuccess : option OnSuccess;
  onError : option Fn;
  beforeRun : option Fn;
  afterRun : option Fn
}.

(** The request that a task sends: [[task.action, task.code]]. *)
Definition request (task : Task) : string * string := (action task, code task).

(** What can be observed of a session, in order. *)
Inductive Event : Type :=
| LogMessage (message : Result)        (* log("SESSION: MESSAGE", message) *)
| LogTask (task : Task)                (* log("SESSION: TASK:", task) *)
| LogExecute (code : string)           (* log("SESSION: EXECUTE:", code) *)
| LogComplete (expression : option Expression)
| LogInspect (expression : option Expression)
| Send (message : string * string)     (* this._server.send(message) *)
| Kill (signal : string)               (* this._server.kill(signal) *)
| Invoke (name : string) (argument : option Result)
| TypeError.

(** A session and its worker: the members [_task], [_tasks] and [_killed]
    of [Session]; of [_server], whether the listener of "message" is
    attached, the listeners of "exit" and the requests that the worker has
    received and not yet answered; and the trace. *)
Record World : Type := {
  _task : option Task;
  _tasks : list Task;
  _killed : bool;
  listening : bool;
  exitListeners : list (option Fn);
  channel : list (string * string);
  trace : list Event
}.

(** [new Session(nelConfig)] *)
Definition Session : World :=
  {| _task := None; _tasks := []; _killed := false; listening := true;
     exitListeners := []; channel := []; trace := [] |}.

Definition set_task (t : option Task) (w : World) : World :=
  {| _task := t; _tasks := _tasks w; _killed := _killed w;
     listening := listening w; exitListeners := exitListeners w;
     channel := channel w; trace := trace w |}.

Definition set_tasks (ts : list Task) (w : World) : World :=
  {| _task := _task w; _tasks := ts; _killed := _killed w;
     listening := listening w; exitListeners := exitListeners w;
     channel := channel w; trace := trace w |}.

Definition set_channel (c : list (string * string)) (w : World) : World :=
  {| _task := _task w; _tasks := _tasks w; _killed := _killed w;
     listening := listening w; exitListeners := exitListeners w;
     channel := c; trace := trace w |}.

Definition emit (e : Event) (w : World) : World :=
  {| _task := _task w; _tasks := _tasks w; _killed := _killed w;
     listening := listening w; exitListeners := exitListeners w;
     channel := channel w; trace := trace w ++ [e] |}.

(** [this._server.send(message)] *)
Definition send (message : string * string) (w : World) : World :=
  emit (Send message) (set_channel (channel w ++ [message]) w).

(* ================================================================== *)
(** * The task queue *)

Section Operations.

(** How a function of the caller is invoked. *)
Variable call : Fn -> option Result -> World -> World.

Definition call_if (f : option Fn) (argument : option Result) (w : World) : World :=
  match f with
  | Some f => call f argument w
  | None => w
  end.

(** [Session.prototype._runNow]. No callback assigns [this._task] while a
    task is in flight (lemma [invoke_perform_quiet]), so that [this._task]
    is still [task] when the request is sent. *)
Definition _runNow (task : Task) (w : World) : World :=
  let w := set_task (Some task) w in
  let w := call_if (beforeRun task) None w in
  send (action task, code task) w.

(** [Session.prototype._runLater] *)
Definition _runLater (task : Task) (w : World) : World :=
  set_tasks (_tasks w ++ [task]) w.

(** [Session.prototype._run] *)
Definition _run (task : Task) (w : World) : World :=
  if _killed w then w
  else
    let w := emit (LogTask task) w in
    match _task w with
    | None => _runNow task w
    | Some _ => _runLater task w
    end.

(** The task of [execute]. *)
Definition executeTask (code : string)
    (onExecutionSuccess onError beforeRun afterRun : option Fn) : Task :=
  {| action := "run"; code := code;
     onSuccess := option_map OnExecution onExecutionSuccess;
     onError := onError; beforeRun := beforeRun; afterRun := afterRun |}.

(** [Session.prototype.execute] *)
Definition execute (code : string)
    (onExecutionSuccess onError beforeRun afterRun : option Fn) (w : World) : World :=
  let w := emit (LogExecute code) w in
  _run (executeTask code onExecutionSuccess onError beforeRun afterRun) w.

(** The task of [complete]. *)
Definition completeTask (code : string) (cursorPos : Z) (expression : Expression)
    (onCompletionSuccess onError beforeRun afterRun : option Fn) : Task :=
  {| action := "getAllPropertyNames";
     code := if String.eqb (scope expression) "" then "global"
             else scope expression;
     beforeRun := beforeRun; afterRun := afterRun;
     onSuccess := Some (OnNameList code cursorPos expression onCompletionSuccess);
     onError := onError |}.

(** [Session.prototype.complete] *)
Definition complete (code : string) (cursorPos : Z)
    (onCompletionSuccess onError beforeRun afterRun : option Fn) (w : World) : World :=
  let expression := parseExpression code cursorPos in
  let w := emit (LogComplete expression) w in
  match expression with
  | None =>
      call_if onCompletionSuccess
        (Some (CompletionResult (noCompletion code cursorPos))) w
  | Some expression =>
      _run (completeTask code cursorPos expression
              onCompletionSuccess onError beforeRun afterRun) w
  end.

(** The first task of [inspect]. *)
Definition inspectTask (code : string) (cursorPos : Z) (expression : Expression)
    (onInspectionSuccess onError beforeRun afterRun : option Fn) : Task :=
  {| action := "inspect"; code := matchedText expression;
     beforeRun := beforeRun;
     onSuccess :=
       Some (OnInspection code cursorPos expression
               onInspectionSuccess onError beforeRun afterRun);
     onError := onError; afterRun := None |}.

(** The inspection that [inspect] delivers when the expression is [null]. *)
Definition noInspection (code : string) (cursorPos : Z) : Inspection :=
  {| i_code := Some code; i_cursorPos := Some cursorPos;
     i_matchedText := Some ""; i_string := ""; i_type := "";
     constructorList := None; i_length := None |}.

(** [Session.prototype.inspect] *)
Definition inspect (code : string) (cursorPos : Z)
    (onInspectionSuccess onError beforeRun afterRun : option Fn) (w : World) : World :=
  let expression := parseExpression code cursorPos in
  let w := emit (LogInspect expression) w in
  match expression with
  | None =>
      call_if onInspectionSuccess
        (Some (InspectionResult (noInspection code cursorPos) None)) w
  | Some expression =>
      _run (inspectTask code cursorPos expression
              onInspectionSuccess onError beforeRun afterRun) w
  end.

(** [signal || "SIGTERM"] *)
Definition signal_or_SIGTERM (signal : option string) : string :=
  match signal with
  | Some s => if Js.truthy s then s else "SIGTERM"
  | None => "SIGTERM"
  end.

(** [Session.prototype.kill]: [removeAllListeners] detaches the listener of
    "message" and the earlier listeners of "exit". *)
Definition kill (signal : option string) (killCB : option Fn) (w : World) : World :=
  let w := emit (Kill (signal_or_SIGTERM signal)) w in
  {| _task := _task w; _tasks := _tasks w; _killed := true;
     listening := false; exitListeners := [killCB];
     channel := channel w; trace := trace w |}.

End Operations.

(** Invoking a function of the caller: the invocation is recorded, then
    the calls of its body are made in order. *)
Fixpoint invoke (f : Fn) (argument : option Result) (w : World) {struct f} : World :=
  match f with
  | fn name body =>
      (fix calls (cs : list Call) (w : World) {struct cs} : World :=
         match cs with
         | [] => w
         | c :: cs' => calls cs' (perform c w)
         end) body (emit (Invoke name argument) w)
  end

with perform (c : Call) (w : World) {struct c} : World :=
  match c with
  | CallExecute code onExecutionSuccess onError beforeRun afterRun =>
      execute invoke code onExecutionSuccess onError beforeRun afterRun w
  | CallComplete code cursorPos onCompletionSuccess onError beforeRun afterRun =>
      complete invoke code cursorPos onCompletionSuccess onError beforeRun afterRun w
  | CallInspect code cursorPos onInspectionSuccess onError beforeRun afterRun =>
      inspect invoke code cursorPos onInspectionSuccess onError beforeRun afterRun w
  | CallKill signal killCB => kill signal killCB w
  end.

(* ================================================================== *)
(** * Documentation and inspection *)

(** [/^[a-zA-Z]+Error./] and [/^[a-zA-Z]+Array./] *)
Definition errorPrefixRE : Re :=
  Seq Bol (Seq (Plus (Chr alpha)) (Seq (Lit "Error") (Chr dot))).

Definition arrayPrefixRE : Re :=
  Seq Bol (Seq (Plus (Chr alpha)) (Seq (Lit "Array") (Chr dot))).

Section Documented.

(** [var doc = require("./mdn.js")]: the table of the documentation of the
    builtins; [doc name] is [doc[name]] when [name in doc]. *)
Variable doc : string -> option Documentation.

(** [function getDocumentation(name)]; [None] is [null]. *)
Definition getDocumentation (name : string) : option Documentation :=
  let builtinName := name in
  match doc builtinName with
  | Some d => Some d
  | None =>
      let builtinName := replace name errorPrefixRE "Error." in
      match doc builtinName with
      | Some d => Some d
      | None =>
          let builtinName := replace name arrayPrefixRE "TypedArray." in
          match doc builtinName with
          | Some d => Some d
          | None => None
          end
      end
  end.

(** The loop [for (var i in constructorList)] of the second task of
    [inspect]: the value of [doc] at the [break], if any. *)
Fixpoint searchConstructors (constructorList : list string) (selector : string)
    : option Documentation :=
  match constructorList with
  | [] => None
  | constructorName :: rest =>
      match getDocumentation (constructorName +++ ".prototype." +++ selector) with
      | Some d => Some d
      | None => searchConstructors rest selector
      end
  end.

(** [if (doc) { inspectionResult.doc = doc; }] *)
Definition attach (found current : option Documentation) : option Documentation :=
  match found with
  | Some d => Some d
  | None => current
  end.

(** The assignments of [code], [cursorPos] and [matchedText] to
    [inspectionResult.inspection]. *)
Definition stamp (code : string) (cursorPos : Z) (expression : Expression)
    (inspection : Inspection) : Inspection :=
  {| i_code := Some code; i_cursorPos := Some cursorPos;
     i_matchedText := Some (matchedText expression);
     i_string := i_string inspection; i_type := i_type inspection;
     constructorList := constructorList inspection;
     i_length := i_length inspection |}.

(** [function invokeCallbacks()] of [inspect] *)
Definition invokeCallbacks (inspectionResult : Result)
    (onInspectionSuccess afterRun : option Fn) (w : World) : World :=
  let w := call_if invoke onInspectionSuccess (Some inspectionResult) w in
  call_if invoke afterRun None w.

(** The second task of [inspect]. *)
Definition scopeTask (inspection : Inspection) (doc0 : option Documentation)
    (expression : Expression)
    (onInspectionSuccess onError beforeRun afterRun : option Fn) : Task :=
  {| action := "inspect"; code := scope expression;
     beforeRun := beforeRun;
     onSuccess :=
       Some (OnScopeInspection (InspectionResult inspection doc0) expression
               onInspectionSuccess afterRun);
     onError := onError; afterRun := None |}.

(** [function getDocumentationAndInvokeCallbacks()] of [inspect];
    [inspectionResult] is [{inspection: inspection, doc: doc0}]. *)
Definition getDocumentationAndInvokeCallbacks
    (inspection : Inspection) (doc0 : option Documentation)
    (expression : Expression)
    (onInspectionSuccess onError beforeRun afterRun : option Fn) (w : World) : World :=
  if negb (Js.truthy (scope expression)) then
    (* Find documentation associated with the matched text *)
    let found := getDocumentation (matchedText expression) in
    invokeCallbacks (InspectionResult inspection (attach found doc0))
      onInspectionSuccess afterRun w
  else
    (* Find documentation by searching the chain of constructors *)
    _run invoke
      (scopeTask inspection doc0 expression
         onInspectionSuccess onError beforeRun afterRun) w.

(** Calling [task.onSuccess(result)]. A closure of [complete] or [inspect]
    that is handed a result of another kind reads a property of
    [undefined]. *)
Definition applyOnSuccess (cb : OnSuccess) (result : Result) (w : World) : World :=
  match cb with
  | OnExecution onExecutionSuccess => invoke onExecutionSuccess (Some result) w
  | OnNameList code cursorPos expression onCompletionSuccess =>
      match result with
      | NameListResult names =>
          call_if invoke onCompletionSuccess
            (Some (CompletionResult (completion code cursorPos expression names))) w
      | _ => emit TypeError w
      end
  | OnInspection code cursorPos expression
      onInspectionSuccess onError beforeRun afterRun =>
      match result with
      | InspectionResult inspection doc0 =>
          getDocumentationAndInvokeCallbacks
            (stamp code cursorPos expression inspection) doc0 expression
            onInspectionSuccess onError beforeRun afterRun w
      | _ => emit TypeError w
      end
  | OnScopeInspection inspectionResult expression onInspectionSuccess afterRun =>
      match result, inspectionResult with
      | InspectionResult scopeInspection _, InspectionResult inspection doc0 =>
          let found :=
            match constructorList scopeInspection with
            | Some constructorList =>
                searchConstructors constructorList (selector expression)
            | None => None
            end in
          invokeCallbacks (InspectionResult inspection (attach found doc0))
            onInspectionSuccess afterRun w
      | _, _ => emit TypeError w
      end
  end.

(** The end of [_onMessage]: are there any tasks left on the queue? *)
Definition runNext (w : World) : World :=
  match _tasks w with
  | task :: rest => _runNow invoke task (set_tasks rest w)
  | [] => set_task None w
  end.

(** [Session.prototype._onMessage]. [this._task] is read once: no callback
    assigns it while a task is in flight (lemma [invoke_perform_quiet]).
    With no task in flight, [this._task.onError] is a property of [null],
    which does not happen on a session that runs from its creation (lemma
    [run_never_throws]). *)
Definition _onMessage (message : Result) (w : World) : World :=
  let w := emit (LogMessage message) w in
  match _task w with
  | None => emit TypeError w
  | Some task =>
      let w :=
        if hasOwnProperty_error message then
          call_if invoke (onError task) (Some message) w
        else
          match onSuccess task with
          | Some cb => applyOnSuccess cb message w
          | None => w
          end in
      let w := call_if invoke (afterRun task) None w in
      runNext w
  end.

(** ** The session and its worker *)

(** What happens to a session: the caller calls an operation, or the
    worker answers the oldest request it has received. *)
Inductive Input : Type :=
| Do (c : Call)
| Reply (message : Result).

(** The contract of the worker: an error, or the result of the action. *)
Definition conforms (message : Result) (req : string * string) : bool :=
  match message with
  | ErrorResult _ => true
  | ExecutionResult _ => String.eqb (fst req) "run"
  | NameListResult _ => String.eqb (fst req) "getAllPropertyNames"
  | InspectionResult _ _ => String.eqb (fst req) "inspect"
  | CompletionResult _ => false
  end.

(** One input; [None] when the worker cannot send this message. The
    message is handled by [_onMessage] if the listener is attached. *)
Definition react (i : Input) (w : World) : option World :=
  match i with
  | Do c => Some (perform c w)
  | Reply message =>
      match channel w with
      | [] => None
      | req :: rest =>
          if conforms message req then
            let w := set_channel rest w in
            Some (if listening w then _onMessage message w else w)
          else None
      end
  end.

Fixpoint run (inputs : list Input) (w : World) : option World :=
  match inputs with
  | [] => Some w
  | i :: inputs' =>
      match react i w with
      | Some w' => run inputs' w'
      | None => None
      end
  end.

End Documented.

(* ================================================================== *)
(** * Specifications

    What the theorems below say of the code above: the shapes of the
    expressions, the range of a completion, the first documented
    constructor, what a trace shows of a session, and the examples. *)

Import Js.

(** ** Of strings and patterns *)

(** [s.slice(0, end)] is a prefix of [s]. *)
Definition upto (s : string) (end_ : Z) : nat :=
  Z.to_nat
    (if (end_ <? 0)%Z then Z.max (Z.of_nat (String.length s) + end_) 0
     else Z.min end_ (Z.of_nat (String.length s))).

(** A pattern that ends with [$]. *)
Fixpoint ends_eol (r : Re) : bool :=
  match r with
  | Eol => true
  | Seq _ r2 => ends_eol r2
  | _ => false
  end.

(** All the units of [s] are in the class [p]. *)
Fixpoint all (p : ascii -> bool) (s : string) : bool :=
  match s with
  | EmptyString => true
  | String c s' => p c && all p s'
  end.

(** The choice of a run of units of a class by a greedy star: the
    continuation is tried after the longest run first, then after the
    shorter ones. *)
Fixpoint greedy {A : Type} (p : ascii -> bool) (k : string -> option A)
    (s : string) : option A :=
  match s with
  | String c s' =>
      if p c then
        match greedy p k s' with
        | Some x => Some x
        | None => k s
        end
      else k s
  | EmptyString => k s
  end.

(** [/^[a-zA-Z]+<lit>./] *)
Definition prefixRE (lit : string) : Re :=
  Seq Bol (Seq (Plus (Chr alpha)) (Seq (Lit lit) (Chr dot))).

(** What a pattern matches, whatever comes before and after: [^] and [$]
    match nothing. *)
Inductive matches : Re -> string -> Prop :=
| matches_chr (p : ascii -> bool) (c : ascii) :
    p c = true -> matches (Chr p) (String c "")
| matches_bol : matches Bol ""
| matches_eol : matches Eol ""
| matches_eps : matches Eps ""
| matches_seq (r1 r2 : Re) (u1 u2 : string) :
    matches r1 u1 -> matches r2 u2 -> matches (Seq r1 r2) (u1 +++ u2)
| matches_alt_l (r1 r2 : Re) (u : string) : matches r1 u -> matches (Alt r1 r2) u
| matches_alt_r (r1 r2 : Re) (u : string) : matches r2 u -> matches (Alt r1 r2) u
| matches_star_nil (r : Re) : matches (Star r) ""
| matches_star_cons (r : Re) (u1 u2 : string) :
    matches r u1 -> matches (Star r) u2 -> matches (Star r) (u1 +++ u2).

(** A pattern with [^] in it. *)
Fixpoint anchored (r : Re) : bool :=
  match r with
  | Bol => true
  | Seq r1 r2 | Alt r1 r2 => anchored r1 || anchored r2
  | Star r1 => anchored r1
  | _ => false
  end.

(** [s] ends with a unit of the class [q]. *)
Definition endsWith (q : ascii -> bool) (s : string) : Prop :=
  exists (pre : string) (c : ascii), s = pre +++ String c "" /\ q c = true.

(** ** Of expressions *)

(** The expression of a position at the start of the input or after
    white space. *)
Definition emptyExpression : Expression :=
  {| matchedText := ""; scope := ""; leftOp := ""; selector := ""; rightOp := "" |}.

(** The expressions that [parseExpression] returns: the empty one, an
    identifier alone, or a scope, an operator and a selector. *)
Inductive parsed (prefix : string) : Expression -> Prop :=
| parsed_empty : parsed prefix emptyExpression
| parsed_identifier (pre sel : string) :
    prefix = pre +++ sel ->
    parsed prefix
      {| matchedText := sel; scope := ""; leftOp := ""; selector := sel;
         rightOp := "" |}
| parsed_property (pre sc lop rop sel : string) :
    prefix = pre +++ sc +++ lop +++ sel ->
    sc <> "" -> lop <> "" ->
    parsed prefix
      {| matchedText := sc +++ lop +++ sel; scope := sc; leftOp := lop;
         selector := sel; rightOp := rop |}.

(** An identifier: a unit of [[_$a-zA-Z]] and then units of
    [[_$a-zA-Z0-9]]. *)
Definition identifier (s : string) : bool :=
  match s with
  | String c s' => identStart c && all identPart s'
  | EmptyString => false
  end.

(** A unit that may end a complex identifier. *)
Definition identEnd (c : ascii) : bool := identPart c || Ascii.eqb c "]".

(** The operators that select a property, with what closes them. *)
Definition operators (leftOp rightOp : string) : Prop :=
  (leftOp = "." /\ rightOp = "")
  \/ (leftOp = bracketDq /\ rightOp = dqBracket)
  \/ (leftOp = bracketSq /\ rightOp = sqBracket).

(** [parseExpression] from the point where the selector is known:
    [prefix] is [code.slice(0, cursorPos)] and [expression] what is left
    of it before the selector. *)
Definition afterSelector (prefix expression selector : string) : option Expression :=
  match stripOp expression with
  | None =>
      Some {| matchedText := drop (String.length expression) prefix;
              scope := ""; leftOp := ""; selector := selector; rightOp := "" |}
  | Some (leftOp, rightOp, expression) =>
      match exec complexIdentifierRE expression with
      | Some re =>
          Some {| matchedText := drop (index re) prefix;
                  scope := match0 re; leftOp := leftOp; selector := selector;
                  rightOp := rightOp |}
      | None =>
          if negb (truthy leftOp) then
            Some {| matchedText := drop (String.length expression) prefix;
                    scope := ""; leftOp := leftOp; selector := selector;
                    rightOp := rightOp |}
          else None
      end
  end.

(** The expression of a property: the selector [sel] comes after the
    operator [leftOp], and [pre] is the text before the operator. *)
Definition propertyOf (prefix pre leftOp rightOp sel : string) : option Expression :=
  match exec complexIdentifierRE pre with
  | Some re =>
      Some {| matchedText := drop (index re) prefix; scope := match0 re;
              leftOp := leftOp; selector := sel; rightOp := rightOp |}
  | None => None
  end.

(** The expression [e] after [x] is typed: the selector and what is
    matched grow by [x]. *)
Definition extended (e : Expression) (x : string) : Expression :=
  {| matchedText := matchedText e +++ x; scope := scope e; leftOp := leftOp e;
     selector := selector e +++ x; rightOp := rightOp e |}.

(** ** Of completions *)

(** The reserved words of ECMA-262, by their kind: the keywords, the
    future reserved words, those of the strict mode, the null literal and
    the boolean literals. *)
Definition keywords : list string :=
  ["break"; "case"; "catch"; "continue"; "debugger"; "default"; "delete";
   "do"; "else"; "finally"; "for"; "function"; "if"; "in"; "instanceof";
   "new"; "return"; "switch"; "this"; "throw"; "try"; "typeof"; "var";
   "void"; "while"; "with"].

Definition futureReservedWords : list string :=
  ["class"; "const"; "enum"; "export"; "extends"; "import"; "super"].

Definition strictReservedWords : list string :=
  ["implements"; "interface"; "let"; "package"; "private"; "protected";
   "public"; "static"; "yield"].

Definition nullLiteral : list string := ["null"].

Definition booleanLiterals : list string := ["true"; "false"].

(** All the reserved words, in their fixed order. *)
Definition reservedWords : list string :=
  keywords ++ futureReservedWords ++ strictReservedWords
  ++ nullLiteral ++ booleanLiterals.

(** The names that start with "foo", of the example. *)
Definition fooNames : list string := ["foo"; "foobar"; "bar"].

(** The number of units on which two strings agree from their start. *)
Fixpoint agree (a b : string) : nat :=
  match a, b with
  | String x a', String y b' => if Ascii.eqb x y then S (agree a' b') else 0
  | _, _ => 0
  end.

(** [x] is the first of the shortest entries of [l]. *)
Definition first_shortest (l : list string) (x : string) : Prop :=
  exists l1 l2 : list string,
    l = l1 ++ x :: l2
    /\ Forall (fun y => String.length x < String.length y) l1
    /\ Forall (fun y => String.length x <= String.length y) l2.

(** [search] occurs in [s] at the position [k]. *)
Definition occurs_at (s search : string) (k : nat) : Prop :=
  k <= String.length s /\ exists rest : string, drop k s = search +++ rest.

(** [k] is the index of [search] within [s]: the first position where it
    occurs. *)
Definition index_of (s search : string) (k : nat) : Prop :=
  occurs_at s search k /\ forall i : nat, i < k -> ~ occurs_at s search i.

(** The names that [complete] keeps: those of the worker, followed by the
    reserved words when there is no scope, that start with the selector. *)
Definition candidates (e : Expression) (names : list string) : list string :=
  filter (fun name => startsWith name (selector e))
    (if String.eqb (scope e) "" then names ++ javascriptKeywords else names).

(** ** Of the documentation *)

(** A table with one entry. *)
Definition oneEntry (key : string) (d : Documentation) (name : string)
    : option Documentation :=
  if String.eqb name key then Some d else None.

Definition someDoc : Documentation :=
  {| description := "description"; usage := None; url := "url" |}.

(** The constructors of the typed arrays. *)
Definition typedArrays : list string :=
  ["Int8Array"; "Uint8Array"; "Uint8ClampedArray"; "Int16Array"; "Uint16Array";
   "Int32Array"; "Uint32Array"; "Float32Array"; "Float64Array"].

(** [found] is the documentation of the first constructor of the list
    that has one for the selector, if any. *)
Definition first_documented (doc : string -> option Documentation)
    (constructorList : list string) (selector : string)
    (found : option Documentation) : Prop :=
  let undocumented constructorName :=
    getDocumentation doc (constructorName +++ ".prototype." +++ selector) = None in
  match found with
  | Some d =>
      exists (l1 : list string) (constructorName : string) (l2 : list string),
        constructorList = l1 ++ constructorName :: l2
        /\ Forall undocumented l1
        /\ getDocumentation doc (constructorName +++ ".prototype." +++ selector)
           = Some d
  | None => Forall undocumented constructorList
  end.

(** The first unit of [s] is a letter. *)
Definition startsWithLetter (s : string) : bool :=
  match s with
  | String c _ => alpha c
  | EmptyString => false
  end.

(** ** Of sessions *)

(** The [afterRun] of a task, under a name that the arguments of the
    session's methods do not hide. *)
Definition afterRunOf (task : Task) : option Fn := afterRun task.

(** A function of the caller that calls nothing. *)
Definition opaque (name : string) : option Fn := Some (fn name []).

(** What is seen of a session at the end of a run: the trace, the task in
    flight and the queue. *)
Definition observe (w : World) : list Event * option Task * list Task :=
  (trace w, _task w, _tasks w).

(** The calls of a body, in order. *)
Fixpoint performAll (cs : list Call) (w : World) : World :=
  match cs with
  | [] => w
  | c :: cs' => performAll cs' (perform c w)
  end.

(** The requests sent, and the requests of the tasks submitted, in order. *)
Definition sent (t : list Event) : list (string * string) :=
  flat_map (fun e => match e with Send message => [message] | _ => [] end) t.

Definition submitted (t : list Event) : list (string * string) :=
  flat_map (fun e => match e with LogTask task => [request task] | _ => [] end) t.

(** The number of requests that wait for their reply, as the events go:
    [None] once a request is sent while another waits, or a message is
    handled while none waits. *)
Definition tick (st : option nat) (e : Event) : option nat :=
  match e with
  | Send _ =>
      match st with
      | Some 0 => Some 1
      | _ => None
      end
  | LogMessage _ =>
      match st with
      | Some 1 => Some 0
      | _ => None
      end
  | _ => st
  end.

Definition outstanding (t : list Event) : option nat := fold_left tick t (Some 0).

(** An event that is neither a request nor the handling of a message. *)
Definition silent (e : Event) : bool :=
  match e with
  | Send _ | LogMessage _ => false
  | _ => true
  end.

(** From [w] to [w']: the task in flight and the requests that wait are
    the same, the new events are silent, and the new tasks submitted are
    those added at the end of the queue. *)
Definition quiet (w w' : World) : Prop :=
  _task w' = _task w /\ channel w' = channel w
  /\ exists (evs : list Event) (new : list Task),
       trace w' = trace w ++ evs /\ _tasks w' = _tasks w ++ new
       /\ forallb silent evs = true /\ submitted evs = map request new.

Definition busy (w : World) : Prop := exists t : Task, _task w = Some t.

(** The requests sent, followed by those of the queue, are the requests
    submitted; an idle session has no request that waits and an empty
    queue; with a task in flight, one request waits, the request of that
    task, which the worker has not answered or has answered to a session
    that does not listen any more. *)
Definition Inv (w : World) : Prop :=
  sent (trace w) ++ map request (_tasks w) = submitted (trace w)
  /\ match _task w with
     | None => outstanding (trace w) = Some 0 /\ channel w = [] /\ _tasks w = []
     | Some t =>
         outstanding (trace w) = Some 1
         /\ (channel w = [request t] \/ channel w = [])
     end.

(** A session that was killed and does not listen to its worker. *)
Definition dead (w : World) : Prop := _killed w = true /\ listening w = false.

(** From [w] to [w']: nothing was sent and the queue was left alone. *)
Definition still (w w' : World) : Prop :=
  dead w' /\ sent (trace w') = sent (trace w)
  /\ _task w' = _task w /\ _tasks w' = _tasks w /\ channel w' = channel w.

(** An input that is a reply of the worker. *)
Definition isReply (i : Input) : bool :=
  match i with
  | Reply _ => true
  | Do _ => false
  end.

(** From [w] to [w']: the trace grows by events that are not the handling
    of a message; either [kill] was not called and the session is killed
    and listens as before, or the session is killed and does not
    listen. *)
Definition grows (w w' : World) : Prop :=
  exists evs : list Event,
    trace w' = trace w ++ evs
    /\ (forall message, ~ In (LogMessage message) evs)
    /\ ((_killed w' = _killed w /\ listening w' = listening w
         /\ forall signal, ~ In (Kill signal) evs)
        \/ (_killed w' = true /\ listening w' = false)).

(** Every call of [kill] in the trace is followed by one request at
    most, and by no message. *)
Definition kill_bound (t : list Event) : Prop :=
  forall (t1 : list Event) (signal : string) (t2 : list Event),
    t = t1 ++ Kill signal :: t2 ->
    List.length (sent t2) <= 1 /\ forall message, ~ In (LogMessage message) t2.

(** The invariant of a session, with what [kill] leaves: a session that
    is killed does not listen; one that is not killed listens, and [kill]
    was never called. *)
Definition kill_tracked (w : World) : Prop :=
  Inv w /\ kill_bound (trace w)
  /\ (if _killed w then listening w = false
      else listening w = true /\ forall signal, ~ In (Kill signal) (trace w)).

(** ** Examples *)

(** The two tasks of the example: the first kills the session when it
    succeeds, the second waits in the queue. *)
Definition killer : Task :=
  executeTask "1" (Some (fn "onSuccess1" [CallKill None None])) None None None.

Definition queued : Task :=
  executeTask "2" (opaque "onSuccess2") None (opaque "beforeRun2") None.

(** A table without entries, and the table of the example of the
    errors. *)
Definition noDoc (name : string) : option Documentation := None.

Definition errorDoc : string -> option Documentation :=
  oneEntry "Error.prototype.toString" someDoc.

(** The expressions of "obj.foo", of "e.toString" and of "par". *)
Definition objFoo : Expression :=
  {| matchedText := "obj.foo"; scope := "obj"; leftOp := "."; selector := "foo";
     rightOp := "" |}.

Definition eToString : Expression :=
  {| matchedText := "e.toString"; scope := "e"; leftOp := ".";
     selector := "toString"; rightOp := "" |}.

Definition par : Expression :=
  {| matchedText := "par"; scope := ""; leftOp := ""; selector := "par";
     rightOp := "" |}.

(** What the worker says of a function and of a [RangeError]. *)
Definition functionInspection : Inspection :=
  {| i_code := None; i_cursorPos := None; i_matchedText := None;
     i_string := "[Function: toString]"; i_type := "Function";
     constructorList := Some ["Function"; "Object"]; i_length := Some 0%Z |}.

Definition rangeErrorInspection : Inspection :=
  {| i_code := None; i_cursorPos := None; i_matchedText := None;
     i_string := "[RangeError]"; i_type := "Object";
     constructorList := Some ["RangeError"; "Error"; "Object"];
     i_length := None |}.

Definition someError : Error :=
  {| ename := "ReferenceError"; evalue := "e is not defined"; traceback := [] |}.


(** Three executions, the second and the third submitted while the first
    is in flight. *)
Definition threeSubmissions : list Input :=
  [Do (CallExecute "0" None None None None);
   Do (CallExecute "1" None None None None);
   Do (CallExecute "2" None None None None)].



(** A session with one execution in flight. *)
Definition inFlight : World :=
  perform (CallExecute "1" (opaque "onSuccess") None None (opaque "afterRun")) Session.

(** ** Of tasks and their replies *)

(** A task whose [onSuccess] suits its action: the closures of [complete]
    and [inspect] belong to tasks that ask for names and for an
    inspection. *)
Definition suits (task : Task) : Prop :=
  match onSuccess task with
  | Some (OnNameList _ _ _ _) => action task = "getAllPropertyNames"
  | Some (OnInspection _ _ _ _ _ _ _) => action task = "inspect"
  | Some (OnScopeInspection inspectionResult _ _ _) =>
      action task = "inspect"
      /\ exists inspection doc0, inspectionResult = InspectionResult inspection doc0
  | _ => True
  end.

(** The tasks of a session suit their actions, and nothing was thrown. *)
Definition sound (w : World) : Prop :=
  Forall suits (_tasks w)
  /\ (forall t : Task, _task w = Some t -> suits t)
  /\ ~ In TypeError (trace w).

(** ** Induction on the functions of the caller *)

(** Induction on the functions of the caller and on the calls of their
    bodies. *)
Section FnInduction.

Variable P : Fn -> Prop.
Variable Q : Call -> Prop.

Definition optP (o : option Fn) : Prop :=
  match o with
  | Some f => P f
  | None => True
  end.

Hypothesis H_fn : forall name body, Forall Q body -> P (fn name body).
Hypothesis H_execute : forall code a b c d,
  optP a -> optP b -> optP c -> optP d -> Q (CallExecute code a b c d).
Hypothesis H_complete : forall code cursorPos a b c d,
  optP a -> optP b -> optP c -> optP d -> Q (CallComplete code cursorPos a b c d).
Hypothesis H_inspect : forall code cursorPos a b c d,
  optP a -> optP b -> optP c -> optP d -> Q (CallInspect code cursorPos a b c d).
Hypothesis H_kill : forall signal killCB, optP killCB -> Q (CallKill signal killCB).

Fixpoint Fn_induction (f : Fn) : P f :=
  match f with
  | fn name body =>
      H_fn name body
        ((fix all (cs : list Call) : Forall Q cs :=
            match cs with
            | [] => Forall_nil Q
            | c :: cs' => Forall_cons c (Call_induction c) (all cs')
            end) body)
  end

with Call_induction (c : Call) : Q c :=
  let opt (o : option Fn) : optP o :=
    match o return optP o with
    | Some f => Fn_induction f
    | None => I
    end in
  match c with
  | CallExecute code a b c d => H_execute code a b c d (opt a) (opt b) (opt c) (opt d)
  | CallComplete code cursorPos a b c d =>
      H_complete code cursorPos a b c d (opt a) (opt b) (opt c) (opt d)
  | CallInspect code cursorPos a b c d =>
      H_inspect code cursorPos a b c d (opt a) (opt b) (opt c) (opt d)
  | CallKill signal killCB => H_kill signal killCB (opt killCB)
  end.

End FnInduction.

(* ================================================================== *)
(** * Strings: lemmas *)

Module JsFacts.
Import Js.

Lemma append_nil_r (s : string) : s +++ "" = s.
Proof. induction s as [|c s IH]; simpl; [reflexivity | now rewrite IH]. Qed.

Lemma append_assoc (a b c : string) : (a +++ b) +++ c = a +++ (b +++ c).
Proof. induction a as [|x a IH]; simpl; [reflexivity | now rewrite IH]. Qed.

Lemma length_append (a b : string) :
  String.length (a +++ b) = String.length a + String.length b.
Proof. induction a as [|x a IH]; simpl; [reflexivity | now rewrite IH]. Qed.

Lemma take_drop (n : nat) (s : string) : take n s +++ drop n s = s.
Proof.
  revert s; induction n as [|n IH]; intros [|c s]; simpl; try reflexivity.
  now rewrite IH.
Qed.

Lemma length_take (n : nat) (s : string) :
  n <= String.length s -> String.length (take n s) = n.
Proof.
  revert s; induction n as [|n IH]; intros [|c s]; simpl; intros H;
    try reflexivity; try lia.
  rewrite IH; [reflexivity | lia].
Qed.

Lemma take_all (n : nat) (s : string) : String.length s <= n -> take n s = s.
Proof.
  revert s; induction n as [|n IH]; intros [|c s]; simpl; intros H;
    try reflexivity; try lia.
  rewrite IH; [reflexivity | lia].
Qed.

Lemma drop_all (n : nat) (s : string) : String.length s <= n -> drop n s = "".
Proof.
  revert s; induction n as [|n IH]; intros [|c s]; simpl; intros H;
    try reflexivity; try lia.
  apply IH; lia.
Qed.

Lemma take_0 (s : string) : take 0 s = "".
Proof. destruct s; reflexivity. Qed.

Lemma drop_0 (s : string) : drop 0 s = s.
Proof. destruct s; reflexivity. Qed.

Lemma take_append (a b : string) : take (String.length a) (a +++ b) = a.
Proof. induction a as [|x a IH]; [apply take_0 | simpl; now rewrite IH]. Qed.

Lemma drop_append (a b : string) : drop (String.length a) (a +++ b) = b.
Proof. induction a as [|x a IH]; [apply drop_0 | simpl; exact IH]. Qed.

Lemma drop_take (j n : nat) (s : string) :
  drop j (take n s) = take (n - j) (drop j s).
Proof.
  revert n s; induction j as [|j IH]; intros n s.
  - rewrite !drop_0. now rewrite Nat.sub_0_r.
  - destruct n as [|n]; destruct s as [|c s]; try reflexivity.
    + simpl. destruct (n - j); reflexivity.
    + simpl. apply IH.
Qed.

Lemma length_drop (n : nat) (s : string) :
  String.length (drop n s) = String.length s - n.
Proof.
  revert s; induction n as [|n IH]; intros [|c s]; simpl; try reflexivity.
  apply IH.
Qed.

Lemma upto_le (s : string) (end_ : Z) : upto s end_ <= String.length s.
Proof. unfold upto. destruct (end_ <? 0)%Z eqn:E; lia. Qed.

Lemma slice_0 (s : string) (end_ : Z) : slice s 0 end_ = take (upto s end_) s.
Proof.
  unfold slice, upto. simpl.
  replace (Z.to_nat (Z.min 0 (Z.of_nat (String.length s)))) with 0 by lia.
  rewrite drop_0. f_equal.
  destruct (end_ <? 0)%Z; lia.
Qed.

Lemma slice_from (s : string) (j : nat) (end_ : Z) :
  slice s (Z.of_nat j) end_ = drop j (slice s 0 end_).
Proof.
  rewrite slice_0, drop_take. unfold slice, upto.
  assert (H : (Z.of_nat j <? 0)%Z = false) by (apply Z.ltb_ge; lia). rewrite H.
  destruct (Nat.le_gt_cases j (String.length s)) as [Hj|Hj].
  - replace (Z.to_nat (Z.min (Z.of_nat j) (Z.of_nat (String.length s)))) with j by lia.
    f_equal. destruct (end_ <? 0)%Z; lia.
  - replace (Z.to_nat (Z.min (Z.of_nat j) (Z.of_nat (String.length s))))
      with (String.length s) by lia.
    rewrite (drop_all (String.length s) s), (drop_all j s) by lia.
    now rewrite !take_all by (simpl; lia).
Qed.

Lemma slice_take (s : string) (j : nat) :
  j <= String.length s -> slice s 0 (Z.of_nat j) = take j s.
Proof.
  intros H. rewrite slice_0. f_equal. unfold upto.
  assert (E : (Z.of_nat j <? 0)%Z = false) by (apply Z.ltb_ge; lia). rewrite E. lia.
Qed.

Lemma get_last (s : string) (n : nat) (c : ascii) :
  String.get n s = Some c -> S n = String.length s ->
  s = take n s +++ String c "".
Proof.
  revert s; induction n as [|n IH]; intros [|x s]; simpl; try discriminate.
  - intros [= ->] H. destruct s; [reflexivity | discriminate].
  - intros Hg H. f_equal. apply IH; [exact Hg | lia].
Qed.

Lemma get_last2 (s : string) (n : nat) (a b : ascii) :
  String.get n s = Some a -> String.get (S n) s = Some b ->
  S (S n) = String.length s ->
  s = take n s +++ String a (String b "").
Proof.
  revert s; induction n as [|n IH]; intros [|x s]; simpl; try discriminate.
  - intros [= ->] Hb H. destruct s as [|y s]; simpl in *; try discriminate.
    injection Hb as ->. destruct s; [reflexivity | discriminate].
  - intros Ha Hb H. f_equal. apply IH; [exact Ha | exact Hb | lia].
Qed.

Lemma get_append_last (pre : string) (c : ascii) :
  String.get (String.length pre) (pre +++ String c "") = Some c.
Proof. induction pre as [|x pre IH]; simpl; [reflexivity | exact IH]. Qed.

End JsFacts.

(* ================================================================== *)
(** * Regular expressions: lemmas *)

Module RegExpFacts.
Import Js JsFacts.

(** A success of the matcher is a success of its continuation. *)
Lemma m_some {A : Type} (total : nat) (r : Re) :
  forall (s : string) (k : string -> option A) (x : A),
    m total r s k = Some x -> exists rest, k rest = Some x.
Proof.
  induction r as [p| | | |r1 IH1 r2 IH2|r1 IH1 r2 IH2|r IH];
    intros s k x H; simpl in H.
  - destruct s as [|c s]; [discriminate|].
    destruct (p c); [eauto | discriminate].
  - destruct (String.length s =? total); [eauto | discriminate].
  - destruct s; [eauto | discriminate].
  - eauto.
  - apply IH1 in H as [rest H]. apply IH2 in H. exact H.
  - destruct (m total r1 s k) as [y|] eqn:E.
    + injection H as ->. apply IH1 in E. exact E.
    + apply IH2 in H. exact H.
  - revert H. generalize (String.length s) as n. intros n; revert s.
    induction n as [|n IHn]; intros s H; simpl in H.
    + eauto.
    + match type of H with
      | match ?t with _ => _ end = _ => destruct t as [y|] eqn:E
      end.
      * injection H as ->. apply IH in E as [rest E].
        destruct (String.length rest <? String.length s); [|discriminate].
        apply IHn in E. exact E.
      * eauto.
Qed.

Lemma m_eol {A : Type} (total : nat) (r : Re) :
  ends_eol r = true ->
  forall (s : string) (k : string -> option A) (x : A),
    m total r s k = Some x -> k "" = Some x.
Proof.
  induction r as [p| | | |r1 IH1 r2 IH2|r1 IH1 r2 IH2|r IH];
    simpl; try discriminate; intros He s k x H.
  - destruct s; [exact H | discriminate].
  - apply m_some in H as [rest H]. eapply IH2; eauto.
Qed.

(** [exec] answers with a position of the input and what the pattern
    matched there. *)
Lemma exec_from_spec (r : Re) (total : nat) :
  forall (s : string) (i : nat) (re : Match),
    exec_from r total i s = Some re ->
    exists j rest,
      index re = i + j /\ j <= String.length s
      /\ m total r (drop j s) (fun rest => Some rest) = Some rest
      /\ match0 re
         = take (String.length (drop j s) - String.length rest) (drop j s).
Proof.
  induction s as [|c s IH]; intros i re H; simpl in H.
  - destruct (m total r "" (fun rest => Some rest)) as [rest|] eqn:E;
      [|discriminate].
    injection H as <-. exists 0, rest. simpl. repeat split; auto.
  - destruct (m total r (String c s) (fun rest => Some rest)) as [rest|] eqn:E.
    + injection H as <-. exists 0, rest. simpl. repeat split; auto; lia.
    + apply IH in H as (j & rest & H1 & H2 & H3 & H4).
      exists (S j), rest. simpl. repeat split; auto; lia.
Qed.

(** With [$], what is matched reaches the end of the input. *)
Lemma exec_eol (r : Re) (s : string) (re : Match) :
  ends_eol r = true -> exec r s = Some re ->
  index re <= String.length s /\ match0 re = drop (index re) s.
Proof.
  intros He H. apply exec_from_spec in H as (j & rest & H1 & H2 & H3 & H4).
  simpl in H1. subst j. split; [exact H2|].
  apply (m_eol _ _ He) in H3. injection H3 as <-.
  rewrite H4. simpl. rewrite Nat.sub_0_r. apply take_all. lia.
Qed.

Corollary exec_eol_split (r : Re) (s : string) (re : Match) :
  ends_eol r = true -> exec r s = Some re ->
  s = slice s 0 (Z.of_nat (index re)) +++ match0 re.
Proof.
  intros He H. destruct (exec_eol r s re He H) as [Hi Hm].
  rewrite slice_take by exact Hi. rewrite Hm. symmetry. apply take_drop.
Qed.

(** A complex identifier is not empty. *)
Lemma exec_complexIdentifier_nonempty (s : string) (re : Match) :
  exec complexIdentifierRE s = Some re -> match0 re <> "".
Proof.
  intros H. destruct (exec_eol complexIdentifierRE s re eq_refl H) as [_ Hm].
  apply exec_from_spec in H as (j & rest & H1 & _ & H3 & _).
  simpl in H1. subst j. rewrite Hm.
  destruct (drop (index re) s); [discriminate H3 | discriminate].
Qed.

(** ** A prefix of letters *)

Lemma star_chr {A : Type} (total : nat) (p : ascii -> bool)
    (k : string -> option A) :
  forall (n : nat) (s : string),
    String.length s <= n -> star (m total (Chr p)) k n s = greedy p k s.
Proof.
  induction n as [|n IH]; intros s H.
  - destruct s; [reflexivity | simpl in H; lia].
  - destruct s as [|c s]; [reflexivity|].
    cbn [star m greedy]. destruct (p c); [|reflexivity].
    assert (L : (String.length s <? String.length (String c s)) = true)
      by (apply Nat.ltb_lt; simpl; lia).
    rewrite L, IH by (simpl in H; lia). reflexivity.
Qed.

Lemma m_plus_chr {A : Type} (total : nat) (p : ascii -> bool)
    (k : string -> option A) (s : string) :
  m total (Plus (Chr p)) s k
  = match s with
    | String c s' => if p c then greedy p k s' else None
    | EmptyString => None
    end.
Proof.
  destruct s as [|c s]; [reflexivity|].
  cbn [Plus m]. destruct (p c); [|reflexivity].
  apply (star_chr total p k). lia.
Qed.

Lemma greedy_None {A : Type} (p : ascii -> bool) (k : string -> option A)
    (s : string) :
  greedy p k s = None -> k s = None.
Proof.
  destruct s as [|c s]; simpl; [auto|].
  destruct (p c); [|auto]. destruct (greedy p k s); [discriminate | auto].
Qed.

(** A success after a longer run comes first. *)
Lemma greedy_run {A : Type} (p : ascii -> bool) (k : string -> option A)
    (u v : string) (x : A) :
  all p u = true -> greedy p k v = Some x -> greedy p k (u +++ v) = Some x.
Proof.
  induction u as [|c u IH]; simpl; [auto|].
  rewrite andb_true_iff. intros [Hc Hu] Hv.
  now rewrite Hc, (IH Hu Hv).
Qed.

(** When the continuation fails after every run that ends inside [u] or
    after it, the run stops before [u]. *)
Lemma greedy_back {A : Type} (p : ascii -> bool) (k : string -> option A)
    (v : string) :
  forall u : string,
    all p u = true ->
    (forall t1 t2 : string, u = t1 +++ t2 -> t1 <> "" -> k (t2 +++ v) = None) ->
    greedy p k v = None ->
    greedy p k (u +++ v) = k (u +++ v).
Proof.
  induction u as [|c u IH]; intros Hu Hk Hv.
  - simpl. rewrite Hv. symmetry. apply (greedy_None p), Hv.
  - simpl in Hu. apply andb_true_iff in Hu as [Hc Hu].
    simpl. rewrite Hc.
    assert (E : greedy p k (u +++ v) = None).
    { rewrite IH; [| exact Hu | | exact Hv].
      - apply (Hk (String c "") u); [reflexivity | discriminate].
      - intros t1 t2 -> Ht. apply (Hk (String c t1) t2); [reflexivity | discriminate]. }
    now rewrite E.
Qed.

Lemma m_lit {A : Type} (total : nat) (k : string -> option A) (rest : string) :
  forall lit : string, m total (Lit lit) (lit +++ rest) k = k rest.
Proof.
  induction lit as [|c lit IH]; [reflexivity|].
  cbn [Lit m String.append]. now rewrite Ascii.eqb_refl.
Qed.

(** A literal of letters does not match where a unit that is not a letter
    comes too early. *)
Lemma m_lit_short {A : Type} (total : nat) (k : string -> option A)
    (c : ascii) (rest : string) :
  alpha c = false ->
  forall lit u : string,
    all alpha lit = true -> all alpha u = true ->
    String.length u < String.length lit ->
    m total (Lit lit) (u +++ String c rest) k = None.
Proof.
  intros Hc. induction lit as [|a lit IH]; intros u Hl Hu L; [simpl in L; lia|].
  simpl in Hl. apply andb_true_iff in Hl as [Ha Hl].
  destruct u as [|b u]; cbn [Lit m String.append].
  - destruct (Ascii.eqb a c) eqn:E; [|reflexivity].
    apply Ascii.eqb_eq in E. congruence.
  - simpl in Hu. apply andb_true_iff in Hu as [_ Hu].
    destruct (Ascii.eqb a b); [|reflexivity].
    apply IH; [exact Hl | exact Hu | simpl in L; lia].
Qed.

Lemma all_append (p : ascii -> bool) (a b : string) :
  all p (a +++ b) = all p a && all p b.
Proof.
  induction a as [|c a IH]; simpl; [reflexivity|].
  now rewrite IH, andb_assoc.
Qed.

(** With [^], the pattern matches at the start of the input or not at
    all. *)
Lemma exec_from_bol (r : Re) (total : nat) :
  forall (s : string) (i : nat),
    String.length s < total -> exec_from (Seq Bol r) total i s = None.
Proof.
  induction s as [|c s IH]; intros i H; cbn [exec_from m].
  - assert (E : (String.length "" =? total) = false)
      by (apply Nat.eqb_neq; simpl in *; lia).
    now rewrite E.
  - assert (E : (String.length (String c s) =? total) = false)
      by (apply Nat.eqb_neq; lia).
    rewrite E. apply IH. simpl in H. lia.
Qed.

(** A prefix made of letters, of [lit] and of one more unit that is not a
    letter is what [prefixRE lit] matches, and is replaced. *)
Lemma replace_prefix (lit by_ X rest : string) (c : ascii) :
  X <> "" -> all alpha X = true -> lit <> "" -> all alpha lit = true ->
  alpha c = false -> dot c = true ->
  replace (X +++ lit +++ String c rest) (prefixRE lit) by_ = by_ +++ rest.
Proof.
  intros HX Ha Hn Hl Hc Hd.
  destruct X as [|x X]; [contradiction|]. clear HX.
  simpl in Ha. apply andb_true_iff in Ha as [Hx Ha].
  set (s := String x X +++ lit +++ String c rest).
  set (K := fun s' : string =>
              m (String.length s) (Seq (Lit lit) (Chr dot)) s'
                (fun rest0 : string => Some rest0)).
  assert (K1 : K (lit +++ String c rest) = Some rest).
  { unfold K. cbn [m]. rewrite m_lit. cbn [m]. now rewrite Hd. }
  assert (K0 : forall u, all alpha u = true ->
                         String.length u < String.length lit ->
                         K (u +++ String c rest) = None).
  { intros u Hu L. unfold K. cbn [m]. apply m_lit_short; assumption. }
  assert (G : greedy alpha K (X +++ lit +++ String c rest) = Some rest).
  { apply greedy_run; [exact Ha|]. rewrite <- K1.
    apply greedy_back; [exact Hl | |].
    - intros t1 t2 E N. apply K0.
      + rewrite E, all_append in Hl. apply andb_true_iff in Hl. apply Hl.
      + rewrite E, length_append. destruct t1; [contradiction | simpl; lia].
    - simpl. rewrite Hc. apply (K0 ""); [reflexivity|].
      destruct lit; [contradiction | simpl; lia]. }
  assert (M : m (String.length s) (prefixRE lit) s (fun rest0 => Some rest0)
              = Some rest).
  { unfold prefixRE. cbn [m]. rewrite Nat.eqb_refl.
    change (m (String.length s) (Plus (Chr alpha)) s K = Some rest).
    rewrite m_plus_chr. unfold s. cbn [String.append]. rewrite Hx. exact G. }
  unfold replace, exec.
  destruct s as [|y s0] eqn:Es; [discriminate Es|].
  cbn [exec_from]. rewrite M. cbn [index match0]. rewrite <- Es. cbn [take].
  cbn [String.append Nat.add].
  assert (E : s = (String x X +++ lit +++ String c "") +++ rest).
  { unfold s. now rewrite !append_assoc. }
  set (pre := String x X +++ lit +++ String c "") in E.
  assert (L : String.length s - String.length rest = String.length pre).
  { rewrite E, length_append. lia. }
  rewrite L. rewrite E at 1 2. rewrite take_append, drop_append. reflexivity.
Qed.

End RegExpFacts.

(* ================================================================== *)
(** * The expression parser: theorems *)

Import Js JsFacts RegExpFacts.

Lemma at_append_last (pre : string) (c : ascii) :
  at_ (pre +++ String c "")
    (Z.of_nat (String.length (pre +++ String c "")) - 1) = Some c.
Proof.
  unfold at_. rewrite length_append. simpl.
  replace (Z.of_nat (String.length pre + 1) - 1)%Z
    with (Z.of_nat (String.length pre)) by lia.
  assert (E : (Z.of_nat (String.length pre) <? 0)%Z = false)
    by (apply Z.ltb_ge; lia).
  rewrite E, Nat2Z.id. apply get_append_last.
Qed.

Lemma test_whitespaceRE (c : ascii) :
  test whitespaceRE (String c "") = space c.
Proof.
  unfold test, exec, whitespaceRE. simpl. destruct (space c); reflexivity.
Qed.

Lemma isChar_at (s : string) (i : Z) (c : ascii) :
  isChar (at_ s i) c = true -> at_ s i = Some c.
Proof.
  destruct (at_ s i) as [d|]; simpl; [|discriminate].
  intros H. apply Ascii.eqb_eq in H. now subst.
Qed.

(** Stripping one unit, or two, from the end. *)
Lemma strip_last (s : string) (c : ascii) :
  at_ s (Z.of_nat (String.length s) - 1) = Some c ->
  s = slice s 0 (Z.of_nat (String.length s) - 1) +++ String c "".
Proof.
  unfold at_. destruct (_ <? 0)%Z eqn:E; [discriminate|].
  apply Z.ltb_ge in E. intros H.
  assert (L : 1 <= String.length s) by lia.
  replace (Z.of_nat (String.length s) - 1)%Z
    with (Z.of_nat (String.length s - 1)) in * by lia.
  rewrite Nat2Z.id in H. rewrite slice_take by lia.
  apply get_last; [exact H | lia].
Qed.

Lemma strip_last2 (s : string) (a b : ascii) :
  at_ s (Z.of_nat (String.length s) - 2) = Some a ->
  at_ s (Z.of_nat (String.length s) - 1) = Some b ->
  s = slice s 0 (Z.of_nat (String.length s) - 2) +++ String a (String b "").
Proof.
  unfold at_. destruct (_ <? 0)%Z eqn:E; [discriminate|].
  apply Z.ltb_ge in E.
  destruct (_ <? 0)%Z eqn:E1; [discriminate|].
  intros Ha Hb.
  assert (L : 2 <= String.length s) by lia.
  replace (Z.of_nat (String.length s) - 2)%Z
    with (Z.of_nat (String.length s - 2)) in * by lia.
  replace (Z.of_nat (String.length s) - 1)%Z
    with (Z.of_nat (S (String.length s - 2))) in * by lia.
  rewrite Nat2Z.id in Ha, Hb. rewrite slice_take by lia.
  apply get_last2; [exact Ha | exact Hb | lia].
Qed.

(** C4. If [code.slice(0, cursorPos)] is empty or ends with a white space,
    [parseExpression] returns the expression whose members are all empty,
    and so never [null]. *)
Theorem parseExpression_boundary (code : string) (cursorPos : Z) :
  (slice code 0 cursorPos = ""
   \/ exists (pre : string) (c : ascii),
        slice code 0 cursorPos = pre +++ String c "" /\ space c = true) ->
  parseExpression code cursorPos = Some emptyExpression.
Proof.
  intros H. unfold parseExpression.
  destruct H as [H | (pre & c & H & Hc)]; rewrite H.
  - reflexivity.
  - rewrite at_append_last. simpl toString.
    rewrite test_whitespaceRE, Hc, orb_true_r. reflexivity.
Qed.

Lemma stripOp_split (expression leftOp rightOp rest : string) :
  stripOp expression = Some (leftOp, rightOp, rest) ->
  expression = rest +++ leftOp /\ leftOp <> "".
Proof.
  unfold stripOp.
  destruct (isChar (at_ expression (Z.of_nat (String.length expression) - 1)) ".")
    eqn:E1.
  { intros [= <- <- <-]. split; [|discriminate].
    apply strip_last, isChar_at, E1. }
  destruct (isChar (at_ expression (Z.of_nat (String.length expression) - 2)) "[")
    eqn:E2; simpl.
  2: discriminate.
  destruct (isChar (at_ expression (Z.of_nat (String.length expression) - 1)) dquote)
    eqn:E3.
  { intros [= <- <- <-]. split; [|discriminate].
    apply strip_last2; apply isChar_at; assumption. }
  destruct (isChar (at_ expression (Z.of_nat (String.length expression) - 1)) squote)
    eqn:E4; [|discriminate].
  intros [= <- <- <-]. split; [|discriminate].
  apply strip_last2; apply isChar_at; assumption.
Qed.

(** What ends at the cursor can be sliced from its length. *)
Lemma slice_suffix (code pre mt : string) (cursorPos : Z) :
  (0 <= cursorPos <= Z.of_nat (String.length code))%Z ->
  slice code 0 cursorPos = pre +++ mt ->
  slice code (cursorPos - Z.of_nat (String.length mt)) cursorPos = mt.
Proof.
  intros Hc H.
  assert (L : String.length (slice code 0 cursorPos) = Z.to_nat cursorPos).
  { replace cursorPos with (Z.of_nat (Z.to_nat cursorPos)) at 1 by lia.
    rewrite slice_take by lia. apply length_take. lia. }
  rewrite H, length_append in L.
  replace (cursorPos - Z.of_nat (String.length mt))%Z
    with (Z.of_nat (String.length pre)) by lia.
  rewrite slice_from, H. apply drop_append.
Qed.

Lemma parseExpression_parsed (code : string) (cursorPos : Z) (e : Expression) :
  parseExpression code cursorPos = Some e ->
  parsed (slice code 0 cursorPos) e.
Proof.
  unfold parseExpression.
  assert (HS : forall j, slice code (Z.of_nat j) cursorPos
                         = drop j (slice code 0 cursorPos))
    by (intro; apply slice_from).
  revert HS. generalize (slice code 0 cursorPos) as P. intros P HS.
  destruct (negb (truthy P) || _).
  { intros [= <-]. constructor. }
  cbv zeta.
  assert (T : forall expression sel : string,
             P = expression +++ sel ->
             match stripOp expression with
             | Some (leftOp, rightOp, expression0) =>
                 match exec complexIdentifierRE expression0 with
                 | Some re =>
                     Some {| matchedText := slice code (Z.of_nat (index re)) cursorPos;
                             scope := match0 re; leftOp := leftOp;
                             selector := sel; rightOp := rightOp |}
                 | None =>
                     if negb (truthy leftOp) then
                       Some {| matchedText :=
                                 slice code (Z.of_nat (String.length expression0))
                                   cursorPos;
                               scope := ""; leftOp := leftOp; selector := sel;
                               rightOp := rightOp |}
                     else None
                 end
             | None =>
                 Some {| matchedText :=
                           slice code (Z.of_nat (String.length expression)) cursorPos;
                         scope := ""; leftOp := ""; selector := sel;
                         rightOp := "" |}
             end = Some e -> parsed P e).
  { intros expression sel HP.
    destruct (stripOp expression) as [[[lop rop] expression0]|] eqn:Eop.
    - apply stripOp_split in Eop as [Eop Hlop].
      destruct (exec complexIdentifierRE expression0) as [re|] eqn:Ere.
      + intros [= <-].
        pose proof (exec_complexIdentifier_nonempty _ _ Ere) as Hne.
        destruct (exec_eol complexIdentifierRE _ _ eq_refl Ere) as [Hi Hm].
        assert (E : P = take (index re) expression0 +++ match0 re +++ lop +++ sel).
        { rewrite HP, Eop, Hm, !append_assoc.
          rewrite <- (append_assoc (take _ _)), take_drop. reflexivity. }
        pose proof (length_take (index re) expression0 Hi) as Hl.
        revert E Hl. generalize (take (index re) expression0) as pre.
        intros pre E Hl. rewrite HS, <- Hl.
        replace (drop (String.length pre) P) with (match0 re +++ lop +++ sel)
          by (rewrite E; symmetry; apply drop_append).
        constructor 3 with (pre := pre); assumption.
      + destruct lop; [contradiction Hlop; reflexivity | discriminate].
    - intros [= <-]. rewrite HS.
      replace (drop (String.length expression) P) with sel
        by (rewrite HP; symmetry; apply drop_append).
      constructor 2 with (pre := expression). exact HP. }
  destruct (exec simpleIdentifierRE P) as [re|] eqn:Ere.
  - apply T. apply (exec_eol_split simpleIdentifierRE P re eq_refl Ere).
  - apply T. symmetry. apply append_nil_r.
Qed.

(** C10. An expression that [parseExpression] returns has
    [matchedText = scope + leftOp + selector]; [matchedText] is the end of
    [code.slice(0, cursorPos)], so that it ends at the cursor; and a scope
    that is not empty comes with a [leftOp] that is not empty. *)
Theorem parseExpression_matchedText (code : string) (cursorPos : Z) (e : Expression) :
  parseExpression code cursorPos = Some e ->
  matchedText e = scope e +++ leftOp e +++ selector e
  /\ (exists pre : string, slice code 0 cursorPos = pre +++ matchedText e)
  /\ ((0 <= cursorPos <= Z.of_nat (String.length code))%Z ->
      slice code (cursorPos - Z.of_nat (String.length (matchedText e))) cursorPos
      = matchedText e)
  /\ (scope e <> "" -> leftOp e <> "").
Proof.
  intros H. apply parseExpression_parsed in H.
  assert (C : matchedText e = scope e +++ leftOp e +++ selector e
              /\ (exists pre : string, slice code 0 cursorPos = pre +++ matchedText e)
              /\ (scope e <> "" -> leftOp e <> "")).
  { destruct H as [|pre sel H|pre sc lop rop sel H Hsc Hlop]; simpl.
    - split; [reflexivity|]. split; [|intros C; exact C].
      exists (slice code 0 cursorPos). symmetry. apply append_nil_r.
    - split; [reflexivity|]. split; [|intros C; exact C].
      exists pre. exact H.
    - split; [reflexivity|]. split; [|intros _; exact Hlop].
      exists pre. exact H. }
  destruct C as (C1 & [pre C2] & C3).
  repeat split; [exact C1 | exists pre; exact C2 | | exact C3].
  intros Hc. apply (slice_suffix code pre); assumption.
Qed.

(* ================================================================== *)
(** * Completion: theorems *)

Lemma startsWith_longer (s search : string) :
  String.length s < String.length search -> startsWith s search = false.
Proof.
  revert s; induction search as [|a search IH]; intros [|b s]; simpl; intros H;
    try lia; try reflexivity.
  rewrite IH by lia. apply andb_false_r.
Qed.

(** [e.lastIndexOf(selector, 0) === 0] says that [e] starts with
    [selector]. *)
Lemma lastIndexOf_0 (e sel : string) :
  (lastIndexOf e sel 0 =? 0)%Z = startsWith e sel.
Proof.
  unfold lastIndexOf.
  destruct (String.length e <? String.length sel) eqn:E.
  - apply Nat.ltb_lt in E. now rewrite startsWith_longer.
  - change (Nat.min (Z.to_nat (Z.max 0 0)) (String.length e - String.length sel))
      with 0.
    unfold lastIndexOf_down. rewrite drop_0.
    destruct (startsWith e sel); reflexivity.
Qed.

Lemma filter_lastIndexOf (sel : string) (l : list string) :
  filter (fun e => (lastIndexOf e sel 0 =? 0)%Z) l
  = filter (fun e => startsWith e sel) l.
Proof.
  induction l as [|x l IH]; simpl; [reflexivity|].
  now rewrite lastIndexOf_0, IH.
Qed.

Lemma eqb_empty (s : string) : String.eqb s "" = negb (truthy s).
Proof. destruct s; reflexivity. Qed.

(** With no scope there is no operator. *)
Lemma parsed_global (prefix : string) (e : Expression) :
  parsed prefix e -> scope e = "" -> leftOp e = "" /\ rightOp e = "".
Proof.
  intros [|pre sel H|pre sc lop rop sel H Hsc Hlop]; simpl; auto.
  intros ->. contradiction.
Qed.

(** C3, as the code has it. For an expression with a scope and the
    selector "foo", when the worker replies with the names "foo",
    "foobar" and "bar", the completion handed to [onCompletionSuccess] has
    the list of "foo" and "foobar", in that order, each between
    [scope + leftOp] and [rightOp]. *)
Theorem complete_filter_wrapped (doc : string -> option Documentation)
    (code : string) (cursorPos : Z) (e : Expression)
    (onCompletionSuccess : Fn) (w : World) :
  parseExpression code cursorPos = Some e ->
  scope e <> "" -> selector e = "foo" ->
  applyOnSuccess doc (OnNameList code cursorPos e (Some onCompletionSuccess))
    (NameListResult fooNames) w
  = invoke onCompletionSuccess
      (Some (CompletionResult (completion code cursorPos e fooNames))) w
  /\ c_list (completion code cursorPos e fooNames)
     = [scope e +++ leftOp e +++ "foo" +++ rightOp e;
        scope e +++ leftOp e +++ "foobar" +++ rightOp e].
Proof.
  intros _ Hsc Hsel. split; [reflexivity|].
  unfold completion. cbv zeta. simpl c_list.
  rewrite eqb_empty, Hsel.
  destruct (scope e) as [|c sc] eqn:E; [contradiction|].
  simpl. rewrite !append_assoc. reflexivity.
Qed.

(** C5. With no scope, the list is made of the names of the worker
    followed by all the reserved words (the keywords, the future reserved
    words, [null], [true] and [false]), in their fixed order, and then
    filtered by the selector; with no selector and the name "parseInt",
    it is "parseInt" followed by the reserved words. The completion is
    what [onCompletionSuccess] is called with. *)
Theorem complete_global_keywords (code : string) (cursorPos : Z) (e : Expression)
    (names : list string) :
  parseExpression code cursorPos = Some e ->
  scope e = "" ->
  c_list (completion code cursorPos e names)
  = (if truthy (selector e)
     then filter (fun x => startsWith x (selector e)) (names ++ reservedWords)
     else names ++ reservedWords)
  /\ (selector e = "" ->
      c_list (completion code cursorPos e ["parseInt"])
      = "parseInt" :: reservedWords)
  /\ (forall (doc : string -> option Documentation) (onCompletionSuccess : Fn)
         (w : World),
        applyOnSuccess doc (OnNameList code cursorPos e (Some onCompletionSuccess))
          (NameListResult names) w
        = invoke onCompletionSuccess
            (Some (CompletionResult (completion code cursorPos e names))) w).
Proof.
  intros H Hsc. apply parseExpression_parsed in H.
  destruct (parsed_global _ _ H Hsc) as [Hl Hr].
  assert (G : forall names,
             c_list (completion code cursorPos e names)
             = (if truthy (selector e)
                then filter (fun x => startsWith x (selector e))
                       (names ++ reservedWords)
                else names ++ reservedWords)).
  { intros ns. change reservedWords with javascriptKeywords.
    unfold completion. cbv zeta. simpl c_list.
    rewrite Hsc, Hl, Hr. simpl.
    destruct (truthy (selector e)); [apply filter_lastIndexOf | reflexivity]. }
  split; [apply G|]. split; [|reflexivity].
  intros Hsel. rewrite G, Hsel. reflexivity.
Qed.

(** ** The range of text to replace *)

Lemma startsWith_iff (s search : string) :
  startsWith s search = true <-> exists rest : string, s = search +++ rest.
Proof.
  revert s; induction search as [|a search IH]; intros s; simpl.
  - split; [intros _; exists s; reflexivity | reflexivity].
  - destruct s as [|b s].
    + split; [discriminate | intros [rest H]; discriminate].
    + rewrite andb_true_iff, Ascii.eqb_eq, IH. split.
      * intros [-> [rest ->]]. exists rest. reflexivity.
      * intros [rest [= -> ->]]. split; [reflexivity | exists rest; reflexivity].
Qed.

Lemma indexOf_from_first (search : string) :
  forall (s : string) (k0 j : nat),
    startsWith (drop j s) search = true ->
    exists j' : nat,
      indexOf_from k0 s search = Z.of_nat (k0 + j')
      /\ j' <= String.length s
      /\ startsWith (drop j' s) search = true
      /\ forall i : nat, i < j' -> startsWith (drop i s) search = false.
Proof.
  induction s as [|c s IH]; intros k0 j H.
  - exists 0. destruct j; simpl in *; rewrite H;
      (repeat split; [f_equal; lia | lia | intros i Hi; lia]).
  - simpl. destruct (startsWith (String c s) search) eqn:E.
    + exists 0. repeat split; [f_equal; lia | lia | exact E | intros i Hi; lia].
    + destruct j as [|j]; [simpl in H; congruence|].
      simpl in H. destruct (IH (S k0) j H) as (j' & H1 & H2 & H3 & H4).
      exists (S j'). repeat split.
      * rewrite H1. f_equal. lia.
      * simpl. lia.
      * exact H3.
      * intros [|i] Hi; [exact E | apply H4; lia].
Qed.

(** [code.indexOf(search)] is the index of [search] within [code], when
    [search] occurs in [code]. *)
Lemma indexOf_index_of (s search : string) (j : nat) :
  occurs_at s search j ->
  exists k : nat, indexOf s search = Z.of_nat k /\ index_of s search k.
Proof.
  intros [Hj Hr]. apply startsWith_iff in Hr.
  destruct (indexOf_from_first search s 0 j Hr) as (k & H1 & H2 & H3 & H4).
  exists k. split; [exact H1|]. split.
  - split; [exact H2 | apply startsWith_iff, H3].
  - intros i Hi [_ Ho]. apply startsWith_iff in Ho.
    rewrite (H4 i Hi) in Ho. discriminate.
Qed.

(** The reduction with [shorter] finds the first of the shortest. *)
Lemma shorter_step (l : list string) (acc c : string) :
  first_shortest l acc -> first_shortest (l ++ [c]) (shorter acc c).
Proof.
  intros (l1 & l2 & -> & H1 & H2). unfold shorter.
  destruct (String.length acc <=? String.length c) eqn:E.
  - apply Nat.leb_le in E. exists l1, (l2 ++ [c]). split.
    + now rewrite <- app_assoc.
    + split; [exact H1|]. apply Forall_app. split; [exact H2|].
      constructor; [exact E | constructor].
  - apply Nat.leb_gt in E. exists (l1 ++ acc :: l2), []. split; [reflexivity|].
    split; [|constructor]. apply Forall_app. split.
    + eapply Forall_impl; [|exact H1]. simpl. intros; lia.
    + constructor; [exact E|]. eapply Forall_impl; [|exact H2]. simpl. intros; lia.
Qed.

Lemma fold_shorter (others : list string) :
  forall (l : list string) (acc : string),
    first_shortest l acc ->
    first_shortest (l ++ others) (fold_left shorter others acc).
Proof.
  induction others as [|c others IH]; intros l acc H; simpl.
  - now rewrite app_nil_r.
  - replace (l ++ c :: others) with ((l ++ [c]) ++ others)
      by (now rewrite <- app_assoc).
    apply IH, shorter_step, H.
Qed.

Lemma drop_get (s : string) (n : nat) :
  n < String.length s ->
  exists c : ascii, String.get n s = Some c /\ drop n s = String c (drop (S n) s).
Proof.
  revert s; induction n as [|n IH]; intros [|c s]; simpl; intros H; try lia.
  - exists c. split; [reflexivity|]. destruct s; reflexivity.
  - apply IH. lia.
Qed.

Lemma charAt_in (s : string) (n : nat) (c : ascii) :
  String.get n s = Some c -> charAt s (Z.of_nat n) = String c "".
Proof.
  intros H. unfold charAt, at_.
  assert (E : (Z.of_nat n <? 0)%Z = false) by (apply Z.ltb_ge; lia).
  now rewrite E, Nat2Z.id, H.
Qed.

Lemma agree_empty (a : string) : agree a "" = 0.
Proof. destruct a; reflexivity. Qed.

(** The loop stops where the two strings cease to agree. *)
Lemma scan_agree (shortestMatch code : string) :
  forall fuel i cursorEnd : nat,
    String.length shortestMatch - i <= fuel ->
    scan fuel shortestMatch code (Z.of_nat i) (Z.of_nat cursorEnd)
    = Z.of_nat (cursorEnd + agree (drop i shortestMatch) (drop cursorEnd code)).
Proof.
  induction fuel as [|fuel IH]; intros i ce Hf.
  - simpl. rewrite drop_all by lia. simpl. f_equal. lia.
  - simpl.
    destruct (Z.of_nat i <? Z.of_nat (String.length shortestMatch))%Z eqn:Ei.
    2:{ apply Z.ltb_ge in Ei. rewrite drop_all by lia. simpl. f_equal. lia. }
    destruct (Z.of_nat ce <? Z.of_nat (String.length code))%Z eqn:Ec.
    2:{ apply Z.ltb_ge in Ec. rewrite (drop_all ce code) by lia.
        rewrite agree_empty. simpl. f_equal. lia. }
    apply Z.ltb_lt in Ei, Ec. simpl.
    destruct (drop_get shortestMatch i) as (x & Hx & Dx); [lia|].
    destruct (drop_get code ce) as (y & Hy & Dy); [lia|].
    rewrite (charAt_in _ _ _ Hx), (charAt_in _ _ _ Hy), Dx, Dy.
    cbn [String.eqb agree].
    destruct (Ascii.eqb x y); cbn [negb].
    + replace (Z.of_nat i + 1)%Z with (Z.of_nat (S i)) by lia.
      replace (Z.of_nat ce + 1)%Z with (Z.of_nat (S ce)) by lia.
      rewrite IH by lia. f_equal. lia.
    + f_equal. lia.
Qed.

(** What is matched occurs in the code. *)
Lemma parsed_occurs (code : string) (cursorPos : Z) (e : Expression) :
  parsed (slice code 0 cursorPos) e ->
  exists j : nat, occurs_at code (matchedText e) j.
Proof.
  intros H.
  assert (S : exists pre, slice code 0 cursorPos = pre +++ matchedText e).
  { destruct H as [|pre sel H|pre sc lop rop sel H Hsc Hlop]; simpl.
    - exists (slice code 0 cursorPos). symmetry. apply append_nil_r.
    - exists pre. exact H.
    - exists pre. exact H. }
  destruct S as [pre S]. rewrite slice_0 in S.
  exists (String.length pre). split.
  - pose proof (upto_le code cursorPos) as U.
    assert (L : String.length (take (upto code cursorPos) code)
                = upto code cursorPos) by (apply length_take, U).
    rewrite S, length_append in L. lia.
  - exists (drop (upto code cursorPos) code).
    rewrite <- (take_drop (upto code cursorPos) code) at 1.
    rewrite S, append_assoc. apply drop_append.
Qed.

(** C6. The completion that [onCompletionSuccess] is called with: when
    its list is not empty, [cursorStart] is the index of [matchedText]
    within [code], and [cursorEnd] is reached from [cursorStart] by going
    forward as long as the first of the shortest entries of the list and
    [code] agree, unit by unit, up to the end of either; when the list is
    empty, both are [cursorPos]. *)
Theorem complete_range (code : string) (cursorPos : Z) (e : Expression)
    (names : list string) :
  parseExpression code cursorPos = Some e ->
  (forall (doc : string -> option Documentation) (onCompletionSuccess : Fn)
     (w : World),
     applyOnSuccess doc (OnNameList code cursorPos e (Some onCompletionSuccess))
       (NameListResult names) w
     = invoke onCompletionSuccess
         (Some (CompletionResult (completion code cursorPos e names))) w)
  /\ (c_list (completion code cursorPos e names) <> [] ->
      exists (k : nat) (shortestMatch : string),
        c_cursorStart (completion code cursorPos e names) = Z.of_nat k
        /\ index_of code (matchedText e) k
        /\ first_shortest (c_list (completion code cursorPos e names)) shortestMatch
        /\ c_cursorEnd (completion code cursorPos e names)
           = Z.of_nat (k + agree shortestMatch (drop k code)))
  /\ (c_list (completion code cursorPos e names) = [] ->
      c_cursorStart (completion code cursorPos e names) = cursorPos
      /\ c_cursorEnd (completion code cursorPos e names) = cursorPos).
Proof.
  intros H. split; [reflexivity|].
  apply parseExpression_parsed, parsed_occurs in H as [j Hj].
  destruct (indexOf_index_of _ _ _ Hj) as (k & Hk & Hi).
  unfold completion. cbv zeta. simpl c_list. simpl c_cursorStart. simpl c_cursorEnd.
  match goal with
  | |- context [match ?l with [] => _ | _ :: _ => _ end] =>
      generalize l as matchList
  end.
  intros [|first others]; simpl.
  - split; [intros C; contradiction C; reflexivity | auto].
  - split; [intros _ | discriminate].
    exists k, (fold_left shorter others first).
    rewrite Hk. repeat split; try apply Hi.
    + apply (fold_shorter others [first] first).
      exists [], []. repeat split; constructor.
    + change 0%Z with (Z.of_nat 0). rewrite scan_agree by lia.
      now rewrite drop_0.
Qed.

(* ================================================================== *)
(** * Documentation: theorems *)

(** The lookup tries the name, then the name with "Error." for a prefix of
    letters that ends with "Error" and one more unit, then the name with
    "TypedArray." for such a prefix that ends with "Array". *)
Lemma getDocumentation_order (doc : string -> option Documentation) (name : string) :
  getDocumentation doc name
  = match doc name with
    | Some d => Some d
    | None =>
        match doc (replace name (prefixRE "Error") "Error.") with
        | Some d => Some d
        | None => doc (replace name (prefixRE "Array") "TypedArray.")
        end
    end.
Proof.
  unfold getDocumentation.
  change errorPrefixRE with (prefixRE "Error").
  change arrayPrefixRE with (prefixRE "Array").
  destruct (doc name); [reflexivity|].
  destruct (doc (replace name (prefixRE "Error") "Error.")); [reflexivity|].
  destruct (doc (replace name (prefixRE "Array") "TypedArray.")); reflexivity.
Qed.

(** A name that starts with letters followed by "Error." and has no entry
    is looked up with "Error." in their place. *)
Lemma getDocumentation_error_prefix (doc : string -> option Documentation)
    (X rest : string) (d : Documentation) :
  X <> "" -> all alpha X = true ->
  doc (X +++ "Error." +++ rest) = None ->
  doc ("Error." +++ rest) = Some d ->
  getDocumentation doc (X +++ "Error." +++ rest) = Some d.
Proof.
  intros HX Ha H1 H2. rewrite getDocumentation_order, H1.
  change (X +++ "Error." +++ rest) with (X +++ "Error" +++ String "." rest).
  rewrite replace_prefix; try assumption; try reflexivity; try discriminate.
  now rewrite H2.
Qed.

(** So is a name that starts with letters followed by "Array.", with
    "TypedArray.". *)
Lemma getDocumentation_array_prefix (doc : string -> option Documentation)
    (X rest : string) (d : Documentation) :
  X <> "" -> all alpha X = true ->
  doc (X +++ "Array." +++ rest) = None ->
  doc (replace (X +++ "Array." +++ rest) (prefixRE "Error") "Error.") = None ->
  doc ("TypedArray." +++ rest) = Some d ->
  getDocumentation doc (X +++ "Array." +++ rest) = Some d.
Proof.
  intros HX Ha H1 H2 H3. rewrite getDocumentation_order, H1, H2.
  change (X +++ "Array." +++ rest) with (X +++ "Array" +++ String "." rest).
  rewrite replace_prefix; try assumption; try reflexivity; try discriminate.
Qed.

(** "RangeError.prototype.toString" is found under
    "Error.prototype.toString". *)
Lemma getDocumentation_RangeError :
  getDocumentation (oneEntry "Error.prototype.toString" someDoc)
    "RangeError.prototype.toString" = Some someDoc.
Proof. reflexivity. Qed.

(** None of them is rewritten: each has a digit before "Array". A name
    made of letters is. *)
Lemma typedArrays_not_rewritten :
  Forall
    (fun constructorName =>
       replace (constructorName +++ ".prototype.length") arrayPrefixRE "TypedArray."
       = constructorName +++ ".prototype.length")
    typedArrays
  /\ replace "MyArray.prototype.length" arrayPrefixRE "TypedArray."
     = "TypedArray.prototype.length".
Proof. split; [repeat constructor | reflexivity]. Qed.

(** C8, where the code departs from it. "Int8Array.prototype.length" is
    not rewritten to "TypedArray.prototype.length": the pattern wants
    letters only before "Array", so that the entry of the table under that
    name is not found. *)
Theorem getDocumentation_Int8Array :
  replace "Int8Array.prototype.length" arrayPrefixRE "TypedArray."
  = "Int8Array.prototype.length"
  /\ getDocumentation (oneEntry "TypedArray.prototype.length" someDoc)
       "Int8Array.prototype.length" = None.
Proof. split; reflexivity. Qed.

(* ================================================================== *)
(** * Inspection: theorems *)

Lemma searchConstructors_first (doc : string -> option Documentation)
    (constructorList : list string) (selector : string) :
  first_documented doc constructorList selector
    (searchConstructors doc constructorList selector).
Proof.
  unfold first_documented.
  induction constructorList as [|c l IH]; cbn [searchConstructors].
  - constructor.
  - destruct (getDocumentation doc (c +++ ".prototype." +++ selector))
      as [d|] eqn:E.
    + exists [], c, l. repeat split; [constructor | exact E].
    + destruct (searchConstructors doc l selector) as [d|].
      * destruct IH as (l1 & c' & l2 & -> & H1 & H2).
        exists (c :: l1), c', l2. repeat split; [constructor; assumption | exact H2].
      * constructor; assumption.
Qed.

Lemma truthy_nonempty (s : string) : s <> "" -> truthy s = true.
Proof. destruct s; [contradiction | reflexivity]. Qed.

(** C7. For an expression with a scope: [inspect] submits a first task;
    when its reply is a success, a second task with the action "inspect"
    and the scope as code is submitted, and no function of the caller is
    called; when the reply of the second is a success, the documentation
    of the first constructor of its [constructorList] that has one for
    ["<constructorName>.prototype.<selector>"] is attached, none if there
    is none, and only then [onInspectionSuccess] is called, and then
    [afterRun]. The last part is the whole trace of such a call on a new
    session, for functions that call nothing. *)
Theorem inspect_scope_documentation (doc : string -> option Documentation)
    (code : string) (cursorPos : Z) (e : Expression)
    (onInspectionSuccess onError beforeRun afterRun : option Fn)
    (inspection scopeInspection : Inspection) (doc0 doc1 : option Documentation) :
  parseExpression code cursorPos = Some e ->
  scope e <> "" ->
  let first :=
    inspectTask code cursorPos e onInspectionSuccess onError beforeRun afterRun in
  let stamped := stamp code cursorPos e inspection in
  let second :=
    scopeTask stamped doc0 e onInspectionSuccess onError beforeRun afterRun in
  let reply1 := InspectionResult inspection doc0 in
  let reply2 := InspectionResult scopeInspection doc1 in
  (forall w : World,
     perform (CallInspect code cursorPos onInspectionSuccess onError beforeRun afterRun) w
     = _run invoke first (emit (LogInspect (Some e)) w))
  /\ (forall w : World,
        _task w = Some first -> _killed w = false ->
        _onMessage doc reply1 w
        = runNext (_runLater second (emit (LogTask second) (emit (LogMessage reply1) w))))
  /\ request second = ("inspect", scope e)
  /\ (exists found : option Documentation,
        first_documented doc
          (match constructorList scopeInspection with
           | Some l => l
           | None => []
           end) (selector e) found
        /\ forall w : World,
             _task w = Some second ->
             _onMessage doc reply2 w
             = runNext
                 (call_if invoke afterRun None
                    (call_if invoke onInspectionSuccess
                       (Some (InspectionResult stamped (attach found doc0)))
                       (emit (LogMessage reply2) w))))
  /\ (forall (n1 n2 n3 n4 : string) (found : option Documentation),
        onInspectionSuccess = opaque n1 -> onError = opaque n2 ->
        beforeRun = opaque n3 -> afterRun = opaque n4 ->
        found = match constructorList scopeInspection with
                | Some l => searchConstructors doc l (selector e)
                | None => None
                end ->
        option_map trace
          (run doc
             [Do (CallInspect code cursorPos onInspectionSuccess onError
                    beforeRun afterRun);
              Reply reply1; Reply reply2] Session)
        = Some [LogInspect (Some e); LogTask first; Invoke n3 None;
                Send ("inspect", matchedText e);
                LogMessage reply1; LogTask second; Invoke n3 None;
                Send ("inspect", scope e);
                LogMessage reply2;
                Invoke n1 (Some (InspectionResult stamped (attach found doc0)));
                Invoke n4 None]).
Proof.
  intros H Hsc first stamped second reply1 reply2.
  pose proof (truthy_nonempty _ Hsc) as Ht.
  split; [|split; [|split; [|split]]].
  - intros w. simpl. unfold inspect. rewrite H. reflexivity.
  - intros w Hw Hk. unfold _onMessage. simpl _task. rewrite Hw. simpl.
    unfold getDocumentationAndInvokeCallbacks. rewrite Ht. simpl.
    unfold _run. simpl. rewrite Hk, Hw. reflexivity.
  - reflexivity.
  - exists (match constructorList scopeInspection with
            | Some l => searchConstructors doc l (selector e)
            | None => None
            end).
    split.
    + destruct (constructorList scopeInspection) as [l|].
      * apply searchConstructors_first.
      * constructor.
    + intros w Hw. unfold _onMessage. simpl _task. rewrite Hw. reflexivity.
  - intros n1 n2 n3 n4 found -> -> -> -> ->.
    unfold run, react, perform, inspect. rewrite H.
    subst first stamped second reply1 reply2.
    destruct e as [mt sc lop sel rop]. simpl in Hsc.
    destruct sc as [|c sc]; [contradiction|].
    reflexivity.
Qed.

(** C9. When the reply to either task of [inspect] is an error, [onError]
    is called and [afterRun] is not: the tasks of [inspect] have no
    [afterRun]. The tasks of [execute] and [complete] have it, and it is
    called after [onError] and after [onSuccess]. The last two parts are
    the whole traces of a call of [inspect] on a new session whose first,
    or second, reply is an error, for functions that call nothing: the
    session is then idle, with nothing left to run. *)
Theorem inspect_error_without_afterRun (doc : string -> option Documentation)
    (code : string) (cursorPos : Z) (e : Expression)
    (onInspectionSuccess onError beforeRun afterRun : option Fn)
    (inspection : Inspection) (doc0 : option Documentation) (error : Error) :
  parseExpression code cursorPos = Some e ->
  let first :=
    inspectTask code cursorPos e onInspectionSuccess onError beforeRun afterRun in
  let stamped := stamp code cursorPos e inspection in
  let second :=
    scopeTask stamped doc0 e onInspectionSuccess onError beforeRun afterRun in
  let reply1 := InspectionResult inspection doc0 in
  let failure := ErrorResult error in
  (afterRunOf first = None /\ afterRunOf second = None)
  /\ (forall w : World,
        _task w = Some first \/ _task w = Some second ->
        _onMessage doc failure w
        = runNext (call_if invoke onError (Some failure) (emit (LogMessage failure) w)))
  /\ (forall (w : World) (code' : string) (cursorPos' : Z) (e' : Expression)
         (onSuccess' : option Fn) (task : Task) (message : Result),
        task = executeTask code' onSuccess' onError beforeRun afterRun
        \/ task = completeTask code' cursorPos' e' onSuccess' onError
                    beforeRun afterRun ->
        _task w = Some task ->
        _onMessage doc message w
        = runNext
            (call_if invoke afterRun None
               (if hasOwnProperty_error message
                then call_if invoke onError (Some message)
                       (emit (LogMessage message) w)
                else match onSuccess task with
                     | Some cb =>
                         applyOnSuccess doc cb message (emit (LogMessage message) w)
                     | None => emit (LogMessage message) w
                     end)))
  /\ (forall n1 n2 n3 n4 : string,
        onInspectionSuccess = opaque n1 -> onError = opaque n2 ->
        beforeRun = opaque n3 -> afterRun = opaque n4 ->
        option_map observe
          (run doc
             [Do (CallInspect code cursorPos onInspectionSuccess onError
                    beforeRun afterRun);
              Reply failure] Session)
        = Some ([LogInspect (Some e); LogTask first; Invoke n3 None;
                 Send ("inspect", matchedText e);
                 LogMessage failure; Invoke n2 (Some failure)],
                None, []))
  /\ (forall n1 n2 n3 n4 : string,
        scope e <> "" ->
        onInspectionSuccess = opaque n1 -> onError = opaque n2 ->
        beforeRun = opaque n3 -> afterRun = opaque n4 ->
        option_map observe
          (run doc
             [Do (CallInspect code cursorPos onInspectionSuccess onError
                    beforeRun afterRun);
              Reply reply1; Reply failure] Session)
        = Some ([LogInspect (Some e); LogTask first; Invoke n3 None;
                 Send ("inspect", matchedText e);
                 LogMessage reply1; LogTask second; Invoke n3 None;
                 Send ("inspect", scope e);
                 LogMessage failure; Invoke n2 (Some failure)],
                None, [])).
Proof.
  intros H first stamped second reply1 failure.
  split; [split; reflexivity|]. split; [|split; [|split]].
  - intros w [Hw|Hw]; unfold _onMessage; simpl _task; rewrite Hw; reflexivity.
  - intros w code' cursorPos' e' onSuccess' task message [Ht|Ht] Hw;
      unfold _onMessage; simpl _task; rewrite Hw, Ht; reflexivity.
  - intros n1 n2 n3 n4 -> -> -> ->.
    unfold run, react, perform, inspect. rewrite H. reflexivity.
  - intros n1 n2 n3 n4 Hsc -> -> -> ->.
    unfold run, react, perform, inspect. rewrite H.
    subst first stamped second reply1 failure.
    destruct e as [mt sc lop sel rop]. simpl in Hsc.
    destruct sc as [|c sc]; [contradiction|].
    reflexivity.
Qed.

(* ================================================================== *)
(** * The task queue: theorems *)

Lemma invoke_eq (name : string) (body : list Call) (argument : option Result)
    (w : World) :
  invoke (fn name body) argument w = performAll body (emit (Invoke name argument) w).
Proof.
  simpl. generalize (emit (Invoke name argument) w).
  induction body as [|c body IH]; intros w0; simpl; [reflexivity | apply IH].
Qed.

(** Induction on the functions of the caller and on the calls of their
    bodies, for both at once. *)
Lemma Fn_Call_induction (P : Fn -> Prop) (Q : Call -> Prop) :
  (forall name body, Forall Q body -> P (fn name body)) ->
  (forall code a b c d,
     optP P a -> optP P b -> optP P c -> optP P d -> Q (CallExecute code a b c d)) ->
  (forall code cursorPos a b c d,
     optP P a -> optP P b -> optP P c -> optP P d ->
     Q (CallComplete code cursorPos a b c d)) ->
  (forall code cursorPos a b c d,
     optP P a -> optP P b -> optP P c -> optP P d ->
     Q (CallInspect code cursorPos a b c d)) ->
  (forall signal killCB, optP P killCB -> Q (CallKill signal killCB)) ->
  (forall f : Fn, P f) /\ (forall c : Call, Q c).
Proof.
  intros H1 H2 H3 H4 H5.
  split; [apply (Fn_induction P Q) | apply (Call_induction P Q)]; assumption.
Qed.

(** ** What the trace says *)

Lemma sent_app (t u : list Event) : sent (t ++ u) = sent t ++ sent u.
Proof. apply flat_map_app. Qed.

Lemma submitted_app (t u : list Event) : submitted (t ++ u) = submitted t ++ submitted u.
Proof. apply flat_map_app. Qed.

Lemma outstanding_app (t u : list Event) :
  outstanding (t ++ u) = fold_left tick u (outstanding t).
Proof. apply fold_left_app. Qed.

Lemma tick_silent (st : option nat) (e : Event) : silent e = true -> tick st e = st.
Proof. destruct e; simpl; intros H; try reflexivity; discriminate. Qed.

Lemma fold_tick_silent (evs : list Event) (st : option nat) :
  forallb silent evs = true -> fold_left tick evs st = st.
Proof.
  revert st; induction evs as [|e evs IH]; intros st; simpl; [reflexivity|].
  rewrite andb_true_iff. intros [He H]. now rewrite tick_silent, IH.
Qed.

Lemma sent_silent (evs : list Event) : forallb silent evs = true -> sent evs = [].
Proof.
  induction evs as [|e evs IH]; simpl; [reflexivity|].
  rewrite andb_true_iff. intros [He H]. rewrite (IH H).
  destruct e; try reflexivity; discriminate.
Qed.

Lemma fold_tick_None (evs : list Event) : fold_left tick evs None = None.
Proof. induction evs as [|e evs IH]; simpl; [reflexivity | destruct e; exact IH]. Qed.




(** ** What a callback may do while a task is in flight *)

Lemma quiet_refl (w : World) : quiet w w.
Proof.
  repeat split. exists [], []. now rewrite !app_nil_r.
Qed.

Lemma quiet_trans (w1 w2 w3 : World) : quiet w1 w2 -> quiet w2 w3 -> quiet w1 w3.
Proof.
  intros (A1 & A2 & e1 & n1 & A3 & A4 & A5 & A6)
         (B1 & B2 & e2 & n2 & B3 & B4 & B5 & B6).
  split; [congruence|]. split; [congruence|].
  exists (e1 ++ e2), (n1 ++ n2). repeat split.
  - rewrite B3, A3. now rewrite app_assoc.
  - rewrite B4, A4. now rewrite app_assoc.
  - rewrite forallb_app, A5, B5. reflexivity.
  - rewrite submitted_app, map_app. congruence.
Qed.

Lemma quiet_emit (e : Event) (w : World) :
  silent e = true -> submitted [e] = [] -> quiet w (emit e w).
Proof.
  intros He Hs. repeat split. exists [e], []. simpl. rewrite He, app_nil_r.
  repeat split. exact Hs.
Qed.

Lemma quiet_later (task : Task) (w : World) :
  quiet w (_runLater task (emit (LogTask task) w)).
Proof. repeat split. exists [LogTask task], [task]. repeat split. Qed.

Lemma quiet_kill (signal : option string) (killCB : option Fn) (w : World) :
  quiet w (kill signal killCB w).
Proof.
  repeat split. exists [Kill (signal_or_SIGTERM signal)], [].
  simpl. rewrite app_nil_r. repeat split.
Qed.

(** With a task in flight, [_run] adds the task to the queue, or drops it
    if the session was killed. *)
Lemma _run_busy (call : Fn -> option Result -> World -> World)
    (task t : Task) (w : World) :
  _task w = Some t -> quiet w (_run call task w).
Proof.
  intros H. unfold _run. destruct (_killed w); [apply quiet_refl|].
  simpl. rewrite H. apply quiet_later.
Qed.

Lemma quiet_busy (w w' : World) : quiet w w' -> busy w -> busy w'.
Proof. intros (H & _) [t Ht]. exists t. congruence. Qed.

(** With a task in flight, the functions of the caller and their calls
    do not send, handle or dispatch anything. *)
Lemma invoke_perform_quiet :
  (forall f : Fn, forall argument w, busy w -> quiet w (invoke f argument w))
  /\ (forall c : Call, forall w, busy w -> quiet w (perform c w)).
Proof.
  assert (O : forall o : option Fn,
             optP (fun f => forall argument w, busy w -> quiet w (invoke f argument w)) o ->
             forall argument w, busy w -> quiet w (call_if invoke o argument w)).
  { intros [f|] Ho argument w Hw; simpl; [apply Ho, Hw | apply quiet_refl]. }
  assert (R : forall task w, busy w -> quiet w (_run invoke task w)).
  { intros task w [t Ht]. eapply _run_busy, Ht. }
  assert (E : forall e w, busy w -> busy (emit e w)).
  { intros e w [t Ht]. exists t. exact Ht. }
  apply (Fn_Call_induction
           (fun f => forall argument w, busy w -> quiet w (invoke f argument w))
           (fun c => forall w, busy w -> quiet w (perform c w))).
  - intros name body Hb argument w Hw. rewrite invoke_eq.
    apply quiet_trans with (emit (Invoke name argument) w);
      [apply quiet_emit; reflexivity|].
    apply E with (e := Invoke name argument) in Hw. revert Hw.
    generalize (emit (Invoke name argument) w).
    induction Hb as [|c cs Hc Hcs IH]; intros w0 Hw0; simpl.
    + apply quiet_refl.
    + apply quiet_trans with (perform c w0); [apply Hc, Hw0|].
      apply IH. eapply quiet_busy; [apply Hc, Hw0 | exact Hw0].
  - intros code a b c d Ha Hb Hc Hd w Hw. simpl. unfold execute.
    eapply quiet_trans; [apply quiet_emit with (e := LogExecute code); reflexivity|].
    apply R, E, Hw.
  - intros code cursorPos a b c d Ha Hb Hc Hd w Hw. simpl. unfold complete.
    eapply quiet_trans;
      [apply quiet_emit with (e := LogComplete (parseExpression code cursorPos));
       reflexivity|].
    destruct (parseExpression code cursorPos); [apply R, E, Hw | apply O, E, Hw].
    exact Ha.
  - intros code cursorPos a b c d Ha Hb Hc Hd w Hw. simpl. unfold inspect.
    eapply quiet_trans;
      [apply quiet_emit with (e := LogInspect (parseExpression code cursorPos));
       reflexivity|].
    destruct (parseExpression code cursorPos); [apply R, E, Hw | apply O, E, Hw].
    exact Ha.
  - intros signal killCB _ w _. apply quiet_kill.
Qed.

Lemma call_if_quiet (o : option Fn) (argument : option Result) (w : World) :
  busy w -> quiet w (call_if invoke o argument w).
Proof.
  intros H. destruct o as [f|]; simpl;
    [apply invoke_perform_quiet, H | apply quiet_refl].
Qed.

Lemma invokeCallbacks_quiet (r : Result) (a b : option Fn) (w : World) :
  busy w -> quiet w (invokeCallbacks r a b w).
Proof.
  intros H. unfold invokeCallbacks.
  eapply quiet_trans; [apply call_if_quiet, H|].
  apply call_if_quiet. eapply quiet_busy; [apply call_if_quiet, H | exact H].
Qed.

Lemma applyOnSuccess_quiet (doc : string -> option Documentation)
    (cb : OnSuccess) (result : Result) (w : World) :
  busy w -> quiet w (applyOnSuccess doc cb result w).
Proof.
  intros H.
  assert (T : quiet w (emit TypeError w)) by (apply quiet_emit; reflexivity).
  destruct cb as [f|code cursorPos e ocs|code cursorPos e ois oe br ar|ir e ois ar];
    simpl.
  - apply invoke_perform_quiet, H.
  - destruct result; try exact T. apply call_if_quiet, H.
  - destruct result; try exact T. unfold getDocumentationAndInvokeCallbacks.
    destruct (negb (truthy (scope e))).
    + apply invokeCallbacks_quiet, H.
    + destruct H as [t H]. eapply _run_busy, H.
  - destruct result; try exact T. destruct ir; try exact T.
    apply invokeCallbacks_quiet, H.
Qed.

(** ** The invariant of a session *)

Lemma Inv_quiet (w w' : World) : Inv w -> busy w -> quiet w w' -> Inv w'.
Proof.
  intros [F G] [t Ht] (Q1 & Q2 & evs & new & Q3 & Q4 & Q5 & Q6).
  rewrite Ht in G. split.
  - rewrite Q3, Q4, sent_app, submitted_app, map_app, (sent_silent _ Q5), Q6.
    rewrite app_nil_r, app_assoc, F. reflexivity.
  - rewrite Q1, Ht, Q2, Q3, outstanding_app, (fold_tick_silent _ _ Q5). exact G.
Qed.

Lemma Inv_emit (e : Event) (w : World) :
  silent e = true -> submitted [e] = [] -> Inv w -> Inv (emit e w).
Proof.
  intros He Hs [F G]. split.
  - simpl. rewrite sent_app, submitted_app, Hs, (sent_silent [e]), !app_nil_r.
    + exact F.
    + simpl. now rewrite He.
  - simpl. rewrite outstanding_app. simpl. rewrite (tick_silent _ _ He). exact G.
Qed.

(** Dispatching a task when no request waits. *)
Lemma _runNow_Inv (task : Task) (w : World) :
  outstanding (trace w) = Some 0 -> channel w = [] ->
  sent (trace w) ++ request task :: map request (_tasks w) = submitted (trace w) ->
  Inv (_runNow invoke task w).
Proof.
  intros Ho Hc Hf. unfold _runNow.
  assert (B : busy (set_task (Some task) w)) by (exists task; reflexivity).
  destruct (call_if_quiet (beforeRun task) None _ B)
    as (Q1 & Q2 & evs & new & Q3 & Q4 & Q5 & Q6).
  revert Q1 Q2 Q3 Q4.
  generalize (call_if invoke (beforeRun task) None (set_task (Some task) w)).
  intros w' Q1 Q2 Q3 Q4. simpl in Q1, Q2, Q3, Q4. split; simpl.
  - rewrite Q3, Q4, !sent_app, !submitted_app, map_app, (sent_silent _ Q5), Q6.
    change (sent [Send (action task, code task)]) with [request task].
    change (submitted [Send (action task, code task)])
      with (@nil (string * string)).
    rewrite !app_nil_r, <- Hf, <- !app_assoc. reflexivity.
  - rewrite Q1, Q2, Hc, Q3, !outstanding_app, Ho, (fold_tick_silent _ _ Q5).
    simpl. split; [reflexivity | left; reflexivity].
Qed.

Lemma _run_Inv (task : Task) (w : World) : Inv w -> Inv (_run invoke task w).
Proof.
  intros H. unfold _run. destruct (_killed w); [exact H|].
  simpl. destruct (_task w) as [t|] eqn:Ht.
  - apply (Inv_quiet w); [exact H | exists t; exact Ht | apply quiet_later].
  - destruct H as [F G]. rewrite Ht in G. destruct G as (G1 & G2 & G3).
    apply _runNow_Inv; simpl.
    + rewrite outstanding_app, G1. reflexivity.
    + exact G2.
    + rewrite sent_app, submitted_app, G3, <- F, G3. simpl.
      rewrite !app_nil_r. reflexivity.
Qed.

Lemma kill_Inv (signal : option string) (killCB : option Fn) (w : World) :
  Inv w -> Inv (kill signal killCB w).
Proof.
  intros H. apply (Inv_emit (Kill (signal_or_SIGTERM signal))) in H;
    [exact H | reflexivity | reflexivity].
Qed.

(** The functions of the caller and their calls keep the invariant. *)
Lemma invoke_perform_Inv :
  (forall f : Fn, forall argument w, Inv w -> Inv (invoke f argument w))
  /\ (forall c : Call, forall w, Inv w -> Inv (perform c w)).
Proof.
  assert (O : forall o : option Fn,
             optP (fun f => forall argument w, Inv w -> Inv (invoke f argument w)) o ->
             forall argument w, Inv w -> Inv (call_if invoke o argument w)).
  { intros [f|] Ho argument w Hw; simpl; [apply Ho, Hw | exact Hw]. }
  apply (Fn_Call_induction
           (fun f => forall argument w, Inv w -> Inv (invoke f argument w))
           (fun c => forall w, Inv w -> Inv (perform c w))).
  - intros name body Hb argument w Hw. rewrite invoke_eq.
    apply (Inv_emit (Invoke name argument)) in Hw; [|reflexivity|reflexivity].
    revert Hw. generalize (emit (Invoke name argument) w).
    induction Hb as [|c cs Hc Hcs IH]; intros w0 Hw0; simpl.
    + exact Hw0.
    + apply IH, Hc, Hw0.
  - intros code a b c d _ _ _ _ w Hw. simpl. unfold execute.
    apply _run_Inv, Inv_emit; [reflexivity | reflexivity | exact Hw].
  - intros code cursorPos a b c d Ha _ _ _ w Hw. simpl. unfold complete.
    apply (Inv_emit (LogComplete (parseExpression code cursorPos))) in Hw;
      [|reflexivity|reflexivity].
    destruct (parseExpression code cursorPos); [apply _run_Inv, Hw | apply O, Hw].
    exact Ha.
  - intros code cursorPos a b c d Ha _ _ _ w Hw. simpl. unfold inspect.
    apply (Inv_emit (LogInspect (parseExpression code cursorPos))) in Hw;
      [|reflexivity|reflexivity].
    destruct (parseExpression code cursorPos); [apply _run_Inv, Hw | apply O, Hw].
    exact Ha.
  - intros signal killCB _ w Hw. apply kill_Inv, Hw.
Qed.

(** Handling the reply to the request that waits keeps the invariant. *)
Lemma _onMessage_Inv (doc : string -> option Documentation)
    (message : Result) (req : string * string) (rest : list (string * string))
    (w : World) :
  Inv w -> channel w = req :: rest ->
  Inv (_onMessage doc message (set_channel rest w)).
Proof.
  intros [F G] Hc. destruct (_task w) as [t|] eqn:Ht.
  2:{ destruct G as (_ & G & _). congruence. }
  destruct G as [Go [G|G]]; [|congruence].
  rewrite Hc in G. injection G as -> ->.
  unfold _onMessage. simpl _task. rewrite Ht.
  set (w1 := emit (LogMessage message) (set_channel [] w)).
  assert (B1 : busy w1) by (exists t; exact Ht).
  assert (Q : quiet w1
                (call_if invoke (afterRun t) None
                   (if hasOwnProperty_error message
                    then call_if invoke (onError t) (Some message) w1
                    else match onSuccess t with
                         | Some cb => applyOnSuccess doc cb message w1
                         | None => w1
                         end))).
  { assert (Q2 : quiet w1
                   (if hasOwnProperty_error message
                    then call_if invoke (onError t) (Some message) w1
                    else match onSuccess t with
                         | Some cb => applyOnSuccess doc cb message w1
                         | None => w1
                         end)).
    { destruct (hasOwnProperty_error message).
      - apply call_if_quiet, B1.
      - destruct (onSuccess t); [apply applyOnSuccess_quiet, B1 | apply quiet_refl]. }
    eapply quiet_trans; [exact Q2|].
    apply call_if_quiet. eapply quiet_busy; [exact Q2 | exact B1]. }
  revert Q.
  match goal with |- quiet w1 ?x -> _ => generalize x end.
  intros w3 (Q1 & Q2 & evs & new & Q3 & Q4 & Q5 & Q6).
  simpl in Q1, Q2, Q3, Q4.
  assert (O3 : outstanding (trace w3) = Some 0).
  { rewrite Q3, !outstanding_app, Go, (fold_tick_silent _ _ Q5). reflexivity. }
  assert (S3 : sent (trace w3) = sent (trace w)).
  { rewrite Q3, !sent_app, (sent_silent _ Q5). simpl. now rewrite !app_nil_r. }
  assert (U3 : submitted (trace w3) = submitted (trace w) ++ map request new).
  { rewrite Q3, !submitted_app, Q6. simpl. now rewrite app_nil_r. }
  unfold runNext. destruct (_tasks w3) as [|next rest] eqn:E.
  - symmetry in Q4. apply app_eq_nil in Q4 as [Q4 Qn]. subst new.
    split; simpl.
    + rewrite E, S3, U3, <- F, Q4. simpl. now rewrite !app_nil_r.
    + repeat split; [exact O3 | exact Q2 | exact E].
  - apply _runNow_Inv; simpl.
    + exact O3.
    + exact Q2.
    + rewrite S3, U3, <- F, <- app_assoc, <- map_app, <- Q4. reflexivity.
Qed.

Lemma react_Inv (doc : string -> option Documentation) (i : Input) (w w' : World) :
  Inv w -> react doc i w = Some w' -> Inv w'.
Proof.
  intros H. destruct i as [c|message]; simpl.
  - intros [= <-]. apply invoke_perform_Inv, H.
  - destruct (channel w) as [|req rest] eqn:Hc; [discriminate|].
    destruct (conforms message req); [|discriminate].
    intros [= <-]. destruct (listening w).
    + apply (_onMessage_Inv doc message req rest w H Hc).
    + destruct H as [F G]. split; [exact F|]. simpl.
      destruct (_task w) as [t|].
      * destruct G as [Go [G|G]]; [|congruence].
        rewrite Hc in G. injection G as _ ->.
        split; [exact Go | right; reflexivity].
      * destruct G as (_ & G & _). congruence.
Qed.

Lemma run_Inv (doc : string -> option Documentation) (inputs : list Input) :
  forall w w' : World, Inv w -> run doc inputs w = Some w' -> Inv w'.
Proof.
  induction inputs as [|i inputs IH]; intros w w' H; simpl.
  - intros [= <-]. exact H.
  - destruct (react doc i w) as [w1|] eqn:E; [|discriminate].
    apply IH. eapply react_Inv; eauto.
Qed.

Lemma Session_Inv : Inv Session.
Proof. repeat split. Qed.


(** ** Nothing is thrown *)

Lemma sound_emit (e : Event) (w : World) :
  e <> TypeError -> sound w -> sound (emit e w).
Proof.
  intros He (H1 & H2 & H3). repeat split; [exact H1 | exact H2 |].
  simpl. rewrite in_app_iff. intros [C|[C|[]]]; [exact (H3 C) | exact (He C)].
Qed.

Lemma _runNow_sound (task : Task) (w : World) :
  suits task -> sound w ->
  (forall w', sound w' -> sound (call_if invoke (beforeRun task) None w')) ->
  sound (_runNow invoke task w).
Proof.
  intros Ht (H1 & H2 & H3) Hb. unfold _runNow, send.
  apply sound_emit; [discriminate|].
  assert (S : sound (set_task (Some task) w)).
  { repeat split; [exact H1 | | exact H3]. simpl. intros t [= <-]. exact Ht. }
  apply Hb in S. destruct S as (S1 & S2 & S3). repeat split; assumption.
Qed.

Lemma _run_sound (task : Task) (w : World) :
  suits task -> sound w ->
  (forall w', sound w' -> sound (call_if invoke (beforeRun task) None w')) ->
  sound (_run invoke task w).
Proof.
  intros Ht Hw Hb. unfold _run. destruct (_killed w); [exact Hw|].
  apply (sound_emit (LogTask task)) in Hw; [|discriminate].
  simpl. destruct (_task w).
  - destruct Hw as (H1 & H2 & H3). repeat split; [|exact H2|exact H3].
    simpl. apply Forall_app. split; [exact H1 | constructor; [exact Ht|constructor]].
  - apply _runNow_sound; assumption.
Qed.

(** The functions of the caller and their calls keep a session sound. *)
Lemma invoke_perform_sound :
  (forall f : Fn, forall argument w, sound w -> sound (invoke f argument w))
  /\ (forall c : Call, forall w, sound w -> sound (perform c w)).
Proof.
  assert (O : forall o : option Fn,
             optP (fun f => forall argument w, sound w -> sound (invoke f argument w)) o ->
             forall argument w, sound w -> sound (call_if invoke o argument w)).
  { intros [f|] Ho argument w Hw; simpl; [apply Ho, Hw | exact Hw]. }
  apply (Fn_Call_induction
           (fun f => forall argument w, sound w -> sound (invoke f argument w))
           (fun c => forall w, sound w -> sound (perform c w))).
  - intros name body Hb argument w Hw. rewrite invoke_eq.
    apply (sound_emit (Invoke name argument)) in Hw; [|discriminate].
    revert Hw. generalize (emit (Invoke name argument) w).
    induction Hb as [|c cs Hc Hcs IH]; intros w0 Hw0; simpl.
    + exact Hw0.
    + apply IH, Hc, Hw0.
  - intros code a b c d _ _ Hc _ w Hw. simpl. unfold execute.
    apply _run_sound.
    + unfold suits. simpl. destruct a; exact I.
    + apply sound_emit; [discriminate | exact Hw].
    + intros w'. apply O, Hc.
  - intros code cursorPos a b c d Ha _ Hc _ w Hw. simpl. unfold complete.
    apply (sound_emit (LogComplete (parseExpression code cursorPos))) in Hw;
      [|discriminate].
    destruct (parseExpression code cursorPos).
    + apply _run_sound; [reflexivity | exact Hw | intros w'; apply O, Hc].
    + apply O; [exact Ha | exact Hw].
  - intros code cursorPos a b c d Ha _ Hc _ w Hw. simpl. unfold inspect.
    apply (sound_emit (LogInspect (parseExpression code cursorPos))) in Hw;
      [|discriminate].
    destruct (parseExpression code cursorPos).
    + apply _run_sound; [reflexivity | exact Hw | intros w'; apply O, Hc].
    + apply O; [exact Ha | exact Hw].
  - intros signal killCB _ w Hw. unfold kill.
    apply (sound_emit (Kill (signal_or_SIGTERM signal))) in Hw; [|discriminate].
    exact Hw.
Qed.

Lemma call_if_sound (o : option Fn) (argument : option Result) (w : World) :
  sound w -> sound (call_if invoke o argument w).
Proof.
  intros H. destruct o as [f|]; simpl; [apply invoke_perform_sound, H | exact H].
Qed.

Lemma invokeCallbacks_sound (r : Result) (a b : option Fn) (w : World) :
  sound w -> sound (invokeCallbacks r a b w).
Proof. intros H. unfold invokeCallbacks. apply call_if_sound, call_if_sound, H. Qed.

(** A reply that conforms to the request of a task that suits its action
    is one that the [onSuccess] of the task can read. *)
Lemma applyOnSuccess_sound (doc : string -> option Documentation)
    (task : Task) (cb : OnSuccess) (message : Result) (w : World) :
  suits task -> onSuccess task = Some cb ->
  conforms message (request task) = true ->
  hasOwnProperty_error message = false ->
  sound w -> sound (applyOnSuccess doc cb message w).
Proof.
  unfold suits. intros Ht Hcb Hm He Hw. rewrite Hcb in Ht.
  destruct cb as [f|code cursorPos e ocs|code cursorPos e ois oe br ar|ir e ois ar];
    simpl.
  - apply invoke_perform_sound, Hw.
  - destruct message; simpl in Hm, He; rewrite ?Ht in Hm; try discriminate.
    apply call_if_sound, Hw.
  - destruct message; simpl in Hm, He; rewrite ?Ht in Hm; try discriminate.
    unfold getDocumentationAndInvokeCallbacks.
    destruct (negb (truthy (scope e))).
    + apply invokeCallbacks_sound, Hw.
    + apply _run_sound; [| exact Hw | intros w'; apply call_if_sound].
      unfold suits. simpl. split; [reflexivity | eauto].
  - destruct Ht as (Ht & i & d & ->).
    destruct message; simpl in Hm, He; rewrite ?Ht in Hm; try discriminate.
    apply invokeCallbacks_sound, Hw.
Qed.

Lemma _onMessage_sound (doc : string -> option Documentation)
    (message : Result) (t : Task) (w : World) :
  _task w = Some t -> conforms message (request t) = true ->
  sound w -> sound (_onMessage doc message w).
Proof.
  intros Ht Hm Hw. unfold _onMessage. simpl _task. rewrite Ht.
  assert (St : suits t) by (apply Hw, Ht).
  apply (sound_emit (LogMessage message)) in Hw; [|discriminate].
  revert Hw. generalize (emit (LogMessage message) w). intros w1 Hw1.
  assert (S2 : sound
                 (if hasOwnProperty_error message
                  then call_if invoke (onError t) (Some message) w1
                  else match onSuccess t with
                       | Some cb => applyOnSuccess doc cb message w1
                       | None => w1
                       end)).
  { destruct (hasOwnProperty_error message) eqn:He.
    - apply call_if_sound, Hw1.
    - destruct (onSuccess t) as [cb|] eqn:Hcb; [|exact Hw1].
      apply (applyOnSuccess_sound doc t); assumption. }
  revert S2.
  match goal with |- sound ?x -> _ => generalize x end.
  intros w2 Hw2. apply (call_if_sound (afterRun t) None) in Hw2.
  revert Hw2. generalize (call_if invoke (afterRun t) None w2).
  intros w3 (H1 & H2 & H3). unfold runNext.
  destruct (_tasks w3) as [|next rest] eqn:E.
  - repeat split; [simpl; rewrite E; constructor | discriminate | exact H3].
  - inversion H1 as [|x l Hn Hr]; subst.
    apply _runNow_sound; [exact Hn | | intros w'; apply call_if_sound].
    repeat split; [exact Hr | exact H2 | exact H3].
Qed.

(** X16. On a session that runs from its creation, with a worker that
    keeps its contract, no property of [null] or [undefined] is ever read: a
    message finds a task in flight, and a closure of [complete] or
    [inspect] is handed a result of its kind. *)
Lemma run_never_throws (doc : string -> option Documentation)
    (inputs : list Input) (w : World) :
  run doc inputs Session = Some w -> ~ In TypeError (trace w).
Proof.
  assert (G : forall inputs w0 w,
             Inv w0 -> sound w0 -> run doc inputs w0 = Some w -> sound w).
  { clear inputs w. induction inputs as [|i inputs IH]; intros w0 w HI HS; simpl.
    - intros [= <-]. exact HS.
    - destruct (react doc i w0) as [w1|] eqn:E; [|discriminate].
      apply IH; [eapply react_Inv; eauto|].
      destruct i as [c|message]; simpl in E.
      + injection E as <-. apply invoke_perform_sound, HS.
      + destruct (channel w0) as [|req rest] eqn:Hc; [discriminate|].
        destruct (conforms message req) eqn:Hm; [|discriminate].
        injection E as <-. simpl.
        assert (S0 : sound (set_channel rest w0)) by exact HS.
        destruct (listening w0); [|exact S0].
        destruct HI as [_ G]. destruct (_task w0) as [t|] eqn:Ht.
        * destruct G as [_ [G|G]]; [|congruence].
          rewrite Hc in G. injection G as -> ->.
          apply (_onMessage_sound doc message t); [exact Ht | exact Hm | exact S0].
        * destruct G as (_ & G & _). congruence. }
  intros H. apply (G inputs Session w Session_Inv) in H; [apply H|].
  repeat split; [constructor | discriminate | intros []].
Qed.

(** ** After [kill] *)

Lemma still_refl (w : World) : dead w -> still w w.
Proof. intros H. repeat split; apply H. Qed.

Lemma still_trans (w1 w2 w3 : World) : still w1 w2 -> still w2 w3 -> still w1 w3.
Proof.
  intros (A1 & A2 & A3 & A4 & A5) (B1 & B2 & B3 & B4 & B5).
  repeat split; try apply B1; congruence.
Qed.

Lemma still_emit (e : Event) (w : World) :
  silent e = true -> dead w -> still w (emit e w).
Proof.
  intros He H. repeat split; try apply H.
  simpl. rewrite sent_app, (sent_silent [e]), app_nil_r; [reflexivity|].
  simpl. now rewrite He.
Qed.

Lemma still_dead (w w' : World) : still w w' -> dead w'.
Proof. intros H. apply H. Qed.

(** On a dead session, the functions of the caller and their calls send
    nothing and dispatch nothing. *)
Lemma invoke_perform_still :
  (forall f : Fn, forall argument w, dead w -> still w (invoke f argument w))
  /\ (forall c : Call, forall w, dead w -> still w (perform c w)).
Proof.
  assert (O : forall o : option Fn,
             optP (fun f => forall argument w, dead w -> still w (invoke f argument w)) o ->
             forall argument w, dead w -> still w (call_if invoke o argument w)).
  { intros [f|] Ho argument w Hw; simpl; [apply Ho, Hw | apply still_refl, Hw]. }
  assert (R : forall task w, dead w -> still w (_run invoke task w)).
  { intros task w Hw. unfold _run. destruct Hw as [Hk Hl]. rewrite Hk.
    apply still_refl. split; assumption. }
  apply (Fn_Call_induction
           (fun f => forall argument w, dead w -> still w (invoke f argument w))
           (fun c => forall w, dead w -> still w (perform c w))).
  - intros name body Hb argument w Hw. rewrite invoke_eq.
    apply still_trans with (emit (Invoke name argument) w);
      [apply still_emit; [reflexivity | exact Hw]|].
    assert (Hw0 : dead (emit (Invoke name argument) w)) by exact Hw.
    revert Hw0. generalize (emit (Invoke name argument) w).
    induction Hb as [|c cs Hc Hcs IH]; intros w0 Hw0; simpl.
    + apply still_refl, Hw0.
    + apply still_trans with (perform c w0); [apply Hc, Hw0|].
      apply IH. eapply still_dead, Hc, Hw0.
  - intros code a b c d _ _ _ _ w Hw. simpl. unfold execute.
    eapply still_trans; [apply (still_emit (LogExecute code)); [reflexivity|exact Hw]|].
    apply R. exact Hw.
  - intros code cursorPos a b c d Ha _ _ _ w Hw. simpl. unfold complete.
    eapply still_trans;
      [apply (still_emit (LogComplete (parseExpression code cursorPos)));
       [reflexivity|exact Hw]|].
    destruct (parseExpression code cursorPos); [apply R | apply O; [exact Ha|]];
      exact Hw.
  - intros code cursorPos a b c d Ha _ _ _ w Hw. simpl. unfold inspect.
    eapply still_trans;
      [apply (still_emit (LogInspect (parseExpression code cursorPos)));
       [reflexivity|exact Hw]|].
    destruct (parseExpression code cursorPos); [apply R | apply O; [exact Ha|]];
      exact Hw.
  - intros signal killCB _ w Hw. unfold perform, kill.
    repeat split; try apply Hw. simpl.
    rewrite sent_app. simpl. apply app_nil_r.
Qed.

(** Once a session is dead, whatever the caller calls and whatever the
    worker replies, no request is sent, and the task in flight and the
    queue stay as they were: the tasks of the queue are never
    dispatched. *)
Lemma dead_session_sends_nothing (doc : string -> option Documentation)
    (inputs : list Input) :
  forall w w' : World,
    dead w -> run doc inputs w = Some w' ->
    sent (trace w') = sent (trace w)
    /\ _task w' = _task w /\ _tasks w' = _tasks w.
Proof.
  induction inputs as [|i inputs IH]; intros w w' Hw; simpl.
  - intros [= <-]. repeat split.
  - destruct i as [c|message]; simpl.
    + destruct (proj2 invoke_perform_still c w Hw) as (D & S1 & S2 & S3 & _).
      intros H. destruct (IH _ _ D H) as (T1 & T2 & T3).
      repeat split; congruence.
    + destruct (channel w) as [|req rest]; [discriminate|].
      destruct (conforms message req); [|discriminate].
      destruct Hw as [Hk Hl]. simpl. rewrite Hl.
      intros H. apply (IH (set_channel rest w) w'); [split; assumption | exact H].
Qed.

(** A session killed by the caller, outside of any function it supplied,
    is dead. *)
Lemma kill_dead (signal : option string) (killCB : option Fn) (w : World) :
  dead (perform (CallKill signal killCB) w).
Proof. split; reflexivity. Qed.

(** C2, where the code departs from it. [kill] is called by [onSuccess] of
    the task in flight while another task waits in the queue: after
    [this._server.kill], [beforeRun] of the task of the queue is called
    and its request is sent. *)
Theorem kill_in_callback_dispatches (doc : string -> option Documentation) :
  option_map (fun w => (trace w, _killed w))
    (run doc
       [Do (CallExecute "1" (Some (fn "onSuccess1" [CallKill None None]))
              None None None);
        Do (CallExecute "2" (opaque "onSuccess2") None (opaque "beforeRun2") None);
        Reply (ExecutionResult [])] Session)
  = Some ([LogExecute "1"; LogTask killer; Send ("run", "1");
           LogExecute "2"; LogTask queued;
           LogMessage (ExecutionResult []);
           Invoke "onSuccess1" (Some (ExecutionResult []));
           Kill "SIGTERM";
           Invoke "beforeRun2" None; Send ("run", "2")],
          true).
Proof. reflexivity. Qed.

(** [kill] called by [beforeRun]: the request of the task is sent after
    [this._server.kill]. *)
Lemma kill_in_beforeRun_sends (doc : string -> option Documentation) :
  option_map trace
    (run doc
       [Do (CallExecute "1" None None (Some (fn "beforeRun1" [CallKill None None]))
              None)] Session)
  = Some [LogExecute "1";
          LogTask (executeTask "1" None None
                     (Some (fn "beforeRun1" [CallKill None None])) None);
          Invoke "beforeRun1" None; Kill "SIGTERM"; Send ("run", "1")].
Proof. reflexivity. Qed.

(* ================================================================== *)
(** * Examples *)

Lemma parseExpression_boundary_witness :
  parseExpression "foo " 4 = Some emptyExpression.
Proof.
  apply parseExpression_boundary. right. exists "foo", " "%char.
  split; reflexivity.
Defined.

Lemma parseExpression_matchedText_witness :
  parseExpression "x = obj.foo" 11 = Some objFoo
  /\ matchedText objFoo = scope objFoo +++ leftOp objFoo +++ selector objFoo
  /\ slice "x = obj.foo" (11 - Z.of_nat (String.length (matchedText objFoo))) 11
     = matchedText objFoo
  /\ leftOp objFoo <> "".
Proof.
  assert (H : parseExpression "x = obj.foo" 11 = Some objFoo) by reflexivity.
  destruct (parseExpression_matchedText "x = obj.foo" 11 objFoo H)
    as (H1 & _ & H3 & H4).
  split; [exact H|]. split; [exact H1|]. split.
  - apply H3. simpl. lia.
  - apply H4. discriminate.
Defined.

(** C3, as stated, fails: the names are delivered with the scope and the
    operator in front. *)
Lemma complete_filter_counterexample :
  parseExpression "obj.foo" 7 = Some objFoo
  /\ scope objFoo <> "" /\ selector objFoo = "foo"
  /\ option_map trace
       (run noDoc
          [Do (CallComplete "obj.foo" 7 (opaque "onCompletionSuccess")
                 None None None);
           Reply (NameListResult fooNames)] Session)
     = Some [LogComplete (Some objFoo);
             LogTask (completeTask "obj.foo" 7 objFoo
                        (opaque "onCompletionSuccess") None None None);
             Send ("getAllPropertyNames", "obj");
             LogMessage (NameListResult fooNames);
             Invoke "onCompletionSuccess"
               (Some (CompletionResult
                        {| c_list := ["obj.foo"; "obj.foobar"];
                           c_code := "obj.foo"; c_cursorPos := 7;
                           c_matchedText := "obj.foo";
                           c_cursorStart := 0; c_cursorEnd := 7 |}))]
  /\ c_list (completion "obj.foo" 7 objFoo fooNames) <> ["foo"; "foobar"].
Proof.
  split; [reflexivity|]. split; [discriminate|]. split; [reflexivity|].
  split; [reflexivity | discriminate].
Qed.

Lemma complete_filter_wrapped_witness :
  c_list (completion "obj.foo" 7 objFoo fooNames)
  = [scope objFoo +++ leftOp objFoo +++ "foo" +++ rightOp objFoo;
     scope objFoo +++ leftOp objFoo +++ "foobar" +++ rightOp objFoo].
Proof.
  apply (complete_filter_wrapped noDoc "obj.foo" 7 objFoo (fn "f" []) Session).
  - reflexivity.
  - discriminate.
  - reflexivity.
Defined.

Lemma complete_global_keywords_witness :
  c_list (completion "x = " 4 emptyExpression ["parseInt"])
  = ["parseInt";
     "break"; "case"; "catch"; "continue"; "debugger"; "default"; "delete";
     "do"; "else"; "finally"; "for"; "function"; "if"; "in"; "instanceof";
     "new"; "return"; "switch"; "this"; "throw"; "try"; "typeof"; "var";
     "void"; "while"; "with";
     "class"; "const"; "enum"; "export"; "extends"; "import"; "super";
     "implements"; "interface"; "let"; "package"; "private"; "protected";
     "public"; "static"; "yield";
     "null"; "true"; "false"]
  /\ c_list (completion "x = par" 7 par ["parseInt"; "isNaN"])
     = filter (fun x => startsWith x "par")
         (["parseInt"; "isNaN"] ++ reservedWords)
  /\ c_list (completion "x = par" 7 par ["parseInt"; "isNaN"])
     = ["parseInt"].
Proof.
  assert (H0 : parseExpression "x = " 4 = Some emptyExpression) by reflexivity.
  assert (H : parseExpression "x = par" 7 = Some par) by reflexivity.
  destruct (complete_global_keywords "x = " 4 emptyExpression ["parseInt"]
              H0 eq_refl) as (_ & T0 & _).
  destruct (complete_global_keywords "x = par" 7 par ["parseInt"; "isNaN"] H eq_refl)
    as (T & _).
  split; [exact (T0 eq_refl) | split; [exact T | reflexivity]].
Defined.

Lemma complete_range_witness :
  exists (k : nat) (shortestMatch : string),
    c_cursorStart (completion "x = par" 7 par ["parseInt"; "isNaN"]) = Z.of_nat k
    /\ index_of "x = par" (matchedText par) k
    /\ first_shortest (c_list (completion "x = par" 7 par ["parseInt"; "isNaN"]))
         shortestMatch
    /\ c_cursorEnd (completion "x = par" 7 par ["parseInt"; "isNaN"])
       = Z.of_nat (k + agree shortestMatch (drop k "x = par")).
Proof.
  assert (H : parseExpression "x = par" 7 = Some par) by reflexivity.
  destruct (complete_range "x = par" 7 par ["parseInt"; "isNaN"] H) as (_ & T & _).
  apply T. discriminate.
Defined.

Lemma inspect_scope_documentation_witness :
  option_map trace
    (run errorDoc
       [Do (CallInspect "e.toString" 10 (opaque "onInspectionSuccess")
              (opaque "onError") (opaque "beforeRun") (opaque "afterRun"));
        Reply (InspectionResult functionInspection None);
        Reply (InspectionResult rangeErrorInspection None)] Session)
  = Some [LogInspect (Some eToString);
          LogTask (inspectTask "e.toString" 10 eToString
                     (opaque "onInspectionSuccess") (opaque "onError")
                     (opaque "beforeRun") (opaque "afterRun"));
          Invoke "beforeRun" None;
          Send ("inspect", "e.toString");
          LogMessage (InspectionResult functionInspection None);
          LogTask (scopeTask (stamp "e.toString" 10 eToString functionInspection)
                     None eToString
                     (opaque "onInspectionSuccess") (opaque "onError")
                     (opaque "beforeRun") (opaque "afterRun"));
          Invoke "beforeRun" None;
          Send ("inspect", "e");
          LogMessage (InspectionResult rangeErrorInspection None);
          Invoke "onInspectionSuccess"
            (Some (InspectionResult
                     (stamp "e.toString" 10 eToString functionInspection)
                     (Some someDoc)));
          Invoke "afterRun" None].
Proof.
  assert (H : scope eToString <> "") by discriminate.
  destruct (inspect_scope_documentation errorDoc "e.toString" 10 eToString
              (opaque "onInspectionSuccess") (opaque "onError")
              (opaque "beforeRun") (opaque "afterRun")
              functionInspection rangeErrorInspection None None eq_refl H)
    as (_ & _ & _ & _ & T).
  apply (T "onInspectionSuccess" "onError" "beforeRun" "afterRun" (Some someDoc));
    reflexivity.
Defined.

Lemma inspect_error_without_afterRun_witness :
  option_map observe
    (run noDoc
       [Do (CallInspect "e.toString" 10 (opaque "onInspectionSuccess")
              (opaque "onError") (opaque "beforeRun") (opaque "afterRun"));
        Reply (ErrorResult someError)] Session)
  = Some ([LogInspect (Some eToString);
           LogTask (inspectTask "e.toString" 10 eToString
                      (opaque "onInspectionSuccess") (opaque "onError")
                      (opaque "beforeRun") (opaque "afterRun"));
           Invoke "beforeRun" None;
           Send ("inspect", "e.toString");
           LogMessage (ErrorResult someError);
           Invoke "onError" (Some (ErrorResult someError))],
          None, []).
Proof.
  destruct (inspect_error_without_afterRun noDoc "e.toString" 10 eToString
              (opaque "onInspectionSuccess") (opaque "onError")
              (opaque "beforeRun") (opaque "afterRun")
              functionInspection None someError eq_refl)
    as (_ & _ & _ & T & _).
  apply (T "onInspectionSuccess" "onError" "beforeRun" "afterRun"); reflexivity.
Defined.


(* ================================================================== *)
(** * Strings and patterns: more lemmas *)

Lemma last_unit (s : string) :
  s <> "" -> exists (pre : string) (c : ascii), s = pre +++ String c "".
Proof.
  induction s as [|a s IH]; [contradiction|]. intros _.
  destruct s as [|b s].
  - exists "", a. reflexivity.
  - destruct IH as (pre & c & ->); [discriminate|].
    exists (String a pre), c. reflexivity.
Qed.

Lemma append_last_inj (a b : string) (c d : ascii) :
  a +++ String c "" = b +++ String d "" -> a = b /\ c = d.
Proof.
  revert b; induction a as [|x a IH]; intros [|y b]; simpl; intros H.
  - injection H as ->. auto.
  - injection H as -> H. destruct b; discriminate.
  - injection H as -> H. destruct a; discriminate.
  - injection H as -> H. apply IH in H as [-> ->]. auto.
Qed.

Lemma drop_append_le (j : nat) (a b : string) :
  j <= String.length a -> drop j (a +++ b) = drop j a +++ b.
Proof.
  revert a; induction j as [|j IH]; intros a H.
  - now rewrite !drop_0.
  - destruct a as [|x a]; [simpl in H; lia|]. simpl. apply IH. simpl in H. lia.
Qed.

Lemma get_append_at (pre : string) (c : ascii) (rest : string) :
  String.get (String.length pre) (pre +++ String c rest) = Some c.
Proof. induction pre as [|x pre IH]; [reflexivity | exact IH]. Qed.

Lemma at_append_last2 (pre : string) (a b : ascii) :
  at_ (pre +++ String a (String b ""))
    (Z.of_nat (String.length (pre +++ String a (String b ""))) - 2) = Some a.
Proof.
  unfold at_. rewrite length_append. simpl.
  replace (Z.of_nat (String.length pre + 2) - 2)%Z
    with (Z.of_nat (String.length pre)) by lia.
  assert (E : (Z.of_nat (String.length pre) <? 0)%Z = false)
    by (apply Z.ltb_ge; lia).
  rewrite E, Nat2Z.id. apply get_append_at.
Qed.

Lemma at_append_last1 (pre : string) (a b : ascii) :
  at_ (pre +++ String a (String b ""))
    (Z.of_nat (String.length (pre +++ String a (String b ""))) - 1) = Some b.
Proof.
  change (pre +++ String a (String b "")) with (pre +++ String a "" +++ String b "").
  rewrite <- append_assoc. apply at_append_last.
Qed.

Lemma slice_strip (pre op : string) (k : Z) :
  k = Z.of_nat (String.length op) ->
  slice (pre +++ op) 0 (Z.of_nat (String.length (pre +++ op)) - k) = pre.
Proof.
  intros ->. rewrite length_append.
  replace (Z.of_nat (String.length pre + String.length op)
           - Z.of_nat (String.length op))%Z
    with (Z.of_nat (String.length pre)) by lia.
  rewrite slice_take by (rewrite length_append; lia). apply take_append.
Qed.

Lemma slice_all (s : string) : slice s 0 (Z.of_nat (String.length s)) = s.
Proof. rewrite slice_take by lia. apply take_all. lia. Qed.

(** [exec] answers with the first position at which the pattern
    matches. *)
Lemma exec_from_first (r : Re) (total : nat) :
  forall (s : string) (i : nat) (re : Match),
    exec_from r total i s = Some re ->
    exists j : nat,
      index re = i + j /\ j <= String.length s
      /\ m total r (drop j s) (fun rest => Some rest) <> None
      /\ forall j' : nat,
           j' < j -> m total r (drop j' s) (fun rest => Some rest) = None.
Proof.
  induction s as [|c s IH]; intros i re H; simpl in H.
  - destruct (m total r "" (fun rest => Some rest)) as [rest|] eqn:E;
      [|discriminate].
    injection H as <-. exists 0. simpl.
    repeat split; [lia | lia | congruence | intros j' Hj; lia].
  - destruct (m total r (String c s) (fun rest => Some rest)) as [rest|] eqn:E.
    + injection H as <-. exists 0. simpl.
      repeat split; [lia | lia | congruence | intros j' Hj; lia].
    + apply IH in H as (j & H1 & H2 & H3 & H4).
      exists (S j). simpl. repeat split; [lia | lia | exact H3 |].
      intros [|j'] Hj; [exact E | apply H4; lia].
Qed.

Lemma exec_from_None (r : Re) (total : nat) :
  forall (s : string) (i : nat),
    exec_from r total i s = None ->
    forall j : nat, m total r (drop j s) (fun rest => Some rest) = None.
Proof.
  induction s as [|c s IH]; intros i H j; simpl in H.
  - destruct (m total r "" (fun rest => Some rest)) eqn:E; [discriminate|].
    destruct j; exact E.
  - destruct (m total r (String c s) (fun rest => Some rest)) eqn:E;
      [discriminate|].
    destruct j as [|j]; [exact E | simpl; eapply IH, H].
Qed.

Lemma exec_from_at (r : Re) (total : nat) :
  forall (s : string) (i j : nat) (rest : string),
    (forall j' : nat,
       j' < j -> m total r (drop j' s) (fun rest => Some rest) = None) ->
    m total r (drop j s) (fun rest => Some rest) = Some rest ->
    j <= String.length s ->
    exec_from r total i s
    = Some {| index := i + j;
              match0 := take (String.length (drop j s) - String.length rest)
                          (drop j s) |}.
Proof.
  induction s as [|c s IH]; intros i j rest Hn Hm Hj.
  - simpl in Hj. assert (j = 0) by lia. subst j. simpl in *.
    rewrite Hm, Nat.add_0_r. reflexivity.
  - destruct j as [|j].
    + rewrite drop_0 in *. cbn [exec_from]. rewrite Hm, Nat.add_0_r. reflexivity.
    + cbn [exec_from]. pose proof (Hn 0 ltac:(lia)) as H0.
      rewrite drop_0 in H0. rewrite H0.
      replace (i + S j) with (S i + j) by lia.
      apply IH; [|exact Hm|simpl in Hj; lia].
      intros j' Hj'. apply (Hn (S j')). lia.
Qed.

Lemma exec_from_fail (r : Re) (total : nat) :
  forall (s : string) (i : nat),
    (forall j : nat, m total r (drop j s) (fun rest => Some rest) = None) ->
    exec_from r total i s = None.
Proof.
  induction s as [|c s IH]; intros i H; cbn [exec_from];
    pose proof (H 0) as H0; rewrite drop_0 in H0; rewrite H0.
  - reflexivity.
  - apply IH. intros j. apply (H (S j)).
Qed.

(** What the matcher consumes is matched by the pattern. *)
Lemma m_matches {A : Type} (total : nat) (r : Re) :
  forall (s : string) (k : string -> option A) (x : A),
    m total r s k = Some x ->
    exists u rest : string, s = u +++ rest /\ matches r u /\ k rest = Some x.
Proof.
  induction r as [p| | | |r1 IH1 r2 IH2|r1 IH1 r2 IH2|r IH];
    intros s k x H; simpl in H.
  - destruct s as [|c s]; [discriminate|].
    destruct (p c) eqn:E; [|discriminate].
    exists (String c ""), s. repeat split; [constructor; exact E | exact H].
  - destruct (String.length s =? total); [|discriminate].
    exists "", s. repeat split; [constructor | exact H].
  - destruct s; [|discriminate].
    exists "", "". repeat split; [constructor | exact H].
  - exists "", s. repeat split; [constructor | exact H].
  - apply IH1 in H as (u1 & rest1 & -> & M1 & H).
    apply IH2 in H as (u2 & rest & -> & M2 & H).
    exists (u1 +++ u2), rest. rewrite append_assoc.
    repeat split; [constructor; assumption | exact H].
  - destruct (m total r1 s k) as [y|] eqn:E.
    + injection H as ->. apply IH1 in E as (u & rest & -> & M & H).
      exists u, rest. repeat split; [apply matches_alt_l, M | exact H].
    + apply IH2 in H as (u & rest & -> & M & H).
      exists u, rest. repeat split; [apply matches_alt_r, M | exact H].
  - revert H. generalize (String.length s) as n. intros n; revert s.
    induction n as [|n IHn]; intros s H; simpl in H.
    + exists "", s. repeat split; [constructor | exact H].
    + match type of H with
      | match ?t with _ => _ end = _ => destruct t as [y|] eqn:E
      end.
      * injection H as ->. apply IH in E as (u1 & rest1 & -> & M1 & E).
        destruct (String.length rest1 <? _); [|discriminate].
        apply IHn in E as (u2 & rest & -> & M2 & E).
        exists (u1 +++ u2), rest. rewrite append_assoc.
        repeat split; [constructor; assumption | exact E].
      * exists "", s. repeat split; [constructor | exact H].
Qed.

Lemma exec_matches (r : Re) (s : string) (re : Match) :
  exec r s = Some re -> matches r (match0 re).
Proof.
  intros H. apply exec_from_spec in H as (j & rest & _ & _ & H3 & H4).
  apply m_matches in H3 as (u & rest' & E & M & [= ->]).
  rewrite H4, E, length_append.
  replace (String.length u + String.length rest - String.length rest)
    with (String.length u) by lia.
  now rewrite take_append.
Qed.

Lemma matches_star_chr (p : ascii -> bool) (u : string) :
  matches (Star (Chr p)) u -> all p u = true.
Proof.
  remember (Star (Chr p)) as r eqn:Er. intros H.
  induction H as [| | | | | | | |r0 u1 u2 H1 _ H2 IH2]; try discriminate.
  - reflexivity.
  - injection Er as ->. rewrite all_append, (IH2 eq_refl).
    inversion H1; subst. simpl. now rewrite H0.
Qed.

Lemma matches_lit (lit u : string) : matches (Lit lit) u -> u = lit.
Proof.
  revert u; induction lit as [|c lit IH]; intros u H; simpl in H.
  - now inversion H.
  - inversion H as [| | | |r1 r2 u1 u2 H1 H2| | | |]; subst.
    inversion H1 as [p d Hd| | | | | | | |]; subst.
    apply Ascii.eqb_eq in Hd. subst d. simpl. f_equal. apply IH, H2.
Qed.

Lemma star_ext {A : Type}
    (step step' : string -> (string -> option A) -> option A)
    (k k' : string -> option A) :
  (forall (s : string) (K K' : string -> option A),
     (forall s', K s' = K' s') -> step s K = step' s K') ->
  (forall s, k s = k' s) ->
  forall (n : nat) (s : string), star step k n s = star step' k' n s.
Proof.
  intros Hs Hk. induction n as [|n IH]; intros s; simpl.
  - apply Hk.
  - rewrite (Hs s _ (fun s' => if String.length s' <? String.length s
                               then star step' k' n s' else None)).
    + now rewrite Hk.
    + intros s'. destruct (String.length s' <? String.length s); [apply IH | reflexivity].
Qed.

(** Without [^], a match does not depend on what comes before. *)
Lemma m_total {A : Type} (r : Re) :
  anchored r = false ->
  forall (total total' : nat) (s : string) (k k' : string -> option A),
    (forall s', k s' = k' s') -> m total r s k = m total' r s k'.
Proof.
  induction r as [p| | | |r1 IH1 r2 IH2|r1 IH1 r2 IH2|r IH];
    simpl; intros Ha total total' s k k' Hk.
  - destruct s as [|c s]; [reflexivity|]. destruct (p c); [apply Hk | reflexivity].
  - discriminate.
  - destruct s; [apply Hk | reflexivity].
  - apply Hk.
  - apply orb_false_iff in Ha as [H1 H2].
    apply IH1; [exact H1|]. intros s'. apply IH2; assumption.
  - apply orb_false_iff in Ha as [H1 H2].
    rewrite (IH1 H1 total total' s k k' Hk), (IH2 H2 total total' s k k' Hk).
    reflexivity.
  - apply star_ext; [|exact Hk]. intros s0 K K' HK. apply IH; assumption.
Qed.

Lemma endsWith_append (q : ascii -> bool) (a b : string) :
  endsWith q b -> endsWith q (a +++ b).
Proof.
  intros (pre & c & -> & H). exists (a +++ pre), c.
  split; [symmetry; apply append_assoc | exact H].
Qed.

Lemma endsWith_all (q : ascii -> bool) (s : string) :
  s <> "" -> all q s = true -> endsWith q s.
Proof.
  intros Hn Ha. destruct (last_unit s Hn) as (pre & c & ->).
  exists pre, c. split; [reflexivity|].
  rewrite all_append in Ha. apply andb_true_iff in Ha as [_ Ha].
  simpl in Ha. now rewrite andb_true_r in Ha.
Qed.

Lemma endsWith_weaken (q q' : ascii -> bool) (s : string) :
  (forall c, q c = true -> q' c = true) -> endsWith q s -> endsWith q' s.
Proof. intros Hq (pre & c & -> & H). exists pre, c. auto. Qed.

Lemma take_append_le (j : nat) (a b : string) :
  j <= String.length a -> take j (a +++ b) = take j a.
Proof.
  revert a; induction j as [|j IH]; intros a H.
  - now rewrite !take_0.
  - destruct a as [|x a]; [simpl in H; lia|]. simpl. f_equal. apply IH.
    simpl in H. lia.
Qed.

Lemma drop_nonempty (j : nat) (s : string) :
  j < String.length s -> drop j s <> "".
Proof.
  intros H E. apply (f_equal String.length) in E.
  rewrite length_drop in E. simpl in E. lia.
Qed.

(* ================================================================== *)
(** * Identifiers *)

Lemma greedy_eol {A : Type} (total : nat) (p : ascii -> bool)
    (k : string -> option A) (s : string) :
  greedy p (fun s' => m total Eol s' k) s = if all p s then k "" else None.
Proof.
  induction s as [|c s IH]; [reflexivity|].
  cbn [greedy all]. destruct (p c); [|reflexivity].
  rewrite IH. cbn [andb]. destruct (all p s); [|reflexivity].
  destruct (k ""); reflexivity.
Qed.

(** [simpleIdentifierRE] matches the identifiers that end the input. *)
Lemma m_simpleIdentifier (total : nat) (s : string) :
  m total simpleIdentifierRE s (fun rest => Some rest)
  = if identifier s then Some "" else None.
Proof.
  unfold simpleIdentifierRE. destruct s as [|c s]; [reflexivity|].
  change (m total (Seq (Chr identStart) (Seq (Star (Chr identPart)) Eol))
            (String c s) (fun rest => Some rest))
    with (if identStart c
          then star (m total (Chr identPart))
                 (fun s' => m total Eol s' (fun rest => Some rest))
                 (String.length s) s
          else None).
  cbn [identifier]. destruct (identStart c); [|reflexivity].
  cbn [andb]. rewrite star_chr by lia. apply greedy_eol.
Qed.

Lemma space_identPart (c : ascii) : identPart c = true -> space c = false.
Proof.
  destruct c as [[] [] [] [] [] [] [] []]; vm_compute; congruence.
Qed.

Lemma identStart_identPart (c : ascii) : identStart c = true -> identPart c = true.
Proof. unfold identStart, identPart. intros ->. reflexivity. Qed.

Lemma identPart_identEnd (c : ascii) : identPart c = true -> identEnd c = true.
Proof. unfold identEnd. intros ->. reflexivity. Qed.

Lemma identifier_all (s : string) :
  identifier s = true -> s <> "" /\ all identPart s = true.
Proof.
  destruct s as [|c s]; [discriminate|]. simpl.
  rewrite andb_true_iff. intros [Hc Hs]. split; [discriminate|].
  now rewrite (identStart_identPart c Hc).
Qed.

Lemma identifier_append_bad (a b : string) (d : ascii) :
  identPart d = false -> identifier (a +++ String d b) = false.
Proof.
  intros Hd. destruct (identifier (a +++ String d b)) eqn:E; [|reflexivity].
  apply identifier_all in E as [_ E]. rewrite all_append in E.
  apply andb_true_iff in E as [_ E]. simpl in E. now rewrite Hd in E.
Qed.

(** Before a unit that no identifier holds, no identifier that reaches
    the end starts. *)
Lemma not_identifier_before (u0 : string) (d : ascii) (sel : string) (j : nat) :
  identPart d = false -> j < String.length (u0 +++ String d "") ->
  identifier (drop j ((u0 +++ String d "") +++ sel)) = false.
Proof.
  intros Hd Hj. rewrite length_append in Hj. simpl in Hj.
  rewrite append_assoc. rewrite drop_append_le by lia.
  apply identifier_append_bad, Hd.
Qed.

Lemma exec_simpleIdentifier_suffix (u sel : string) :
  (u = "" \/ exists (u0 : string) (d : ascii),
               u = u0 +++ String d "" /\ identPart d = false) ->
  identifier sel = true ->
  exec simpleIdentifierRE (u +++ sel)
  = Some {| index := String.length u; match0 := sel |}.
Proof.
  intros Hu Hs. unfold exec.
  rewrite (exec_from_at simpleIdentifierRE _ (u +++ sel) 0 (String.length u) "").
  - rewrite drop_append. simpl. rewrite Nat.sub_0_r, take_all by lia. reflexivity.
  - intros j Hj. rewrite m_simpleIdentifier.
    destruct Hu as [->|(u0 & d & -> & Hd)]; [simpl in Hj; lia|].
    now rewrite not_identifier_before.
  - rewrite m_simpleIdentifier, drop_append, Hs. reflexivity.
  - rewrite length_append. lia.
Qed.

Lemma exec_simpleIdentifier_none (u0 : string) (d : ascii) :
  identPart d = false -> exec simpleIdentifierRE (u0 +++ String d "") = None.
Proof.
  intros Hd. apply exec_from_fail. intros j. rewrite m_simpleIdentifier.
  destruct (Nat.lt_ge_cases j (String.length (u0 +++ String d ""))) as [L|L].
  - pose proof (not_identifier_before u0 d "" j Hd L) as N.
    rewrite append_nil_r in N. now rewrite N.
  - now rewrite drop_all.
Qed.

Lemma exec_simpleIdentifier_selector (P : string) (re : Match) :
  exec simpleIdentifierRE P = Some re ->
  P = slice P 0 (Z.of_nat (index re)) +++ match0 re
  /\ identifier (match0 re) = true.
Proof.
  intros Ere. split.
  - apply (exec_eol_split simpleIdentifierRE P re eq_refl Ere).
  - destruct (exec_eol simpleIdentifierRE P re eq_refl Ere) as [_ Hm].
    apply exec_from_first in Ere as (j & H1 & _ & H3 & _).
    simpl in H1. subst j. rewrite m_simpleIdentifier in H3.
    rewrite Hm. destruct (identifier (drop (index re) P)); congruence.
Qed.

Lemma identifier_snoc (x : string) (c : ascii) :
  x <> "" -> identPart c = true ->
  identifier (x +++ String c "") = identifier x.
Proof.
  intros Hx Hc. destruct x as [|a x]; [contradiction|]. simpl.
  rewrite all_append. simpl. now rewrite Hc, !andb_true_r.
Qed.

(** One more unit of an identifier after an identifier that ends the
    input: the match starts where it did. *)
Lemma exec_simpleIdentifier_snoc (P : string) (re : Match) (c : ascii) :
  exec simpleIdentifierRE P = Some re -> identPart c = true ->
  exec simpleIdentifierRE (P +++ String c "")
  = Some {| index := index re; match0 := match0 re +++ String c "" |}.
Proof.
  intros Ere Hc.
  destruct (exec_eol simpleIdentifierRE P re eq_refl Ere) as [Hi Hm].
  apply exec_from_first in Ere as (j & H1 & _ & H3 & H4).
  simpl in H1. subst j. rewrite m_simpleIdentifier in H3.
  assert (Hid : identifier (drop (index re) P) = true)
    by (destruct (identifier (drop (index re) P)); congruence).
  assert (Hne : drop (index re) P <> "") by (apply identifier_all in Hid; apply Hid).
  unfold exec.
  rewrite (exec_from_at simpleIdentifierRE _ (P +++ String c "") 0 (index re) "").
  - rewrite drop_append_le by exact Hi. simpl.
    rewrite Nat.sub_0_r, take_all by lia. now rewrite Hm.
  - intros j Hj. rewrite m_simpleIdentifier, drop_append_le by lia.
    rewrite identifier_snoc; [|apply drop_nonempty; lia|exact Hc].
    specialize (H4 j Hj). rewrite m_simpleIdentifier in H4.
    destruct (identifier (drop j P)); [discriminate | reflexivity].
  - rewrite m_simpleIdentifier, drop_append_le by exact Hi.
    now rewrite identifier_snoc, Hid.
  - rewrite length_append. lia.
Qed.

(** The first unit of an identifier where none ends the input: the
    match is that unit. *)
Lemma exec_simpleIdentifier_start (P : string) (c : ascii) :
  exec simpleIdentifierRE P = None -> identStart c = true ->
  exec simpleIdentifierRE (P +++ String c "")
  = Some {| index := String.length P; match0 := String c "" |}.
Proof.
  intros Ere Hc. unfold exec.
  rewrite (exec_from_at simpleIdentifierRE _ (P +++ String c "") 0
             (String.length P) "").
  - now rewrite drop_append.
  - intros j Hj. rewrite m_simpleIdentifier, drop_append_le by lia.
    rewrite identifier_snoc;
      [|apply drop_nonempty; lia|apply identStart_identPart, Hc].
    pose proof (exec_from_None _ _ _ _ Ere j) as N.
    rewrite m_simpleIdentifier in N.
    destruct (identifier (drop j P)); [discriminate | reflexivity].
  - rewrite m_simpleIdentifier, drop_append. simpl. now rewrite Hc.
  - rewrite length_append. lia.
Qed.

(** An identifier ends with a unit of an identifier. *)
Lemma matches_identifier (u : string) :
  matches (Seq (Chr identStart) (Star (Chr identPart))) u ->
  (exists (c : ascii) (u' : string), u = String c u' /\ identStart c = true)
  /\ endsWith identEnd u.
Proof.
  intros H. inversion H as [| | | |r1 r2 u1 u2 H1 H2| | | |]; subst.
  inversion H1 as [p c Hc| | | | | | | |]; subst.
  apply matches_star_chr in H2. split; [exists c, u2; auto|].
  apply endsWith_weaken with (q := identPart); [apply identPart_identEnd|].
  apply endsWith_all; [discriminate|]. simpl.
  now rewrite (identStart_identPart c Hc), H2.
Qed.

(** So does each of the parts that a complex identifier repeats, or
    with a closing bracket. *)
Lemma matches_part (u : string) :
  matches
    (Alt (Seq (Chr identStart) (Star (Chr identPart)))
       (Alt (Seq (Lit ".") (Seq (Chr identStart) (Star (Chr identPart))))
          (Alt (Seq (Lit (String "[" (String Js.dquote "")))
                  (Seq (Star (Chr dot)) (Lit (String Js.dquote "]"))))
             (Seq (Lit (String "[" (String Js.squote "")))
                (Seq (Star (Chr dot)) (Lit (String Js.squote "]")))))))
    u ->
  endsWith identEnd u.
Proof.
  intros H.
  inversion H as [| | | | |r1 r2 u0 H1|r1 r2 u0 H1| |]; subst; clear H.
  { apply matches_identifier, H1. }
  inversion H1 as [| | | | |r1 r2 u0 H2|r1 r2 u0 H2| |]; subst; clear H1.
  { inversion H2 as [| | | |r1 r2 u1 u2 _ H3| | | |]; subst.
    apply endsWith_append, matches_identifier, H3. }
  inversion H2 as [| | | | |r1 r2 u0 H3|r1 r2 u0 H3| |]; subst; clear H2;
    inversion H3 as [| | | |r1 r2 u1 u2 _ H4| | | |]; subst;
    inversion H4 as [| | | |r1 r2 u3 u4 _ H5| | | |]; subst;
    first [apply (matches_lit (String dquote "]")) in H5
          | apply (matches_lit (String squote "]")) in H5];
    subst; do 2 apply endsWith_append.
  - exists (String dquote ""), "]"%char. split; reflexivity.
  - exists (String squote ""), "]"%char. split; reflexivity.
Qed.

Lemma matches_parts (r : Re) (q : ascii -> bool) (u : string) :
  (forall w : string, matches r w -> endsWith q w) ->
  matches (Star r) u -> u = "" \/ endsWith q u.
Proof.
  intros Hr. remember (Star r) as r' eqn:Er. intros H.
  induction H as [| | | | | | | |r0 u1 u2 H1 _ H2 IH2]; try discriminate.
  - left. reflexivity.
  - injection Er as ->. right. destruct (IH2 eq_refl) as [->|E].
    + rewrite append_nil_r. apply Hr, H1.
    + apply endsWith_append, E.
Qed.

(** A complex identifier starts with the first unit of an identifier and
    ends with a unit of an identifier or with a closing bracket. *)
Lemma matches_complexIdentifier (u : string) :
  matches complexIdentifierRE u ->
  (exists (c : ascii) (u' : string), u = String c u' /\ identStart c = true)
  /\ endsWith identEnd u.
Proof.
  unfold complexIdentifierRE. intros H.
  inversion H as [| | | |r1 r2 u1 u2 H1 H2| | | |]; subst; clear H.
  inversion H1 as [p c Hc| | | | | | | |]; subst; clear H1.
  inversion H2 as [| | | |r1 r2 u1 u3 H3 H4| | | |]; subst; clear H2.
  inversion H4 as [| | | |r1 r2 u4 u5 H5 H6| | | |]; subst; clear H4.
  inversion H6; subst; clear H6. rewrite append_nil_r.
  apply matches_star_chr in H3.
  split; [exists c, (u1 +++ u4); auto|].
  destruct (matches_parts _ identEnd u4 matches_part H5) as [->|E].
  - rewrite append_nil_r.
    apply endsWith_weaken with (q := identPart); [apply identPart_identEnd|].
    apply endsWith_all; [discriminate|]. simpl.
    now rewrite (identStart_identPart c Hc), H3.
  - change (String c "" +++ u1 +++ u4) with (String c u1 +++ u4).
    apply endsWith_append, E.
Qed.

Lemma exec_complexIdentifier_end (pre : string) :
  (pre = "" \/ exists (p0 : string) (d : ascii),
                 pre = p0 +++ String d "" /\ identEnd d = false) ->
  exec complexIdentifierRE pre = None.
Proof.
  intros Hp. destruct (exec complexIdentifierRE pre) as [re|] eqn:E; [exfalso|reflexivity].
  destruct (exec_eol complexIdentifierRE pre re eq_refl E) as [Hi Hm].
  apply exec_matches, matches_complexIdentifier in E as [_ (x & c & Ex & Hc)].
  rewrite Hm in Ex.
  assert (Ep : pre = (take (index re) pre +++ x) +++ String c "").
  { rewrite append_assoc, <- Ex. symmetry. apply take_drop. }
  destruct Hp as [->|(p0 & d & -> & Hd)].
  - destruct (take (index re) "" +++ x); discriminate.
  - apply append_last_inj in Ep as [_ ->]. congruence.
Qed.

(** A complex identifier is one when it stands alone. *)
Lemma exec_complexIdentifier_again (s : string) (re : Match) :
  exec complexIdentifierRE s = Some re ->
  exec complexIdentifierRE (match0 re) = Some {| index := 0; match0 := match0 re |}.
Proof.
  intros H. destruct (exec_eol complexIdentifierRE s re eq_refl H) as [_ Hm].
  apply exec_from_spec in H as (j & rest & H1 & _ & H3 & _).
  simpl in H1. subst j. rewrite <- Hm in H3.
  pose proof (m_eol _ _ (eq_refl : ends_eol complexIdentifierRE = true) _ _ _ H3)
    as Hr.
  injection Hr as <-.
  rewrite (m_total complexIdentifierRE eq_refl _ (String.length (match0 re))
             _ _ (fun rest => Some rest)) in H3 by reflexivity.
  unfold exec.
  rewrite (exec_from_at complexIdentifierRE _ (match0 re) 0 0 "").
  - rewrite drop_0. simpl. rewrite Nat.sub_0_r, take_all by lia. reflexivity.
  - intros j Hj. lia.
  - rewrite drop_0. exact H3.
  - lia.
Qed.

(* ================================================================== *)
(** * The expression parser: more theorems *)

Lemma parseExpression_afterSelector (code : string) (cursorPos : Z) :
  parseExpression code cursorPos
  = let prefix := slice code 0 cursorPos in
    if negb (truthy prefix)
       || test whitespaceRE
            (toString (at_ prefix (Z.of_nat (String.length prefix) - 1)))
    then Some emptyExpression
    else
      match exec simpleIdentifierRE prefix with
      | Some re =>
          afterSelector prefix (slice prefix 0 (Z.of_nat (index re))) (match0 re)
      | None => afterSelector prefix prefix ""
      end.
Proof.
  unfold parseExpression, afterSelector. cbv zeta.
  assert (HS : forall j, slice code (Z.of_nat j) cursorPos
                         = drop j (slice code 0 cursorPos))
    by (intro; apply slice_from).
  revert HS. generalize (slice code 0 cursorPos) as P. intros P HS.
  destruct (negb (truthy P) || _); [reflexivity|].
  destruct (exec simpleIdentifierRE P) as [re|].
  - destruct (stripOp _) as [[[lop rop] e0]|]; [|now rewrite HS].
    destruct (exec complexIdentifierRE e0); rewrite HS; reflexivity.
  - destruct (stripOp _) as [[[lop rop] e0]|]; [|now rewrite HS].
    destruct (exec complexIdentifierRE e0); rewrite HS; reflexivity.
Qed.

(** The first test of [parseExpression]. *)
Lemma boundary_test (prefix : string) :
  (negb (truthy prefix)
   || test whitespaceRE
        (toString (at_ prefix (Z.of_nat (String.length prefix) - 1))) = true
   -> prefix = ""
      \/ exists (pre : string) (c : ascii),
           prefix = pre +++ String c "" /\ space c = true)
  /\ (negb (truthy prefix)
      || test whitespaceRE
           (toString (at_ prefix (Z.of_nat (String.length prefix) - 1))) = false
      -> exists (pre : string) (c : ascii),
           prefix = pre +++ String c "" /\ space c = false).
Proof.
  destruct prefix as [|a s]; [split; [auto | discriminate]|].
  destruct (last_unit (String a s)) as (pre & c & E); [discriminate|].
  rewrite E, at_append_last. cbn [toString]. rewrite test_whitespaceRE.
  assert (T : truthy (pre +++ String c "") = true) by (destruct pre; reflexivity).
  rewrite T. cbn [negb orb]. split; intros H; [right|]; exists pre, c; auto.
Qed.

Lemma stripOp_operators (expression leftOp rightOp rest : string) :
  stripOp expression = Some (leftOp, rightOp, rest) ->
  (leftOp = "." /\ rightOp = "")
  \/ (leftOp = bracketDq /\ rightOp = dqBracket)
  \/ (leftOp = bracketSq /\ rightOp = sqBracket).
Proof.
  unfold stripOp.
  destruct (isChar _ "."); [intros [= <- <- <-]; auto|].
  destruct (isChar _ "[" && isChar _ dquote); [intros [= <- <- <-]; auto|].
  destruct (isChar _ "[" && isChar _ squote); [intros [= <- <- <-]; auto|].
  discriminate.
Qed.

Lemma stripOp_append (pre leftOp rightOp : string) :
  (leftOp = "." /\ rightOp = "")
  \/ (leftOp = bracketDq /\ rightOp = dqBracket)
  \/ (leftOp = bracketSq /\ rightOp = sqBracket) ->
  stripOp (pre +++ leftOp) = Some (leftOp, rightOp, pre).
Proof.
  intros [[-> ->]|[[-> ->]|[-> ->]]]; unfold stripOp; cbv zeta.
  - rewrite at_append_last. cbn [isChar]. rewrite Ascii.eqb_refl.
    now rewrite (slice_strip pre "." 1).
  - unfold bracketDq. rewrite at_append_last1, at_append_last2.
    cbn [isChar]. rewrite !Ascii.eqb_refl.
    replace (Ascii.eqb dquote ".") with false by reflexivity.
    cbn [andb]. now rewrite (slice_strip pre (String "[" (String dquote "")) 2).
  - unfold bracketSq. rewrite at_append_last1, at_append_last2.
    cbn [isChar]. rewrite !Ascii.eqb_refl.
    replace (Ascii.eqb squote ".") with false by reflexivity.
    replace (Ascii.eqb squote dquote) with false by reflexivity.
    cbn [andb]. now rewrite (slice_strip pre (String "[" (String squote "")) 2).
Qed.

(** The last unit of an operator is neither a unit of an identifier nor
    a white space. *)
Lemma operator_last (leftOp : string) :
  leftOp = "." \/ leftOp = bracketDq \/ leftOp = bracketSq ->
  exists (l0 : string) (d : ascii),
    leftOp = l0 +++ String d "" /\ identPart d = false /\ space d = false.
Proof.
  intros [->|[->| ->]].
  - exists "", "."%char. repeat split.
  - exists "[", dquote. repeat split.
  - exists "[", squote. repeat split.
Qed.

Lemma afterSelector_operators (prefix expression sel : string) (e : Expression) :
  afterSelector prefix expression sel = Some e ->
  (scope e = "" /\ leftOp e = "" /\ rightOp e = "")
  \/ (scope e <> ""
      /\ ((leftOp e = "." /\ rightOp e = "")
          \/ (leftOp e = bracketDq /\ rightOp e = dqBracket)
          \/ (leftOp e = bracketSq /\ rightOp e = sqBracket))).
Proof.
  unfold afterSelector.
  destruct (stripOp expression) as [[[lop rop] e0]|] eqn:Eop.
  - pose proof (stripOp_operators _ _ _ _ Eop) as Hop.
    apply stripOp_split in Eop as [_ Hlop].
    destruct (exec complexIdentifierRE e0) as [re|] eqn:Ere.
    + intros [= <-]. right. simpl. split; [|exact Hop].
      apply (exec_complexIdentifier_nonempty _ _ Ere).
    + destruct lop; [contradiction Hlop; reflexivity | discriminate].
  - intros [= <-]. left. auto.
Qed.

Lemma afterSelector_selector (prefix expression sel : string) (e : Expression) :
  afterSelector prefix expression sel = Some e -> selector e = sel.
Proof.
  unfold afterSelector.
  destruct (stripOp expression) as [[[lop rop] e0]|].
  - destruct (exec complexIdentifierRE e0).
    + intros [= <-]. reflexivity.
    + destruct (negb (truthy lop)); [intros [= <-]; reflexivity | discriminate].
  - intros [= <-]. reflexivity.
Qed.

Lemma afterSelector_scope (prefix expression sel : string) (e : Expression) :
  afterSelector prefix expression sel = Some e ->
  scope e = ""
  \/ exists (expression0 : string) (re : Match),
       exec complexIdentifierRE expression0 = Some re /\ scope e = match0 re.
Proof.
  unfold afterSelector.
  destruct (stripOp expression) as [[[lop rop] e0]|].
  - destruct (exec complexIdentifierRE e0) as [re|] eqn:Ere.
    + intros [= <-]. right. exists e0, re. auto.
    + destruct (negb (truthy lop)); [intros [= <-]; auto | discriminate].
  - intros [= <-]. auto.
Qed.

Lemma afterSelector_inv (P expression sel : string) :
  P = expression +++ sel ->
  (stripOp expression = None
   /\ afterSelector P expression sel
      = Some {| matchedText := sel; scope := ""; leftOp := ""; selector := sel;
                rightOp := "" |})
  \/ exists pre leftOp rightOp : string,
       P = pre +++ leftOp +++ sel /\ operators leftOp rightOp
       /\ afterSelector P expression sel = propertyOf P pre leftOp rightOp sel.
Proof.
  intros HP. unfold afterSelector, propertyOf.
  destruct (stripOp expression) as [[[lop rop] e0]|] eqn:Eop.
  - right. pose proof (stripOp_operators _ _ _ _ Eop) as Hop.
    apply stripOp_split in Eop as [Eop Hl].
    exists e0, lop, rop. rewrite HP, Eop, append_assoc.
    repeat split; [exact Hop|].
    destruct (exec complexIdentifierRE e0); [reflexivity|].
    destruct lop; [contradiction Hl; reflexivity | reflexivity].
  - left. split; [reflexivity|]. now rewrite HP, drop_append.
Qed.

(** The cases of [parseExpression], by the text before the cursor. *)
Lemma parseExpression_inv (code : string) (cursorPos : Z) :
  let P := slice code 0 cursorPos in
  ((P = "" \/ exists (pre : string) (c : ascii),
                P = pre +++ String c "" /\ space c = true)
   /\ parseExpression code cursorPos = Some emptyExpression)
  \/ (exists expression sel : string,
        P = expression +++ sel /\ (sel = "" \/ identifier sel = true)
        /\ stripOp expression = None
        /\ parseExpression code cursorPos
           = Some {| matchedText := sel; scope := ""; leftOp := "";
                     selector := sel; rightOp := "" |})
  \/ (exists pre leftOp rightOp sel : string,
        P = pre +++ leftOp +++ sel /\ operators leftOp rightOp
        /\ (sel = "" \/ identifier sel = true)
        /\ parseExpression code cursorPos = propertyOf P pre leftOp rightOp sel).
Proof.
  rewrite parseExpression_afterSelector. cbv zeta.
  generalize (slice code 0 cursorPos) as P. intros P.
  destruct (boundary_test P) as [B1 _].
  destruct (negb _ || _); [left; split; [apply B1|]; reflexivity|]. right.
  assert (T : forall expression sel : string,
             P = expression +++ sel -> (sel = "" \/ identifier sel = true) ->
             (exists expression0 sel0 : string,
                P = expression0 +++ sel0 /\ (sel0 = "" \/ identifier sel0 = true)
                /\ stripOp expression0 = None
                /\ afterSelector P expression sel
                   = Some {| matchedText := sel0; scope := ""; leftOp := "";
                             selector := sel0; rightOp := "" |})
             \/ (exists pre leftOp rightOp sel0 : string,
                   P = pre +++ leftOp +++ sel0 /\ operators leftOp rightOp
                   /\ (sel0 = "" \/ identifier sel0 = true)
                   /\ afterSelector P expression sel
                      = propertyOf P pre leftOp rightOp sel0)).
  { intros expression sel HP Hs.
    destruct (afterSelector_inv P expression sel HP)
      as [[H1 H2]|(pre & lop & rop & H1 & H2 & H3)].
    - left. exists expression, sel. auto.
    - right. exists pre, lop, rop, sel. auto. }
  destruct (exec simpleIdentifierRE P) as [re|] eqn:Ere.
  - destruct (exec_simpleIdentifier_selector P re Ere) as [H1 H2].
    apply T; [exact H1 | right; exact H2].
  - apply T; [symmetry; apply append_nil_r | left; reflexivity].
Qed.

(** A selector after an operator: the expression is that of the
    property. *)
Lemma parseExpression_property (code : string) (cursorPos : Z)
    (pre leftOp rightOp sel : string) :
  slice code 0 cursorPos = pre +++ leftOp +++ sel ->
  operators leftOp rightOp ->
  (sel = "" \/ identifier sel = true) ->
  parseExpression code cursorPos
  = propertyOf (slice code 0 cursorPos) pre leftOp rightOp sel.
Proof.
  rewrite parseExpression_afterSelector. cbv zeta.
  generalize (slice code 0 cursorPos) as P.
  intros P -> Hop Hs. rename leftOp into lop. rename rightOp into rop.
  assert (Hop' : lop = "." \/ lop = bracketDq \/ lop = bracketSq).
  { destruct Hop as [[-> _]|[[-> _]|[-> _]]]; auto. }
  destruct (operator_last lop Hop') as (l0 & d & El & Hd & Hsp).
  assert (Eu : pre +++ lop = (pre +++ l0) +++ String d "")
    by (rewrite El; symmetry; apply append_assoc).
  pose proof (stripOp_append pre lop rop Hop) as Hrop.
  assert (Hl : truthy lop = true) by (rewrite El; destruct l0; reflexivity).
  destruct (boundary_test (pre +++ lop +++ sel)) as [B1 _].
  destruct (negb _ || _).
  { exfalso. destruct (B1 eq_refl) as [E|(p0 & c & E & Hc0)].
    - rewrite El in E. destruct pre; destruct l0; discriminate.
    - destruct Hs as [->|Hs].
      + rewrite append_nil_r, Eu in E.
        apply append_last_inj in E as [_ ->]. congruence.
      + apply identifier_all in Hs as [Hn Ha].
        destruct (last_unit sel Hn) as (s0 & x & ->).
        rewrite <- !append_assoc in E. apply append_last_inj in E as [_ ->].
        rewrite all_append in Ha. apply andb_true_iff in Ha as [_ Ha].
        simpl in Ha. rewrite andb_true_r in Ha.
        apply space_identPart in Ha. congruence. }
  assert (F : afterSelector (pre +++ lop +++ sel) (pre +++ lop) sel
              = propertyOf (pre +++ lop +++ sel) pre lop rop sel).
  { unfold afterSelector, propertyOf. rewrite Hrop.
    destruct (exec complexIdentifierRE pre); [reflexivity|]. now rewrite Hl. }
  rewrite <- F. rewrite <- append_assoc.
  destruct Hs as [->|Hs].
  - rewrite append_nil_r. rewrite Eu at 1.
    now rewrite (exec_simpleIdentifier_none _ _ Hd).
  - rewrite exec_simpleIdentifier_suffix;
      [|right; exists (pre +++ l0), d; auto | exact Hs].
    cbn [index match0]. rewrite slice_take by (rewrite !length_append; lia).
    now rewrite take_append.
Qed.

Lemma parseExpression_of_identifier (sel : string) :
  identifier sel = true ->
  parseExpression sel (Z.of_nat (String.length sel))
  = Some {| matchedText := sel; scope := ""; leftOp := ""; selector := sel;
            rightOp := "" |}.
Proof.
  intros Hs. rewrite parseExpression_afterSelector. cbv zeta. rewrite slice_all.
  destruct (boundary_test sel) as [B1 _].
  destruct (negb _ || _).
  { exfalso. apply identifier_all in Hs as [Hn Ha].
    destruct (B1 eq_refl) as [E|(p0 & c & E & Hc)]; [contradiction|].
    rewrite E, all_append in Ha. apply andb_true_iff in Ha as [_ Ha].
    simpl in Ha. rewrite andb_true_r in Ha.
    apply space_identPart in Ha. congruence. }
  pose proof (exec_simpleIdentifier_suffix "" sel (or_introl eq_refl) Hs) as E.
  simpl in E. rewrite E. cbn [index match0].
  change (Z.of_nat 0) with 0%Z.
  assert (S0 : slice sel 0 0 = "").
  { rewrite <- (take_0 sel). apply (slice_take sel 0). lia. }
  rewrite S0. unfold afterSelector. cbn [stripOp]. 
  change (stripOp "") with (@None (string * string * string)).
  cbn [String.length]. now rewrite drop_0.
Qed.

Lemma afterSelector_extended (P expression sel x : string) (e : Expression) :
  P = expression +++ sel ->
  afterSelector P expression sel = Some e ->
  afterSelector (P +++ x) expression (sel +++ x) = Some (extended e x).
Proof.
  intros HP. unfold afterSelector.
  assert (L : String.length expression <= String.length P)
    by (rewrite HP, length_append; lia).
  destruct (stripOp expression) as [[[lop rop] e0]|] eqn:Eop.
  - apply stripOp_split in Eop as [Eop _].
    assert (L0 : String.length e0 <= String.length P)
      by (rewrite Eop, length_append in L; lia).
    destruct (exec complexIdentifierRE e0) as [re|] eqn:Ere.
    + destruct (exec_eol complexIdentifierRE e0 re eq_refl Ere) as [Hi _].
      intros [= <-]. unfold extended. cbn.
      now rewrite drop_append_le by lia.
    + destruct (negb (truthy lop)); [|discriminate].
      intros [= <-]. unfold extended. cbn.
      now rewrite drop_append_le by lia.
  - intros [= <-]. unfold extended. cbn.
    now rewrite drop_append_le by lia.
Qed.

Lemma stripOp_none (pre : string) (d : ascii) :
  space d = true -> stripOp (pre +++ String d "") = None.
Proof.
  intros Hd. unfold stripOp. cbv zeta. rewrite at_append_last. cbn [isChar].
  assert (E1 : Ascii.eqb d "." = false).
  { destruct (Ascii.eqb d ".") eqn:E; [|reflexivity].
    apply Ascii.eqb_eq in E. subst d. discriminate Hd. }
  assert (E2 : Ascii.eqb d dquote = false).
  { destruct (Ascii.eqb d dquote) eqn:E; [|reflexivity].
    apply Ascii.eqb_eq in E. subst d. discriminate Hd. }
  assert (E3 : Ascii.eqb d squote = false).
  { destruct (Ascii.eqb d squote) eqn:E; [|reflexivity].
    apply Ascii.eqb_eq in E. subst d. discriminate Hd. }
  rewrite E1, E2, E3, !andb_false_r. reflexivity.
Qed.

Lemma parseExpression_units (code : string) (cursorPos : Z) (e : Expression) :
  parseExpression code cursorPos = Some e ->
  all identPart (selector e) = true
  /\ (rightOp e = "" \/ rightOp e = dqBracket \/ rightOp e = sqBracket).
Proof.
  intros H.
  assert (S : forall sel, sel = "" \/ identifier sel = true -> all identPart sel = true).
  { intros sel [->|Hs]; [reflexivity | apply identifier_all, Hs]. }
  destruct (parseExpression_inv code cursorPos)
    as [[_ E]|[(ex & sel & _ & Hs & _ & E)
              |(pre & lop & rop & sel & HP & Hop & Hs & E)]];
    rewrite E in H.
  - injection H as <-. auto.
  - injection H as <-. simpl. auto.
  - unfold propertyOf in H.
    destruct (exec complexIdentifierRE pre); [|discriminate].
    injection H as <-. simpl. split; [apply S, Hs|].
    destruct Hop as [[_ ->]|[[_ ->]|[_ ->]]]; auto.
Qed.

(** [parseExpression] on the text before the cursor, with the cursor at
    its end. *)
Lemma parseExpression_at_end (code : string) (cursorPos : Z) :
  parseExpression code cursorPos
  = parseExpression (slice code 0 cursorPos)
      (Z.of_nat (String.length (slice code 0 cursorPos))).
Proof. now rewrite !parseExpression_afterSelector, slice_all. Qed.

(** One more unit at the end of a text that is parsed to its end. *)
Lemma typing_at_end (P : string) (e : Expression) (c : ascii) :
  parseExpression P (Z.of_nat (String.length P)) = Some e ->
  identStart c = true \/ (identPart c = true /\ selector e <> "") ->
  parseExpression (P +++ String c "")
    (Z.of_nat (String.length (P +++ String c "")))
  = Some (extended e (String c "")).
Proof.
  rewrite !parseExpression_afterSelector, !slice_all. cbv zeta. intros H Hc.
  assert (Hp : identPart c = true).
  { destruct Hc as [Hc|[Hc _]]; [apply identStart_identPart, Hc | exact Hc]. }
  (* the text with the new unit does not end with a white space *)
  destruct (boundary_test (P +++ String c "")) as [B1 _].
  destruct (negb (truthy (P +++ String c "")) || _).
  { exfalso. destruct (B1 eq_refl) as [E|(p0 & d & E & Hd)].
    - destruct P; discriminate E.
    - apply append_last_inj in E as [_ <-].
      apply space_identPart in Hp. congruence. }
  clear B1. destruct (boundary_test P) as [B1 _].
  destruct (negb (truthy P) || _).
  - (* at the start of the input or after a white space *)
    injection H as <-.
    assert (Hs : identStart c = true).
    { destruct Hc as [Hc|[_ Hc]]; [exact Hc | contradiction Hc; reflexivity]. }
    assert (N : exec simpleIdentifierRE P = None /\ stripOp P = None).
    { destruct (B1 eq_refl) as [->|(p0 & d & -> & Hd)]; [split; reflexivity|].
      split; [|apply stripOp_none, Hd].
      apply exec_simpleIdentifier_none.
      destruct (identPart d) eqn:E; [|reflexivity].
      apply space_identPart in E. congruence. }
    destruct N as [N1 N2].
    rewrite (exec_simpleIdentifier_start P c N1 Hs). cbn [index match0].
    rewrite slice_take by (rewrite length_append; lia).
    rewrite take_append. unfold afterSelector. rewrite N2.
    now rewrite drop_append.
  - clear B1. destruct (exec simpleIdentifierRE P) as [re|] eqn:Ere.
    + rewrite (exec_simpleIdentifier_snoc P re c Ere Hp). cbn [index match0].
      destruct (exec_eol simpleIdentifierRE P re eq_refl Ere) as [Hi _].
      rewrite slice_take by (rewrite length_append; lia).
      rewrite take_append_le by exact Hi.
      rewrite <- (slice_take P (index re) Hi).
      apply afterSelector_extended; [|exact H].
      apply (exec_eol_split simpleIdentifierRE P re eq_refl Ere).
    + assert (Hs : identStart c = true).
      { destruct Hc as [Hc|[_ Hc]]; [exact Hc|].
        apply afterSelector_selector in H. contradiction. }
      rewrite (exec_simpleIdentifier_start P c Ere Hs). cbn [index match0].
      rewrite slice_take by (rewrite length_append; lia).
      rewrite take_append.
      apply (afterSelector_extended P P "" (String c "") e);
        [symmetry; apply append_nil_r | exact H].
Qed.

(** X1. [parseExpression] reads [code.slice(0, cursorPos)] only: what
    comes at the cursor and after it, and the way the position is given,
    do not change the expression. *)
Theorem parseExpression_prefix_only (code code' : string) (cursorPos cursorPos' : Z) :
  slice code 0 cursorPos = slice code' 0 cursorPos' ->
  parseExpression code cursorPos = parseExpression code' cursorPos'.
Proof.
  intros H. rewrite !parseExpression_afterSelector. cbv zeta. now rewrite H.
Qed.

Lemma parseExpression_prefix_only_witness :
  parseExpression "obj.foo(bar)" 7 = parseExpression "obj.foo.baz" (-4).
Proof. apply parseExpression_prefix_only. reflexivity. Defined.

(** X2. In an expression that [parseExpression] returns, the operators
    come in pairs: none with no scope, and with a scope either a dot and
    nothing, or a bracket and a quote, double or single, with the same
    quote and a bracket to close them. *)
Theorem parseExpression_operators (code : string) (cursorPos : Z) (e : Expression) :
  parseExpression code cursorPos = Some e ->
  (scope e = "" /\ leftOp e = "" /\ rightOp e = "")
  \/ (scope e <> ""
      /\ ((leftOp e = "." /\ rightOp e = "")
          \/ (leftOp e = bracketDq /\ rightOp e = dqBracket)
          \/ (leftOp e = bracketSq /\ rightOp e = sqBracket))).
Proof.
  rewrite parseExpression_afterSelector. cbv zeta.
  destruct (negb _ || _); [intros [= <-]; left; auto|].
  destruct (exec simpleIdentifierRE _); apply afterSelector_operators.
Qed.

Lemma parseExpression_operators_witness :
  (scope objFoo = "" /\ leftOp objFoo = "" /\ rightOp objFoo = "")
  \/ (scope objFoo <> ""
      /\ ((leftOp objFoo = "." /\ rightOp objFoo = "")
          \/ (leftOp objFoo = bracketDq /\ rightOp objFoo = dqBracket)
          \/ (leftOp objFoo = bracketSq /\ rightOp objFoo = sqBracket))).
Proof. apply (parseExpression_operators "x = obj.foo" 11 objFoo). reflexivity. Defined.

(** X3. The selector is the longest identifier that ends
    [code.slice(0, cursorPos)]: it ends that text, it is empty or an
    identifier, and no identifier that ends that text is longer. *)
Theorem parseExpression_selector (code : string) (cursorPos : Z) (e : Expression) :
  parseExpression code cursorPos = Some e ->
  (exists pre : string, slice code 0 cursorPos = pre +++ selector e)
  /\ (selector e = "" \/ identifier (selector e) = true)
  /\ forall pre sel : string,
       slice code 0 cursorPos = pre +++ sel -> identifier sel = true ->
       String.length sel <= String.length (selector e).
Proof.
  rewrite parseExpression_afterSelector. cbv zeta.
  generalize (slice code 0 cursorPos) as P. intros P.
  destruct (boundary_test P) as [B1 B0].
  destruct (negb _ || _).
  - intros [= <-]. simpl. split; [|split].
    + exists P. symmetry. apply append_nil_r.
    + left. reflexivity.
    + intros pre sel HP Hs. exfalso.
      apply identifier_all in Hs as [Hn Ha].
      destruct (B1 eq_refl) as [->|(pre0 & c & -> & Hc)].
      * destruct pre; [simpl in HP; congruence | discriminate].
      * destruct (last_unit sel Hn) as (sel0 & d & ->).
        rewrite <- append_assoc in HP. apply append_last_inj in HP as [_ ->].
        rewrite all_append in Ha. apply andb_true_iff in Ha as [_ Ha].
        simpl in Ha. rewrite andb_true_r in Ha.
        apply space_identPart in Ha. congruence.
  - clear B1 B0. destruct (exec simpleIdentifierRE P) as [re|] eqn:Ere.
    + intros H. apply afterSelector_selector in H. rewrite H.
      destruct (exec_eol simpleIdentifierRE P re eq_refl Ere) as [Hi Hm].
      apply exec_from_first in Ere as (j & H1 & _ & H3 & H4).
      simpl in H1. subst j. rewrite m_simpleIdentifier in H3.
      split; [|split].
      * exists (take (index re) P). rewrite Hm. symmetry. apply take_drop.
      * right. rewrite Hm. destruct (identifier (drop (index re) P)); congruence.
      * intros pre sel HP Hs.
        destruct (Nat.le_gt_cases (String.length sel) (String.length (match0 re)))
          as [L|L]; [exact L|exfalso].
        assert (Lp : String.length pre < index re).
        { rewrite Hm, length_drop in L.
          assert (String.length P = String.length pre + String.length sel)
            by (rewrite HP; apply length_append).
          lia. }
        apply H4 in Lp. rewrite m_simpleIdentifier, HP, drop_append, Hs in Lp.
        discriminate.
    + intros H. apply afterSelector_selector in H. rewrite H.
      split; [|split].
      * exists P. symmetry. apply append_nil_r.
      * left. reflexivity.
      * intros pre sel HP Hs. exfalso.
        pose proof (exec_from_None _ _ _ _ Ere (String.length pre)) as N.
        rewrite m_simpleIdentifier, HP, drop_append, Hs in N. discriminate.
Qed.

Lemma parseExpression_selector_witness :
  (exists pre : string, slice "x = obj.foo" 0 11 = pre +++ selector objFoo)
  /\ (selector objFoo = "" \/ identifier (selector objFoo) = true)
  /\ String.length "oo" <= String.length (selector objFoo).
Proof.
  assert (H : parseExpression "x = obj.foo" 11 = Some objFoo) by reflexivity.
  destruct (parseExpression_selector "x = obj.foo" 11 objFoo H) as (A & B & C).
  split; [exact A|]. split; [exact B|].
  apply (C "x = obj.f" "oo"); reflexivity.
Defined.

(** X4. A scope that is not empty starts with the first unit of an
    identifier and ends with a unit of an identifier or with a closing
    bracket. *)
Theorem parseExpression_scope (code : string) (cursorPos : Z) (e : Expression) :
  parseExpression code cursorPos = Some e ->
  scope e <> "" ->
  (exists (c : ascii) (rest : string), scope e = String c rest /\ identStart c = true)
  /\ endsWith identEnd (scope e).
Proof.
  rewrite parseExpression_afterSelector. cbv zeta.
  intros H Hsc.
  assert (S : exists (expression0 : string) (re : Match),
             exec complexIdentifierRE expression0 = Some re /\ scope e = match0 re).
  { destruct (negb _ || _); [injection H as <-; contradiction Hsc; reflexivity|].
    destruct (exec simpleIdentifierRE _);
      apply afterSelector_scope in H as [H|H]; try contradiction; exact H. }
  destruct S as (e0 & re & Ere & ->).
  apply matches_complexIdentifier, (exec_matches _ _ _ Ere).
Qed.

Lemma parseExpression_scope_witness :
  endsWith identEnd (scope objFoo).
Proof.
  apply (parseExpression_scope "x = obj.foo" 11 objFoo); [reflexivity | discriminate].
Defined.

(** X5. [parseExpression] returns [null] exactly when the text before
    the cursor is made of some text, of one of the three operators (a
    dot, or a bracket and a quote, double or single) and of a selector
    that is empty or an identifier, and no complex identifier ends the
    text before the operator. The branch [else if (!leftOp)] is never
    taken. *)
Theorem parseExpression_null (code : string) (cursorPos : Z) :
  parseExpression code cursorPos = None
  <-> exists pre leftOp sel : string,
        slice code 0 cursorPos = pre +++ leftOp +++ sel
        /\ (leftOp = "." \/ leftOp = bracketDq \/ leftOp = bracketSq)
        /\ (sel = "" \/ identifier sel = true)
        /\ exec complexIdentifierRE pre = None.
Proof.
  split.
  - intros H.
    destruct (parseExpression_inv code cursorPos)
      as [[_ E]|[(ex & sel & _ & _ & _ & E)
                |(pre & lop & rop & sel & HP & Hop & Hs & E)]];
      try congruence.
    exists pre, lop, sel. repeat split; [exact HP | | exact Hs |].
    + destruct Hop as [[-> _]|[[-> _]|[-> _]]]; auto.
    + rewrite H in E. unfold propertyOf in E.
      destruct (exec complexIdentifierRE pre); [discriminate | reflexivity].
  - intros (pre & lop & sel & HP & Hop & Hs & Hc).
    assert (O : exists rop, operators lop rop).
    { destruct Hop as [->|[->| ->]];
        [exists "" | exists dqBracket | exists sqBracket]; unfold operators; auto. }
    destruct O as [rop O].
    rewrite (parseExpression_property code cursorPos pre lop rop sel HP O Hs).
    unfold propertyOf. now rewrite Hc.
Qed.

(** X6. So it does when the operator comes first, or after a unit that
    is neither a unit of an identifier nor a closing bracket, such as the
    parenthesis that closes a call. *)
Theorem parseExpression_not_implemented (code : string) (cursorPos : Z)
    (pre leftOp sel : string) :
  slice code 0 cursorPos = pre +++ leftOp +++ sel ->
  (leftOp = "." \/ leftOp = bracketDq \/ leftOp = bracketSq) ->
  (sel = "" \/ identifier sel = true) ->
  (pre = "" \/ exists (p0 : string) (d : ascii),
                 pre = p0 +++ String d "" /\ identEnd d = false) ->
  parseExpression code cursorPos = None.
Proof.
  intros HP Hop Hs Hp.
  assert (O : exists rop, operators leftOp rop).
  { destruct Hop as [->|[->| ->]];
      [exists "" | exists dqBracket | exists sqBracket]; unfold operators; auto. }
  destruct O as [rop O].
  rewrite (parseExpression_property code cursorPos pre leftOp rop sel HP O Hs).
  unfold propertyOf. now rewrite (exec_complexIdentifier_end pre Hp).
Qed.

Lemma parseExpression_not_implemented_witness :
  parseExpression "f(x).y" 6 = None.
Proof.
  apply (parseExpression_not_implemented "f(x).y" 6 "f(x)" "." "y").
  - reflexivity.
  - left. reflexivity.
  - right. reflexivity.
  - right. exists "f(x", ")"%char. split; reflexivity.
Defined.

(** X7. What is matched parses as the expression it was matched for:
    [parseExpression(e.matchedText, e.matchedText.length)] is [e]. *)
Theorem parseExpression_again (code : string) (cursorPos : Z) (e : Expression) :
  parseExpression code cursorPos = Some e ->
  parseExpression (matchedText e) (Z.of_nat (String.length (matchedText e)))
  = Some e.
Proof.
  intros H.
  destruct (parseExpression_inv code cursorPos)
    as [[_ E]|[(ex & sel & _ & Hs & _ & E)
              |(pre & lop & rop & sel & HP & Hop & Hs & E)]];
    rewrite E in H.
  - injection H as <-. reflexivity.
  - injection H as <-. cbn [matchedText].
    destruct Hs as [->|Hs]; [reflexivity | apply parseExpression_of_identifier, Hs].
  - unfold propertyOf in H.
    destruct (exec complexIdentifierRE pre) as [re|] eqn:Ere; [|discriminate].
    injection H as <-. cbn [matchedText].
    destruct (exec_eol complexIdentifierRE pre re eq_refl Ere) as [Hi Hm].
    rewrite HP, drop_append_le, <- Hm by exact Hi.
    rewrite (parseExpression_property _ _ (match0 re) lop rop sel);
      [|apply slice_all | exact Hop | exact Hs].
    rewrite slice_all. unfold propertyOf.
    rewrite (exec_complexIdentifier_again pre re Ere). cbn [index match0].
    now rewrite drop_0.
Qed.

Lemma parseExpression_again_witness :
  parseExpression "x = obj.foo" 11 = Some objFoo
  /\ parseExpression (matchedText objFoo)
       (Z.of_nat (String.length (matchedText objFoo))) = Some objFoo.
Proof.
  assert (H : parseExpression "x = obj.foo" 11 = Some objFoo) by reflexivity.
  split; [exact H | apply (parseExpression_again "x = obj.foo" 11 objFoo H)].
Defined.

(** X21. Typing one more unit after an expression that is parsed: when
    the unit may start an identifier, or may continue one and the
    selector is not empty, the expression parsed at the new cursor is the
    former one with the unit added to the selector and to what is
    matched; the scope and the operators stay. *)
Theorem parseExpression_typing (code code' : string) (cursorPos cursorPos' : Z)
    (e : Expression) (c : ascii) :
  parseExpression code cursorPos = Some e ->
  slice code' 0 cursorPos' = slice code 0 cursorPos +++ String c "" ->
  identStart c = true \/ (identPart c = true /\ selector e <> "") ->
  parseExpression code' cursorPos' = Some (extended e (String c "")).
Proof.
  intros H E Hc.
  rewrite parseExpression_at_end in H.
  rewrite (parseExpression_at_end code'), E.
  apply typing_at_end; assumption.
Qed.

Lemma parseExpression_typing_witness :
  parseExpression "x = obj.foob" 12
  = Some {| matchedText := "obj.foob"; scope := "obj"; leftOp := ".";
            selector := "foob"; rightOp := "" |}.
Proof.
  apply (parseExpression_typing "x = obj.foo" "x = obj.foob" 11 12 objFoo "b"%char).
  - reflexivity.
  - reflexivity.
  - left. reflexivity.
Defined.

(* ================================================================== *)
(** * Completion: more theorems *)

Lemma startsWith_empty (s : string) : startsWith s "" = true.
Proof. destruct s; reflexivity. Qed.

Lemma filter_all {A : Type} (f : A -> bool) (l : list A) :
  (forall x, f x = true) -> filter f l = l.
Proof.
  intros H. induction l as [|x l IH]; simpl; [reflexivity|].
  now rewrite H, IH.
Qed.

Lemma map_same {A : Type} (f : A -> A) (l : list A) :
  (forall x, f x = x) -> map f l = l.
Proof.
  intros H. induction l as [|x l IH]; simpl; [reflexivity|].
  now rewrite H, IH.
Qed.

Lemma append_empty (a b : string) : a +++ b = "" -> a = "" /\ b = "".
Proof. destruct a; [auto | discriminate]. Qed.

Lemma truthy_false (s : string) : truthy s = false -> s = "".
Proof. destruct s; [reflexivity | discriminate]. Qed.

(** The list of a completion, in one expression. *)
Lemma c_list_completion (code : string) (cursorPos : Z) (e : Expression)
    (names : list string) :
  c_list (completion code cursorPos e names)
  = map (fun name => scope e +++ leftOp e +++ name +++ rightOp e)
      (candidates e names).
Proof.
  unfold completion, candidates. cbv zeta. cbn [c_list app].
  set (l0 := if String.eqb (scope e) "" then names ++ javascriptKeywords else names).
  assert (F : (if truthy (selector e)
               then filter (fun x => (lastIndexOf x (selector e) 0 =? 0)%Z) l0
               else l0)
              = filter (fun name => startsWith name (selector e)) l0).
  { destruct (truthy (selector e)) eqn:E; [apply filter_lastIndexOf|].
    apply truthy_false in E. rewrite E. symmetry. apply filter_all.
    intros x. apply startsWith_empty. }
  rewrite F. generalize (filter (fun name => startsWith name (selector e)) l0) as l.
  intros l.
  destruct (truthy (scope e +++ leftOp e) || truthy (rightOp e)) eqn:E.
  - apply map_ext. intros x. apply append_assoc.
  - apply orb_false_iff in E as [E1 E2].
    apply truthy_false in E1, E2. apply append_empty in E1 as [E0 E1].
    rewrite E0, E1, E2. symmetry. apply map_same. intros x. apply append_nil_r.
Qed.

Lemma parsed_matchedText (prefix : string) (e : Expression) :
  parsed prefix e -> matchedText e = scope e +++ leftOp e +++ selector e.
Proof. intros [|pre sel H|pre sc lop rop sel H Hsc Hlop]; reflexivity. Qed.

Lemma completion_entry (e : Expression) (names : list string) (x : string) :
  matchedText e = scope e +++ leftOp e +++ selector e ->
  In x (map (fun name => scope e +++ leftOp e +++ name +++ rightOp e)
          (candidates e names)) ->
  exists rest : string, x = matchedText e +++ rest.
Proof.
  intros Hm Hx. apply in_map_iff in Hx as (name & <- & Hn).
  apply filter_In in Hn as [_ Hn]. apply startsWith_iff in Hn as [r ->].
  exists (r +++ rightOp e). rewrite Hm, !append_assoc. reflexivity.
Qed.

(** X8. The list handed to [onCompletionSuccess] is made of the names of
    the worker, followed by the reserved words when there is no scope,
    that start with the selector, in their order, each between
    [scope + leftOp] and [rightOp]; every entry starts with what was
    matched. *)
Theorem completion_list (code : string) (cursorPos : Z) (e : Expression)
    (names : list string) :
  parseExpression code cursorPos = Some e ->
  c_list (completion code cursorPos e names)
  = map (fun name => scope e +++ leftOp e +++ name +++ rightOp e)
      (filter (fun name => startsWith name (selector e))
         (if String.eqb (scope e) "" then names ++ javascriptKeywords else names))
  /\ Forall (fun x => startsWith x (matchedText e) = true)
       (c_list (completion code cursorPos e names)).
Proof.
  intros H. apply parseExpression_parsed, parsed_matchedText in H.
  split; [apply c_list_completion|].
  rewrite c_list_completion. apply Forall_forall. intros x Hx.
  apply startsWith_iff. apply (completion_entry e names x H Hx).
Qed.

Lemma completion_list_witness :
  c_list (completion "obj.foo" 7 objFoo fooNames) = ["obj.foo"; "obj.foobar"]
  /\ Forall (fun x => startsWith x (matchedText objFoo) = true)
       (c_list (completion "obj.foo" 7 objFoo fooNames)).
Proof.
  assert (H : parseExpression "obj.foo" 7 = Some objFoo) by reflexivity.
  destruct (completion_list "obj.foo" 7 objFoo fooNames H) as [H1 H2].
  split; [rewrite H1; reflexivity | exact H2].
Defined.

Lemma agree_append (a b c : string) :
  agree (a +++ b) (a +++ c) = String.length a + agree b c.
Proof.
  induction a as [|x a IH]; [reflexivity|].
  simpl. now rewrite Ascii.eqb_refl, IH.
Qed.

Lemma agree_le (a b : string) :
  agree a b <= String.length a /\ agree a b <= String.length b.
Proof.
  revert b; induction a as [|x a IH]; intros [|y b]; simpl; try lia.
  destruct (Ascii.eqb x y); [|lia]. specialize (IH b). lia.
Qed.

Lemma first_shortest_In (l : list string) (x : string) :
  first_shortest l x ->
  In x l /\ forall y, In y l -> String.length x <= String.length y.
Proof.
  intros (l1 & l2 & -> & H1 & H2). split.
  - apply in_or_app. right. left. reflexivity.
  - intros y Hy. apply in_app_or in Hy as [Hy|[<-|Hy]].
    + rewrite Forall_forall in H1. apply H1 in Hy. lia.
    + lia.
    + rewrite Forall_forall in H2. apply H2, Hy.
Qed.

(** Where what is matched stands in the code: it ends where
    [code.slice(0, cursorPos)] ends. *)
Lemma parsed_position (code : string) (cursorPos : Z) (e : Expression) :
  parsed (slice code 0 cursorPos) e ->
  exists j : nat,
    occurs_at code (matchedText e) j
    /\ j + String.length (matchedText e) = upto code cursorPos.
Proof.
  intros H.
  assert (S : exists pre, slice code 0 cursorPos = pre +++ matchedText e).
  { destruct H as [|pre sel H|pre sc lop rop sel H Hsc Hlop]; simpl.
    - exists (slice code 0 cursorPos). symmetry. apply append_nil_r.
    - exists pre. exact H.
    - exists pre. exact H. }
  destruct S as [pre S]. rewrite slice_0 in S.
  pose proof (upto_le code cursorPos) as U.
  assert (L : String.length (take (upto code cursorPos) code)
              = upto code cursorPos) by (apply length_take, U).
  rewrite S, length_append in L.
  exists (String.length pre). split; [split|].
  - lia.
  - exists (drop (upto code cursorPos) code).
    rewrite <- (take_drop (upto code cursorPos) code) at 1.
    rewrite S, append_assoc. apply drop_append.
  - exact L.
Qed.

(** X9. When the list is not empty, [cursorStart] and [cursorEnd] are
    positions of [code]: what is matched occurs at [cursorStart], at the
    place where it was parsed or before it; the range holds it whole and
    ends within [code]; and the range is not longer than any entry of the
    list. *)
Theorem completion_range_bounds (code : string) (cursorPos : Z) (e : Expression)
    (names : list string) :
  parseExpression code cursorPos = Some e ->
  c_list (completion code cursorPos e names) <> [] ->
  exists cursorStart cursorEnd : nat,
    c_cursorStart (completion code cursorPos e names) = Z.of_nat cursorStart
    /\ c_cursorEnd (completion code cursorPos e names) = Z.of_nat cursorEnd
    /\ occurs_at code (matchedText e) cursorStart
    /\ cursorStart + String.length (matchedText e) <= upto code cursorPos
    /\ cursorStart + String.length (matchedText e) <= cursorEnd
    /\ cursorEnd <= String.length code
    /\ Forall (fun x => cursorEnd - cursorStart <= String.length x)
         (c_list (completion code cursorPos e names)).
Proof.
  intros H. apply parseExpression_parsed in H.
  pose proof (parsed_matchedText _ _ H) as Hm.
  apply parsed_position in H as (j & Hj & Lj).
  destruct (indexOf_index_of _ _ _ Hj) as (k & Hk & Hi & Hmin).
  assert (Hkj : k <= j).
  { destruct (Nat.le_gt_cases k j) as [L|L]; [exact L|].
    exfalso. apply (Hmin j L Hj). }
  pose proof (c_list_completion code cursorPos e names) as Hl.
  revert Hl. unfold completion. cbv zeta.
  cbn [c_list c_cursorStart c_cursorEnd].
  match goal with
  | |- context [match ?l with [] => _ | _ :: _ => _ end] =>
      generalize l as matchList
  end.
  intros [|first others] Hl Hne; [contradiction Hne; reflexivity|].
  cbn [fst snd].
  pose proof (fold_shorter others [first] first) as Hs.
  destruct (first_shortest_In _ _ (Hs (ex_intro _ [] (ex_intro _ []
              (conj eq_refl (conj (Forall_nil _) (Forall_nil _)))))))
    as [Hin Hle].
  cbn [app] in Hin, Hle.
  set (shortestMatch := fold_left shorter others first) in *.
  destruct (completion_entry e names shortestMatch Hm) as [r Hr];
    [rewrite <- Hl; exact Hin|].
  destruct Hi as [Hkl [rest Hrest]].
  exists k, (k + agree shortestMatch (drop k code)).
  rewrite Hk. change 0%Z with (Z.of_nat 0). rewrite scan_agree by lia.
  rewrite drop_0.
  pose proof (agree_le shortestMatch (drop k code)) as [A1 A2].
  rewrite length_drop in A2.
  repeat split; try assumption; try lia.
  - exists rest. exact Hrest.
  - rewrite Hr, Hrest, agree_append. lia.
  - apply Forall_forall. intros x Hx. specialize (Hle x Hx). lia.
Qed.

Lemma completion_range_bounds_witness :
  exists cursorStart cursorEnd : nat,
    c_cursorStart (completion "x = par" 7 par ["parseInt"; "isNaN"])
    = Z.of_nat cursorStart
    /\ c_cursorEnd (completion "x = par" 7 par ["parseInt"; "isNaN"])
       = Z.of_nat cursorEnd
    /\ cursorStart + String.length (matchedText par) <= cursorEnd
    /\ cursorEnd <= String.length "x = par".
Proof.
  assert (H : parseExpression "x = par" 7 = Some par) by reflexivity.
  destruct (completion_range_bounds "x = par" 7 par ["parseInt"; "isNaN"] H)
    as (k & k' & H1 & H2 & _ & _ & H5 & H6 & _); [discriminate|].
  exists k, k'. auto.
Defined.

Lemma startsWith_append (a y z : string) :
  startsWith (a +++ y) (a +++ z) = startsWith y z.
Proof.
  induction a as [|x a IH]; [reflexivity|].
  simpl. now rewrite Ascii.eqb_refl, IH.
Qed.

Lemma startsWith_shorter (s u v : string) :
  startsWith s (u +++ v) = true -> startsWith s u = true.
Proof.
  intros H. apply startsWith_iff in H as [r ->].
  apply startsWith_iff. exists (v +++ r). apply append_assoc.
Qed.

(** What closes an operator does not count for a search made of units of
    identifiers. *)
Lemma startsWith_closed (rightOp : string) :
  rightOp = "" \/ rightOp = dqBracket \/ rightOp = sqBracket ->
  forall z y : string,
    all identPart z = true ->
    startsWith (y +++ rightOp) z = startsWith y z.
Proof.
  intros Hr. induction z as [|b z IH]; intros y Hz; [reflexivity|].
  simpl in Hz. apply andb_true_iff in Hz as [Hb Hz].
  destruct y as [|a y].
  - cbn [String.append].
    destruct Hr as [->|[->| ->]]; [reflexivity| |]; cbn [dqBracket sqBracket startsWith];
      (destruct (Ascii.eqb b _) eqn:E; [|reflexivity]);
      apply Ascii.eqb_eq in E; subst b; discriminate Hb.
  - cbn [String.append startsWith]. now rewrite IH.
Qed.

Lemma filter_map {A B : Type} (f : A -> B) (p : B -> bool) (l : list A) :
  filter p (map f l) = map f (filter (fun x => p (f x)) l).
Proof.
  induction l as [|x l IH]; simpl; [reflexivity|].
  destruct (p (f x)); simpl; now rewrite IH.
Qed.

Lemma filter_filter {A : Type} (p q : A -> bool) (l : list A) :
  (forall x, q x = true -> p x = true) ->
  filter q (filter p l) = filter q l.
Proof.
  intros H. induction l as [|x l IH]; simpl; [reflexivity|].
  destruct (p x) eqn:Ep; simpl.
  - now rewrite IH.
  - destruct (q x) eqn:Eq; [|exact IH].
    apply H in Eq. congruence.
Qed.

(** The list for an expression with one more unit of an identifier. *)
Lemma completion_extended (code code' : string) (cursorPos cursorPos' : Z)
    (e : Expression) (names : list string) (c : ascii) :
  parseExpression code cursorPos = Some e ->
  identPart c = true ->
  c_list (completion code' cursorPos' (extended e (String c "")) names)
  = filter (fun x => startsWith x (matchedText e +++ String c ""))
      (c_list (completion code cursorPos e names)).
Proof.
  intros H Hc.
  destruct (parseExpression_units code cursorPos e H) as [Hs Hr].
  apply parseExpression_parsed, parsed_matchedText in H.
  rewrite !c_list_completion, filter_map. unfold candidates. cbn.
  rewrite filter_filter.
  - f_equal. apply filter_ext. intros name.
    rewrite H, !append_assoc, !startsWith_append.
    symmetry. apply startsWith_closed; [exact Hr|].
    rewrite all_append, Hs. simpl. now rewrite Hc.
  - intros name Hn. rewrite H, !append_assoc, !startsWith_append in Hn.
    rewrite startsWith_closed in Hn; [|exact Hr|].
    + apply (startsWith_shorter _ _ _ Hn).
    + rewrite all_append, Hs. simpl. now rewrite Hc.
Qed.

(** X22. Typing narrows the list. After an expression that is parsed,
    one more unit is typed, which may start an identifier, or may
    continue one when the selector is not empty. Then an expression is
    parsed at the new cursor, with the same scope, which matches what was
    matched and the unit; and for the same names of the worker, the list
    of its completion is the former list, in its order, without the
    entries that do not start with what is now matched. *)
Theorem completion_typing (code code' : string) (cursorPos cursorPos' : Z)
    (e : Expression) (names : list string) (c : ascii) :
  parseExpression code cursorPos = Some e ->
  slice code' 0 cursorPos' = slice code 0 cursorPos +++ String c "" ->
  identStart c = true \/ (identPart c = true /\ selector e <> "") ->
  exists e' : Expression,
    parseExpression code' cursorPos' = Some e'
    /\ scope e' = scope e
    /\ matchedText e' = matchedText e +++ String c ""
    /\ c_list (completion code' cursorPos' e' names)
       = filter (fun x => startsWith x (matchedText e'))
           (c_list (completion code cursorPos e names)).
Proof.
  intros H E Hc. exists (extended e (String c "")).
  split; [|split; [reflexivity|split; [reflexivity|]]].
  - rewrite parseExpression_at_end in H.
    rewrite (parseExpression_at_end code'), E.
    apply typing_at_end; assumption.
  - apply (completion_extended code code' cursorPos cursorPos' e names c H).
    destruct Hc as [Hc|[Hc _]]; [apply identStart_identPart, Hc | exact Hc].
Qed.

Lemma completion_typing_witness :
  exists e' : Expression,
    parseExpression "obj.foob" 8 = Some e'
    /\ scope e' = "obj"
    /\ matchedText e' = "obj.foob"
    /\ c_list (completion "obj.foob" 8 e' fooNames)
       = filter (fun x => startsWith x (matchedText e')) ["obj.foo"; "obj.foobar"].
Proof.
  apply (completion_typing "obj.foo" "obj.foob" 7 8 objFoo fooNames "b"%char).
  - reflexivity.
  - reflexivity.
  - left. reflexivity.
Defined.

(** X10. A call of [complete] on a new session, for an expression that
    is parsed and functions that call nothing: [beforeRun] is called, the
    names of the scope, or of "global" with no scope, are asked for; on
    the reply, [onCompletionSuccess] is called with the completion, or
    [onError] with the error, and then [afterRun]; the session is idle
    again. *)
Theorem complete_callbacks (doc : string -> option Documentation)
    (code : string) (cursorPos : Z) (e : Expression)
    (n1 n2 n3 n4 : string) (message : Result) :
  parseExpression code cursorPos = Some e ->
  conforms message ("getAllPropertyNames", code) = true ->
  option_map observe
    (run doc
       [Do (CallComplete code cursorPos (opaque n1) (opaque n2) (opaque n3) (opaque n4));
        Reply message] Session)
  = Some ([LogComplete (Some e);
           LogTask (completeTask code cursorPos e
                      (opaque n1) (opaque n2) (opaque n3) (opaque n4));
           Invoke n3 None;
           Send ("getAllPropertyNames",
                 if String.eqb (scope e) "" then "global" else scope e);
           LogMessage message;
           match message with
           | NameListResult names =>
               Invoke n1 (Some (CompletionResult (completion code cursorPos e names)))
           | _ => Invoke n2 (Some message)
           end;
           Invoke n4 None],
          None, []).
Proof.
  intros H Hm. unfold run, react, perform, complete. rewrite H.
  destruct message; simpl in Hm; try discriminate; reflexivity.
Qed.

Lemma complete_callbacks_witness :
  option_map observe
    (run noDoc
       [Do (CallComplete "x = par" 7 (opaque "onSuccess") (opaque "onError")
              (opaque "beforeRun") (opaque "afterRun"));
        Reply (NameListResult ["parseInt"; "isNaN"])] Session)
  = Some ([LogComplete (Some par);
           LogTask (completeTask "x = par" 7 par (opaque "onSuccess")
                      (opaque "onError") (opaque "beforeRun") (opaque "afterRun"));
           Invoke "beforeRun" None;
           Send ("getAllPropertyNames", "global");
           LogMessage (NameListResult ["parseInt"; "isNaN"]);
           Invoke "onSuccess"
             (Some (CompletionResult
                      (completion "x = par" 7 par ["parseInt"; "isNaN"])));
           Invoke "afterRun" None],
          None, []).
Proof.
  apply (complete_callbacks noDoc "x = par" 7 par "onSuccess" "onError"
           "beforeRun" "afterRun" (NameListResult ["parseInt"; "isNaN"]));
    reflexivity.
Defined.

(** X11. When [parseExpression] returns [null], [complete] and
    [inspect] call their first function at once, with an empty result,
    and do nothing else: no task is made, nothing is sent, and
    [onError], [beforeRun] and [afterRun] are not called. This is so in
    every state of the session, also after [kill]. *)
Theorem not_implemented_answered (code : string) (cursorPos : Z)
    (n : string) (onError beforeRun afterRun : option Fn) (w : World) :
  parseExpression code cursorPos = None ->
  perform (CallComplete code cursorPos (opaque n) onError beforeRun afterRun) w
  = emit (Invoke n (Some (CompletionResult
                            {| c_list := []; c_code := code; c_cursorPos := cursorPos;
                               c_matchedText := ""; c_cursorStart := cursorPos;
                               c_cursorEnd := cursorPos |})))
      (emit (LogComplete None) w)
  /\ perform (CallInspect code cursorPos (opaque n) onError beforeRun afterRun) w
     = emit (Invoke n (Some (InspectionResult
                               {| i_code := Some code; i_cursorPos := Some cursorPos;
                                  i_matchedText := Some ""; i_string := "";
                                  i_type := ""; constructorList := None;
                                  i_length := None |} None)))
         (emit (LogInspect None) w).
Proof.
  intros H. simpl. unfold complete, inspect. rewrite H. split; reflexivity.
Qed.

Lemma not_implemented_answered_witness :
  perform (CallComplete "f(x).y" 6 (opaque "onSuccess") (opaque "onError")
             (opaque "beforeRun") (opaque "afterRun"))
    (kill None None Session)
  = emit (Invoke "onSuccess"
            (Some (CompletionResult
                     {| c_list := []; c_code := "f(x).y"; c_cursorPos := 6;
                        c_matchedText := ""; c_cursorStart := 6;
                        c_cursorEnd := 6 |})))
      (emit (LogComplete None) (kill None None Session)).
Proof.
  apply (not_implemented_answered "f(x).y" 6 "onSuccess" (opaque "onError")
           (opaque "beforeRun") (opaque "afterRun") (kill None None Session)).
  reflexivity.
Defined.

(* ================================================================== *)
(** * Documentation and inspection: more theorems *)

Lemma replace_prefix_no_letter (lit by_ name : string) :
  startsWithLetter name = false -> replace name (prefixRE lit) by_ = name.
Proof.
  intros H. unfold replace, exec, prefixRE.
  assert (M : m (String.length name)
                (Seq Bol (Seq (Plus (Chr alpha)) (Seq (Lit lit) (Chr dot)))) name
                (fun rest => Some rest) = None).
  { change (m (String.length name)
              (Seq Bol (Seq (Plus (Chr alpha)) (Seq (Lit lit) (Chr dot)))) name
              (fun rest => Some rest))
      with (if String.length name =? String.length name
            then m (String.length name) (Plus (Chr alpha)) name
                   (fun s' => m (String.length name) (Seq (Lit lit) (Chr dot)) s'
                                (fun rest => Some rest))
            else None).
    rewrite Nat.eqb_refl, m_plus_chr.
    destruct name as [|c s]; [reflexivity|]. simpl in H. now rewrite H. }
  destruct name as [|c s].
  - cbn [exec_from]. now rewrite M.
  - cbn [exec_from]. rewrite M.
    now rewrite exec_from_bol by (simpl; lia).
Qed.

(** X12. A name that does not start with a letter is looked up as it
    is, and not rewritten: both patterns want letters first. *)
Theorem getDocumentation_verbatim (doc : string -> option Documentation)
    (name : string) :
  startsWithLetter name = false -> getDocumentation doc name = doc name.
Proof.
  intros H. rewrite getDocumentation_order.
  rewrite !replace_prefix_no_letter by exact H.
  destruct (doc name); reflexivity.
Qed.

Lemma getDocumentation_verbatim_witness :
  getDocumentation (oneEntry "Error.prototype.toString" someDoc)
    "$RangeError.prototype.toString" = None.
Proof.
  rewrite (getDocumentation_verbatim _ "$RangeError.prototype.toString");
    reflexivity.
Defined.

(** X13. A name made of letters, of "Error" and of one more unit that
    is not a letter, whatever this unit (the [.] of the pattern is not
    escaped), when it has no entry, is looked up with "Error." in their
    place; and so for "Array" and "TypedArray.", when the name rewritten
    for "Error" has no entry either. *)
Theorem getDocumentation_rewrites (doc : string -> option Documentation)
    (X rest : string) (c : ascii) (d : Documentation) :
  X <> "" -> all alpha X = true -> alpha c = false -> dot c = true ->
  (doc (X +++ "Error" +++ String c rest) = None ->
   doc ("Error." +++ rest) = Some d ->
   getDocumentation doc (X +++ "Error" +++ String c rest) = Some d)
  /\ (doc (X +++ "Array" +++ String c rest) = None ->
      doc (replace (X +++ "Array" +++ String c rest) errorPrefixRE "Error.") = None ->
      doc ("TypedArray." +++ rest) = Some d ->
      getDocumentation doc (X +++ "Array" +++ String c rest) = Some d).
Proof.
  intros HX Ha Hc Hd. split.
  - intros H1 H2. rewrite getDocumentation_order, H1.
    rewrite replace_prefix; try assumption; try reflexivity; try discriminate.
    now rewrite H2.
  - intros H1 H2 H3. rewrite getDocumentation_order, H1.
    change (prefixRE "Error") with errorPrefixRE. rewrite H2.
    rewrite replace_prefix; try assumption; try reflexivity; try discriminate.
Qed.

Lemma getDocumentation_rewrites_witness :
  getDocumentation (oneEntry "Error.prototype.toString" someDoc)
    "RangeError.prototype.toString" = Some someDoc
  /\ getDocumentation (oneEntry "TypedArray.prototype.length" someDoc)
       "MyArray/prototype.length" = Some someDoc.
Proof.
  split.
  - apply (getDocumentation_rewrites _ "Range" "prototype.toString" "."%char);
      try reflexivity; discriminate.
  - apply (getDocumentation_rewrites _ "My" "prototype.length" "/"%char);
      try reflexivity; discriminate.
Defined.



(* ================================================================== *)
(** * The task queue: more theorems *)

(** X15. A call of [execute] on a new session, for functions that call
    nothing: [beforeRun] is called and the request is sent; on the reply,
    [onError] is called if it is an error and [onExecutionSuccess] if it
    is not, with the reply, and then [afterRun]; the session is idle
    again. *)
Theorem execute_callbacks (doc : string -> option Documentation) (code : string)
    (n1 n2 n3 n4 : string) (message : Result) :
  conforms message ("run", code) = true ->
  option_map observe
    (run doc
       [Do (CallExecute code (opaque n1) (opaque n2) (opaque n3) (opaque n4));
        Reply message] Session)
  = Some ([LogExecute code;
           LogTask (executeTask code (opaque n1) (opaque n2) (opaque n3) (opaque n4));
           Invoke n3 None; Send ("run", code);
           LogMessage message;
           Invoke (if hasOwnProperty_error message then n2 else n1) (Some message);
           Invoke n4 None],
          None, []).
Proof.
  intros H. destruct message; simpl in H; try discriminate; reflexivity.
Qed.

Lemma execute_callbacks_witness :
  option_map observe
    (run noDoc
       [Do (CallExecute "1 + 1" (opaque "onSuccess") (opaque "onError")
              (opaque "beforeRun") (opaque "afterRun"));
        Reply (ErrorResult someError)] Session)
  = Some ([LogExecute "1 + 1";
           LogTask (executeTask "1 + 1" (opaque "onSuccess") (opaque "onError")
                      (opaque "beforeRun") (opaque "afterRun"));
           Invoke "beforeRun" None; Send ("run", "1 + 1");
           LogMessage (ErrorResult someError);
           Invoke "onError" (Some (ErrorResult someError));
           Invoke "afterRun" None],
          None, []).
Proof.
  apply (execute_callbacks noDoc "1 + 1" "onSuccess" "onError" "beforeRun"
           "afterRun" (ErrorResult someError)).
  reflexivity.
Defined.

Lemma run_never_throws_witness :
  exists w : World,
    run errorDoc
      [Do (CallInspect "e.toString" 10 (opaque "onInspectionSuccess")
             (opaque "onError") (opaque "beforeRun") (opaque "afterRun"));
       Reply (InspectionResult functionInspection None);
       Reply (InspectionResult rangeErrorInspection None)] Session = Some w
    /\ ~ In TypeError (trace w).
Proof.
  destruct (run errorDoc
              [Do (CallInspect "e.toString" 10 (opaque "onInspectionSuccess")
                     (opaque "onError") (opaque "beforeRun") (opaque "afterRun"));
               Reply (InspectionResult functionInspection None);
               Reply (InspectionResult rangeErrorInspection None)] Session)
    as [w|] eqn:E; [|vm_compute in E; discriminate E].
  exists w. split; [reflexivity|].
  apply (run_never_throws errorDoc _ w E).
Defined.

(** X17. On a session that runs from its creation, when the worker
    replies, a task is in flight, the reply is the answer to its request,
    which is the only one that waits, and [_onMessage] handles it with
    that task, if the session still listens. *)
Theorem reply_answers_task_in_flight (doc : string -> option Documentation)
    (inputs : list Input) (w w' : World) (message : Result) :
  run doc inputs Session = Some w ->
  react doc (Reply message) w = Some w' ->
  exists t : Task,
    _task w = Some t /\ channel w = [request t]
    /\ conforms message (request t) = true
    /\ w' = (if listening w then _onMessage doc message (set_channel [] w)
             else set_channel [] w).
Proof.
  intros H R. apply (run_Inv doc inputs Session w Session_Inv) in H.
  destruct H as [_ G]. simpl in R.
  destruct (channel w) as [|req rest] eqn:Hc; [discriminate|].
  destruct (conforms message req) eqn:Hm; [|discriminate].
  injection R as <-.
  destruct (_task w) as [t|].
  - destruct G as [_ [G|G]]; [|discriminate].
    injection G as -> ->. exists t. repeat split. exact Hm.
  - destruct G as (_ & G & _). discriminate.
Qed.

Lemma reply_answers_task_in_flight_witness :
  exists t : Task,
    _task inFlight = Some t /\ channel inFlight = [request t]
    /\ conforms (ExecutionResult []) (request t) = true.
Proof.
  assert (E : run noDoc
                [Do (CallExecute "1" (opaque "onSuccess") None None
                       (opaque "afterRun"))] Session = Some inFlight)
    by reflexivity.
  destruct (react noDoc (Reply (ExecutionResult [])) inFlight) as [w'|] eqn:R;
    [|vm_compute in R; discriminate R].
  destruct (reply_answers_task_in_flight noDoc _ inFlight w' (ExecutionResult []) E R)
    as (t & H1 & H2 & H3 & _).
  exists t. auto.
Defined.

Lemma callbacks_quiet (doc : string -> option Documentation)
    (t : Task) (message : Result) (w1 : World) :
  busy w1 ->
  quiet w1
    (call_if invoke (afterRun t) None
       (if hasOwnProperty_error message
        then call_if invoke (onError t) (Some message) w1
        else match onSuccess t with
             | Some cb => applyOnSuccess doc cb message w1
             | None => w1
             end)).
Proof.
  intros B1.
  assert (Q2 : quiet w1
                 (if hasOwnProperty_error message
                  then call_if invoke (onError t) (Some message) w1
                  else match onSuccess t with
                       | Some cb => applyOnSuccess doc cb message w1
                       | None => w1
                       end)).
  { destruct (hasOwnProperty_error message).
    - apply call_if_quiet, B1.
    - destruct (onSuccess t); [apply applyOnSuccess_quiet, B1 | apply quiet_refl]. }
  eapply quiet_trans; [exact Q2|].
  apply call_if_quiet. eapply quiet_busy; [exact Q2 | exact B1].
Qed.

(** X18. On a session that runs from its creation and listens, with
    tasks in its queue: when the worker replies, with an error or not,
    the first task of the queue is the next in flight and its request is
    the last event, the only request since the reply; the other tasks of
    the queue stay in their order, before those that the functions of
    the caller have added. *)
Theorem reply_dispatches_next (doc : string -> option Documentation)
    (inputs : list Input) (w w' : World) (message : Result)
    (next : Task) (rest : list Task) :
  run doc inputs Session = Some w ->
  listening w = true -> _tasks w = next :: rest ->
  react doc (Reply message) w = Some w' ->
  _task w' = Some next
  /\ channel w' = [request next]
  /\ (exists new : list Task, _tasks w' = rest ++ new)
  /\ exists evs : list Event,
       trace w' = trace w ++ LogMessage message :: evs ++ [Send (request next)]
       /\ forallb silent evs = true.
Proof.
  intros H Hl Hq R. apply (run_Inv doc inputs Session w Session_Inv) in H.
  destruct H as [_ G]. simpl in R.
  destruct (channel w) as [|req rest0] eqn:Hc; [discriminate|].
  destruct (conforms message req); [|discriminate].
  injection R as <-. simpl. rewrite Hl.
  destruct (_task w) as [t|] eqn:Ht.
  2:{ destruct G as (_ & _ & G). congruence. }
  destruct G as [_ [G|G]]; [|discriminate]. injection G as _ ->.
  unfold _onMessage. simpl _task. rewrite Ht.
  set (w1 := emit (LogMessage message) (set_channel [] w)).
  assert (B1 : busy w1) by (exists t; exact Ht).
  pose proof (callbacks_quiet doc t message w1 B1) as Q. revert Q.
  match goal with |- quiet w1 ?x -> _ => generalize x end.
  intros w3 (Q1 & Q2 & evs & new & Q3 & Q4 & Q5 & Q6).
  simpl in Q1, Q2, Q3, Q4. rewrite Hq in Q4.
  unfold runNext. rewrite Q4. cbn [app]. unfold _runNow.
  set (w4 := set_task (Some next) (set_tasks (rest ++ new) w3)).
  assert (B4 : busy w4) by (exists next; reflexivity).
  destruct (call_if_quiet (beforeRun next) None w4 B4)
    as (P1 & P2 & evs' & new' & P3 & P4 & P5 & P6).
  revert P1 P2 P3 P4.
  generalize (call_if invoke (beforeRun next) None w4).
  intros w5 P1 P2 P3 P4. simpl in P1, P2, P3, P4.
  simpl. rewrite P1, P2, Q2, P3, P4, Q3. repeat split.
  - exists (new ++ new'). now rewrite app_assoc.
  - exists (evs ++ evs'). split.
    + rewrite <- !app_assoc. reflexivity.
    + now rewrite forallb_app, Q5, P5.
Qed.

Lemma reply_dispatches_next_witness :
  exists w w' : World,
    run noDoc threeSubmissions Session = Some w
    /\ react noDoc (Reply (ErrorResult someError)) w = Some w'
    /\ _task w' = Some (executeTask "1" None None None None)
    /\ channel w' = [("run", "1")].
Proof.
  destruct (run noDoc threeSubmissions Session) as [w|] eqn:E;
    [|vm_compute in E; discriminate E].
  assert (L : listening w = true
              /\ _tasks w = [executeTask "1" None None None None;
                             executeTask "2" None None None None]).
  { vm_compute in E. injection E as <-. split; reflexivity. }
  destruct L as [L1 L2].
  destruct (react noDoc (Reply (ErrorResult someError)) w) as [w'|] eqn:R.
  - exists w, w'. split; [reflexivity|]. split; [exact R|].
    destruct (reply_dispatches_next noDoc threeSubmissions w w'
                (ErrorResult someError) _ _ E L1 L2 R) as (H1 & H2 & _).
    split; [exact H1 | exact H2].
  - vm_compute in E. injection E as <-. vm_compute in R. discriminate R.
Defined.

Lemma replies_ignored (doc : string -> option Documentation) (inputs : list Input) :
  forall w w' : World,
    listening w = false -> forallb isReply inputs = true ->
    run doc inputs w = Some w' ->
    trace w' = trace w /\ _task w' = _task w /\ _tasks w' = _tasks w
    /\ _killed w' = _killed w.
Proof.
  induction inputs as [|i inputs IH]; intros w w' Hl Hr; simpl.
  - intros [= <-]. auto.
  - destruct i as [c|message]; [discriminate|]. simpl in Hr.
    simpl. destruct (channel w) as [|req rest]; [discriminate|].
    destruct (conforms message req); [|discriminate].
    simpl. rewrite Hl. intros H.
    apply (IH (set_channel rest w) w' Hl Hr H).
Qed.

(** X19. After [kill], called by the caller outside of the functions it
    supplies: whatever is called and whatever the worker replies, no
    request is sent, the task in flight and the queue stay as they were,
    and the session stays killed; and the replies of the worker call no
    function: they leave no event. *)
Theorem kill_outside_callback (doc : string -> option Documentation)
    (signal : option string) (killCB : option Fn) (inputs : list Input)
    (w w' : World) :
  run doc (Do (CallKill signal killCB) :: inputs) w = Some w' ->
  sent (trace w') = sent (trace w)
  /\ _task w' = _task w /\ _tasks w' = _tasks w /\ _killed w' = true
  /\ (forallb isReply inputs = true ->
      trace w' = trace w ++ [Kill (signal_or_SIGTERM signal)]).
Proof.
  cbn [run react]. intros H.
  assert (D : dead (perform (CallKill signal killCB) w)) by (split; reflexivity).
  destruct (dead_session_sends_nothing doc inputs _ _ D H) as (H1 & H2 & H3).
  assert (K : _killed w' = true).
  { clear H1 H2 H3. revert H D. generalize (perform (CallKill signal killCB) w).
    induction inputs as [|i inputs IH]; intros w0 H D; simpl in H.
    - injection H as <-. apply D.
    - destruct (react doc i w0) as [w1|] eqn:E; [|discriminate].
      apply (IH w1 H). destruct i as [c|message]; simpl in E.
      + injection E as <-. apply (proj2 invoke_perform_still c w0 D).
      + destruct (channel w0) as [|req rest]; [discriminate|].
        destruct (conforms message req); [|discriminate].
        destruct D as [Dk Dl]. simpl in E. rewrite Dl in E.
        injection E as <-. split; assumption. }
  repeat split.
  - rewrite H1. simpl. rewrite sent_app. simpl. apply app_nil_r.
  - exact H2.
  - exact H3.
  - exact K.
  - intros Hr.
    destruct (replies_ignored doc inputs _ _ (proj2 D) Hr H) as (T & _).
    exact T.
Qed.

Lemma kill_outside_callback_witness :
  exists w' : World,
    run noDoc
      [Do (CallKill None None);
       Reply (ExecutionResult [])] inFlight = Some w'
    /\ sent (trace w') = sent (trace inFlight)
    /\ trace w' = trace inFlight ++ [Kill "SIGTERM"].
Proof.
  destruct (run noDoc [Do (CallKill None None); Reply (ExecutionResult [])] inFlight)
    as [w'|] eqn:E; [|vm_compute in E; discriminate E].
  exists w'. split; [reflexivity|].
  destruct (kill_outside_callback noDoc None None [Reply (ExecutionResult [])]
              inFlight w' E) as (H1 & _ & _ & _ & H5).
  split; [exact H1 | apply H5; reflexivity].
Defined.

(** ** After [kill], wherever it is called *)

Lemma grows_same (w w' : World) :
  trace w' = trace w -> _killed w' = _killed w -> listening w' = listening w ->
  grows w w'.
Proof.
  intros H1 H2 H3. exists []. rewrite app_nil_r.
  split; [exact H1|]. split; [intros message []|].
  left. repeat split; try assumption. intros signal [].
Qed.

Lemma grows_refl (w : World) : grows w w.
Proof. apply grows_same; reflexivity. Qed.

Lemma grows_trans (w1 w2 w3 : World) : grows w1 w2 -> grows w2 w3 -> grows w1 w3.
Proof.
  intros (e1 & A1 & A2 & A3) (e2 & B1 & B2 & B3).
  exists (e1 ++ e2). split; [rewrite B1, A1; symmetry; apply app_assoc|].
  split.
  - intros message H. apply in_app_or in H as [H|H]; [exact (A2 _ H) | exact (B2 _ H)].
  - destruct B3 as [(B3 & B4 & B5)|B3]; [|right; exact B3].
    destruct A3 as [(A3 & A4 & A5)|[A3 A4]].
    + left. repeat split; try congruence.
      intros signal H. apply in_app_or in H as [H|H];
        [exact (A5 _ H) | exact (B5 _ H)].
    + right. split; congruence.
Qed.

Lemma grows_emit (e : Event) (w : World) :
  (forall message, e <> LogMessage message) -> (forall signal, e <> Kill signal) ->
  grows w (emit e w).
Proof.
  intros H1 H2. exists [e]. split; [reflexivity|]. split.
  - intros message [H|[]]. exact (H1 _ H).
  - left. repeat split. intros signal [H|[]]. exact (H2 _ H).
Qed.

Lemma grows_kill (signal : option string) (killCB : option Fn) (w : World) :
  grows w (kill signal killCB w).
Proof.
  exists [Kill (signal_or_SIGTERM signal)]. split; [reflexivity|]. split.
  - intros message [H|[]]. discriminate H.
  - right. split; reflexivity.
Qed.

Lemma _runNow_grows (task : Task) (w : World) :
  (forall w0, grows w0 (call_if invoke (beforeRun task) None w0)) ->
  grows w (_runNow invoke task w).
Proof.
  intros Hb. unfold _runNow, send.
  apply grows_trans with (set_task (Some task) w); [apply grows_same; reflexivity|].
  eapply grows_trans; [apply Hb|].
  eapply grows_trans; [|apply grows_emit; discriminate].
  apply grows_same; reflexivity.
Qed.

Lemma _run_grows (task : Task) (w : World) :
  (forall w0, grows w0 (call_if invoke (beforeRun task) None w0)) ->
  grows w (_run invoke task w).
Proof.
  intros Hb. unfold _run. destruct (_killed w); [apply grows_refl|].
  apply grows_trans with (emit (LogTask task) w);
    [apply grows_emit; discriminate|].
  cbv zeta. destruct (_task (emit (LogTask task) w)).
  - apply grows_same; reflexivity.
  - apply _runNow_grows, Hb.
Qed.

(** The functions of the caller and their calls handle no message, and
    a session that they kill does not listen. *)
Lemma invoke_perform_grows :
  (forall f : Fn, forall argument w, grows w (invoke f argument w))
  /\ (forall c : Call, forall w, grows w (perform c w)).
Proof.
  assert (O : forall o : option Fn,
             optP (fun f => forall argument w, grows w (invoke f argument w)) o ->
             forall argument w, grows w (call_if invoke o argument w)).
  { intros [f|] Ho argument w; simpl; [apply Ho | apply grows_refl]. }
  apply (Fn_Call_induction
           (fun f => forall argument w, grows w (invoke f argument w))
           (fun c => forall w, grows w (perform c w))).
  - intros name body Hb argument w. rewrite invoke_eq.
    apply grows_trans with (emit (Invoke name argument) w);
      [apply grows_emit; discriminate|].
    generalize (emit (Invoke name argument) w).
    induction Hb as [|c cs Hc Hcs IH]; intros w0; simpl.
    + apply grows_refl.
    + apply grows_trans with (perform c w0); [apply Hc | apply IH].
  - intros code a b c d _ _ Hc _ w. simpl. unfold execute.
    eapply grows_trans; [apply (grows_emit (LogExecute code)); discriminate|].
    apply _run_grows. intros w0. apply O, Hc.
  - intros code cursorPos a b c d Ha _ Hc _ w. simpl. unfold complete.
    eapply grows_trans;
      [apply (grows_emit (LogComplete (parseExpression code cursorPos)));
       discriminate|].
    destruct (parseExpression code cursorPos).
    + apply _run_grows. intros w0. apply O, Hc.
    + apply O, Ha.
  - intros code cursorPos a b c d Ha _ Hc _ w. simpl. unfold inspect.
    eapply grows_trans;
      [apply (grows_emit (LogInspect (parseExpression code cursorPos)));
       discriminate|].
    destruct (parseExpression code cursorPos).
    + apply _run_grows. intros w0. apply O, Hc.
    + apply O, Ha.
  - intros signal killCB _ w. apply grows_kill.
Qed.

Lemma call_if_grows (o : option Fn) (argument : option Result) (w : World) :
  grows w (call_if invoke o argument w).
Proof.
  destruct o as [f|]; simpl; [apply invoke_perform_grows | apply grows_refl].
Qed.

Lemma invokeCallbacks_grows (r : Result) (a b : option Fn) (w : World) :
  grows w (invokeCallbacks r a b w).
Proof.
  unfold invokeCallbacks. eapply grows_trans; apply call_if_grows.
Qed.

Lemma applyOnSuccess_grows (doc : string -> option Documentation)
    (cb : OnSuccess) (result : Result) (w : World) :
  grows w (applyOnSuccess doc cb result w).
Proof.
  assert (T : grows w (emit TypeError w)) by (apply grows_emit; discriminate).
  destruct cb as [f|code cursorPos e ocs|code cursorPos e ois oe br ar|ir e ois ar];
    simpl.
  - apply invoke_perform_grows.
  - destruct result; try exact T. apply call_if_grows.
  - destruct result; try exact T. unfold getDocumentationAndInvokeCallbacks.
    destruct (negb (truthy (scope e))).
    + apply invokeCallbacks_grows.
    + apply _run_grows. intros w0. apply call_if_grows.
  - destruct result; try exact T. destruct ir; try exact T.
    apply invokeCallbacks_grows.
Qed.

Lemma _onMessage_grows (doc : string -> option Documentation)
    (message : Result) (w : World) :
  grows (emit (LogMessage message) w) (_onMessage doc message w).
Proof.
  unfold _onMessage. cbv zeta.
  generalize (emit (LogMessage message) w). intros w1.
  destruct (_task w1) as [t|]; [|apply grows_emit; discriminate].
  set (w2 := if hasOwnProperty_error message
             then call_if invoke (onError t) (Some message) w1
             else match onSuccess t with
                  | Some cb => applyOnSuccess doc cb message w1
                  | None => w1
                  end).
  assert (G2 : grows w1 w2).
  { unfold w2. destruct (hasOwnProperty_error message).
    - apply call_if_grows.
    - destruct (onSuccess t); [apply applyOnSuccess_grows | apply grows_refl]. }
  apply grows_trans with w2; [exact G2|].
  apply grows_trans with (call_if invoke (afterRun t) None w2);
    [apply call_if_grows|].
  unfold runNext.
  generalize (call_if invoke (afterRun t) None w2). intros w3.
  destruct (_tasks w3) as [|next rest].
  - apply grows_same; reflexivity.
  - eapply grows_trans; [|apply _runNow_grows; intros w0; apply call_if_grows].
    apply grows_same; reflexivity.
Qed.

(** The requests among events that hold no message: one at most, where
    the requests and the messages alternate. *)
Lemma tick_sends (evs : list Event) :
  forall n n' : nat,
    (forall message, ~ In (LogMessage message) evs) ->
    fold_left tick evs (Some n) = Some n' -> n <= 1 ->
    n + List.length (sent evs) = n' /\ n' <= 1.
Proof.
  induction evs as [|e evs IH]; intros n n' Hm H Hn; simpl in H.
  - injection H as <-. simpl. lia.
  - assert (Hm' : forall message, ~ In (LogMessage message) evs)
      by (intros message C; apply (Hm message); right; exact C).
    destruct e; simpl in H;
      try (cbn [sent flat_map app]; apply (IH n n' Hm' H Hn)).
    + exfalso. apply (Hm message). left. reflexivity.
    + destruct n as [|n]; [|rewrite fold_tick_None in H; discriminate].
      destruct (IH 1 n' Hm' H (le_n 1)) as [H1 H2].
      cbn [sent flat_map app List.length]. fold (sent evs). lia.
Qed.

Lemma kill_bound_app (t evs : list Event) :
  kill_bound t ->
  ((exists t1 signal t2, t = t1 ++ Kill signal :: t2) ->
   sent evs = [] /\ forall message, ~ In (LogMessage message) evs) ->
  List.length (sent evs) <= 1 ->
  (forall e1 signal t2,
     evs = e1 ++ Kill signal :: t2 -> forall message, ~ In (LogMessage message) t2) ->
  kill_bound (t ++ evs).
Proof.
  intros Ht Hk Hs Hm t1 signal t2 E.
  apply app_eq_app in E as [l [[E1 E2]|[E1 E2]]].
  - (* the call is in t, or the first of the new events *)
    destruct l as [|x l].
    + simpl in E2. split.
      * rewrite <- E2 in Hs. cbn [sent flat_map app] in Hs. exact Hs.
      * apply (Hm [] signal t2). symmetry. exact E2.
    + injection E2 as <- ->.
      destruct (Hk (ex_intro _ t1 (ex_intro _ signal (ex_intro _ l E1))))
        as [K1 K2].
      destruct (Ht t1 signal l E1) as [B1 B2]. split.
      * rewrite sent_app, K1, app_nil_r. exact B1.
      * intros message H. apply in_app_or in H as [H|H];
          [exact (B2 _ H) | exact (K2 _ H)].
  - (* the call is in the new events *)
    split; [|apply (Hm l signal t2 E2)].
    rewrite E2, sent_app in Hs. rewrite length_app in Hs.
    cbn [sent flat_map app] in Hs. fold (sent t2) in Hs. lia.
Qed.

Lemma Inv_outstanding (w : World) :
  Inv w -> exists n : nat, outstanding (trace w) = Some n /\ n <= 1.
Proof.
  intros [_ G]. destruct (_task w).
  - exists 1. split; [apply G | lia].
  - exists 0. split; [apply G | lia].
Qed.

Lemma no_kill_split (t : list Event) :
  (forall signal, ~ In (Kill signal) t) ->
  (exists t1 signal t2, t = t1 ++ Kill signal :: t2) -> False.
Proof.
  intros H (t1 & signal & t2 & E). apply (H signal). rewrite E.
  apply in_or_app. right. left. reflexivity.
Qed.

Lemma kill_tracked_flags (w w' : World) (evs : list Event) :
  trace w' = trace w ++ evs ->
  (if _killed w then listening w = false
   else listening w = true /\ forall signal, ~ In (Kill signal) (trace w)) ->
  (_killed w' = _killed w /\ listening w' = listening w
   /\ (forall signal, ~ In (Kill signal) evs)
   \/ _killed w' = true /\ listening w' = false) ->
  if _killed w' then listening w' = false
  else listening w' = true /\ forall signal, ~ In (Kill signal) (trace w').
Proof.
  intros Ht Hf [(G1 & G2 & G3)|[G1 G2]].
  - rewrite G1, G2, Ht. destruct (_killed w); [exact Hf|].
    destruct Hf as [Hf1 Hf2]. split; [exact Hf1|].
    intros signal H. apply in_app_or in H as [H|H];
      [exact (Hf2 _ H) | exact (G3 _ H)].
  - now rewrite G1.
Qed.

Lemma react_kill_tracked (doc : string -> option Documentation)
    (i : Input) (w w' : World) :
  kill_tracked w -> react doc i w = Some w' -> kill_tracked w'.
Proof.
  intros (HI & HB & HF) R.
  pose proof (react_Inv doc i w w' HI R) as HI'.
  split; [exact HI'|].
  destruct (Inv_outstanding w HI) as (n & On & Ln).
  destruct (Inv_outstanding w' HI') as (n' & On' & _).
  destruct i as [c|message]; simpl in R.
  - injection R as <-.
    destruct (proj2 invoke_perform_grows c w) as (evs & Ht & Hm & Hk).
    rewrite Ht, outstanding_app, On in On'.
    destruct (tick_sends evs n n' Hm On' Ln) as [S1 S2].
    split; [|apply (kill_tracked_flags w _ evs Ht HF Hk)].
    rewrite Ht. apply kill_bound_app; [exact HB | | lia |].
    + intros Hsplit. split; [|exact Hm]. destruct (_killed w) eqn:Ek.
      * assert (D : dead w) by (split; assumption).
        destruct (proj2 invoke_perform_still c w D) as (_ & S & _).
        rewrite Ht, sent_app in S.
        rewrite <- (app_nil_r (sent (trace w))) in S at 2.
        apply app_inv_head in S. exact S.
      * exfalso. apply (no_kill_split (trace w)); [apply HF | exact Hsplit].
    + intros e1 signal t2 E message H. apply (Hm message). rewrite E.
      apply in_or_app. right. right. exact H.
  - destruct (channel w) as [|req rest] eqn:Hc; [discriminate|].
    destruct (conforms message req); [|discriminate].
    injection R as <-. simpl. simpl in On'.
    destruct (listening w) eqn:El.
    2:{ split; [exact HB|]. simpl. now rewrite El. }
    destruct (_killed w) eqn:Ek; [congruence|]. destruct HF as [_ HF].
    destruct (_onMessage_grows doc message (set_channel rest w))
      as (evs & Ht & Hm & Hk).
    simpl in Ht, Hk. rewrite Ek, El in Hk.
    assert (O1 : n = 1).
    { destruct HI as [_ G]. destruct (_task w).
      - destruct G as [G _]. congruence.
      - destruct G as (_ & G & _). congruence. }
    subst n.
    assert (Ht' : trace (_onMessage doc message (set_channel rest w))
                  = trace w ++ LogMessage message :: evs).
    { rewrite Ht, <- app_assoc. reflexivity. }
    rewrite Ht', outstanding_app, On in On'. simpl in On'.
    destruct (tick_sends evs 0 n' Hm On' (Nat.le_0_l 1)) as [S1 S2].
    split.
    + rewrite Ht'. apply kill_bound_app; [exact HB | | |].
      * intros Hsplit. exfalso. apply (no_kill_split (trace w) HF Hsplit).
      * cbn [sent flat_map app]. fold (sent evs). lia.
      * intros e1 signal t2 E message0 H.
        destruct e1 as [|x e1]; [discriminate E|].
        injection E as _ E. apply (Hm message0). rewrite E.
        apply in_or_app. right. right. exact H.
    + rewrite Ht'. destruct Hk as [(G1 & G2 & G3)|[G1 G2]].
      * rewrite G1, G2. split; [reflexivity|].
        intros signal H. apply in_app_or in H as [H|[H|H]];
          [exact (HF _ H) | discriminate H | exact (G3 _ H)].
      * now rewrite G1.
Qed.

(** X20. On a session that runs from its creation, once [kill] was
    called, also by a function of the caller: the session is killed and
    does not listen; after the call, one request at most was sent and no
    message of the worker was handled. *)
Theorem kill_anywhere (doc : string -> option Documentation)
    (inputs : list Input) (w : World)
    (t1 : list Event) (signal : string) (t2 : list Event) :
  run doc inputs Session = Some w ->
  trace w = t1 ++ Kill signal :: t2 ->
  _killed w = true /\ listening w = false
  /\ List.length (sent t2) <= 1
  /\ forall message : Result, ~ In (LogMessage message) t2.
Proof.
  assert (G : forall inputs w0 w,
             kill_tracked w0 -> run doc inputs w0 = Some w -> kill_tracked w).
  { clear. induction inputs as [|i inputs IH]; intros w0 w H; simpl.
    - intros [= <-]. exact H.
    - destruct (react doc i w0) as [w1|] eqn:E; [|discriminate].
      apply IH. eapply react_kill_tracked; eauto. }
  intros H E.
  assert (K0 : kill_tracked Session).
  { split; [apply Session_Inv|]. split.
    - intros l1 s l2 C. destruct l1; discriminate C.
    - simpl. split; [reflexivity | intros s []]. }
  destruct (G inputs Session w K0 H) as (_ & HB & HF).
  destruct (_killed w).
  - destruct (HB t1 signal t2 E) as [B1 B2]. repeat split; assumption.
  - exfalso. destruct HF as [_ HF]. apply (HF signal). rewrite E.
    apply in_or_app. right. left. reflexivity.
Qed.

Lemma kill_anywhere_witness :
  exists (w : World) (t1 t2 : list Event),
    run noDoc
      [Do (CallExecute "1" (Some (fn "onSuccess1" [CallKill None None]))
             None None None);
       Do (CallExecute "2" None None None None);
       Do (CallExecute "3" None None None None);
       Reply (ExecutionResult [])] Session = Some w
    /\ trace w = t1 ++ Kill "SIGTERM" :: t2
    /\ sent t2 = [("run", "2")]
    /\ _killed w = true /\ listening w = false
    /\ List.length (sent t2) <= 1
    /\ forall message : Result, ~ In (LogMessage message) t2.
Proof.
  destruct (run noDoc
              [Do (CallExecute "1" (Some (fn "onSuccess1" [CallKill None None]))
                     None None None);
               Do (CallExecute "2" None None None None);
               Do (CallExecute "3" None None None None);
               Reply (ExecutionResult [])] Session) as [w|] eqn:E;
    [|vm_compute in E; discriminate E].
  assert (T : exists t1, trace w = t1 ++ Kill "SIGTERM" :: [Send ("run", "2")]).
  { vm_compute in E. injection E as <-.
    match goal with
    | |- exists t1, trace ?W = _ => exists (firstn 9 (trace W))
    end.
    reflexivity. }
  destruct T as (t1 & T).
  exists w, t1, [Send ("run", "2")].
  split; [reflexivity|]. split; [exact T|]. split; [reflexivity|].
  apply (kill_anywhere noDoc _ w t1 "SIGTERM" [Send ("run", "2")] E T).
Defined.
